(** * ejudge-users: a shallow embedding of cmd/ejudge-users/main.go

    The command-line tool registers or unregisters a list of users in a list
    of contests through one form-encoded HTTP endpoint.  This development
    embeds the list parsers, the form construction, the response handling,
    the configuration loader and the driver loop of [main.go], and states
    what they do.

    Go strings are byte sequences: a Go [string] is a [list ascii] here, and
    Go's [int] is the 64-bit signed integer, a [Z] with its range checked
    where the code checks it ([strconv.Atoi]).  Errors are values of
    inductive types, one constructor for each place where the source makes
    an error, and a fallible function returns a sum, the result on the left.

    The functions of the standard library that work on bytes are modelled
    ([GoStd], [GoJSON], [Decode]).  Two that work on Unicode tables, and the
    world of the program (the HTTP exchange, the file system), are
    parameters: the classes [GoLib] and [Platform].  The definitions come
    first, the proofs after them, and the statements at concrete inputs
    last. *)

From Stdlib Require Import ZArith Ascii String List Lia Bool.
From Stdlib Require Import DecimalString DecimalPos DecimalFacts.
From stdpp Require Import base list strings gmap sorting.
Import ListNotations.
Open Scope Z_scope.

(** String literals are read as byte sequences. *)
Coercion list_ascii_of_string : string >-> list.

Abbreviation gostring := (list ascii).

(* ===================================================================== *)
(** * Models of the Go standard library functions the program calls *)
(* ===================================================================== *)

Module GoStd.

Definition byte_val (c : ascii) : Z := Z.of_N (N_of_ascii c).
Definition byte_of (n : Z) : ascii := ascii_of_N (Z.to_N n).

Definition byte_eqb (a b : ascii) : bool := Ascii.eqb a b.

Fixpoint bytes_eqb (s t : gostring) : bool :=
  match s, t with
  | [], [] => true
  | a :: s', b :: t' => byte_eqb a b && bytes_eqb s' t'
  | _, _ => false
  end.

Definition is_empty (s : gostring) : bool :=
  match s with [] => true | _ => false end.

Fixpoint has_prefix (p s : gostring) : bool :=
  match p, s with
  | [], _ => true
  | a :: p', b :: s' => byte_eqb a b && has_prefix p' s'
  | _ :: _, [] => false
  end.

(** [strings.Contains]: some suffix of [s] starts with [sub]. *)
Fixpoint Contains (s sub : gostring) : bool :=
  has_prefix sub s ||
  match s with
  | [] => false
  | _ :: s' => Contains s' sub
  end.

(** ** [unicode.IsSpace] and [strings.TrimSpace]

    [TrimSpace] removes leading and trailing runes for which
    [unicode.IsSpace] holds.  A rune is decoded from the bytes as UTF-8; a
    white-space rune is decoded exactly from its canonical encoding (any
    other byte sequence decodes to another rune or to [RuneError], which is
    not white space), forwards as well as backwards.  So trimming runes is
    removing these byte sequences from both ends. *)

Definition space_encodings : list gostring :=
  map (map byte_of)
    [ [0x09]; [0x0A]; [0x0B]; [0x0C]; [0x0D]; [0x20];       (* \t \n \v \f \r ' ' *)
      [0xC2; 0x85]; [0xC2; 0xA0];                            (* U+0085, U+00A0 *)
      [0xE1; 0x9A; 0x80];                                    (* U+1680 *)
      [0xE2; 0x80; 0x80]; [0xE2; 0x80; 0x81]; [0xE2; 0x80; 0x82];
      [0xE2; 0x80; 0x83]; [0xE2; 0x80; 0x84]; [0xE2; 0x80; 0x85];
      [0xE2; 0x80; 0x86]; [0xE2; 0x80; 0x87]; [0xE2; 0x80; 0x88];
      [0xE2; 0x80; 0x89]; [0xE2; 0x80; 0x8A];               (* U+2000 .. U+200A *)
      [0xE2; 0x80; 0xA8]; [0xE2; 0x80; 0xA9];               (* U+2028, U+2029 *)
      [0xE2; 0x80; 0xAF];                                    (* U+202F *)
      [0xE2; 0x81; 0x9F];                                    (* U+205F *)
      [0xE3; 0x80; 0x80] ].                                  (* U+3000 *)

(** The length of the white-space rune [s] starts with, if it starts with one. *)
Definition leading_space (s : gostring) : option nat :=
  length <$> List.find (fun e => has_prefix e s) space_encodings.

Fixpoint trim_left_fuel (fuel : nat) (s : gostring) : gostring :=
  match fuel with
  | O => s
  | S fuel' =>
      match leading_space s with
      | Some n => trim_left_fuel fuel' (drop n s)
      | None => s
      end
  end.

Definition TrimLeftSpace (s : gostring) : gostring := trim_left_fuel (length s) s.

(** The length of the white-space rune [s] ends with: the reversed string
    starts with the reversed encoding. *)
Definition trailing_space (r : gostring) : option nat :=
  length <$> List.find (fun e => has_prefix (rev e) r) space_encodings.

Fixpoint trim_right_fuel (fuel : nat) (r : gostring) : gostring :=
  match fuel with
  | O => r
  | S fuel' =>
      match trailing_space r with
      | Some n => trim_right_fuel fuel' (drop n r)
      | None => r
      end
  end.

Definition TrimRightSpace (s : gostring) : gostring :=
  rev (trim_right_fuel (length s) (rev s)).

Definition TrimSpace (s : gostring) : gostring := TrimRightSpace (TrimLeftSpace s).

(** ** [strings.FieldsFunc]

    The maximal non-empty runs of bytes between separators.  The predicate of
    [splitList] holds of the ASCII runes [;] and [,] only, which occur in a
    UTF-8 string as these bytes and nowhere inside another rune. *)
Fixpoint fields_go (f : ascii -> bool) (cur : gostring) (s : gostring) : list gostring :=
  match s with
  | [] => match cur with [] => [] | _ => [rev cur] end
  | c :: s' =>
      if f c
      then match cur with
           | [] => fields_go f [] s'
           | _ => rev cur :: fields_go f [] s'
           end
      else fields_go f (c :: cur) s'
  end.

Definition FieldsFunc (s : gostring) (f : ascii -> bool) : list gostring :=
  fields_go f [] s.

(** ** [strings.SplitN(s, sep, 2)] with a one-byte separator: [s] itself when
    the separator does not occur, else what precedes and what follows its
    first occurrence. *)
Fixpoint cut_byte (sep : ascii) (s : gostring) : option (gostring * gostring) :=
  match s with
  | [] => None
  | c :: s' =>
      if byte_eqb c sep then Some ([], s')
      else match cut_byte sep s' with
           | Some (a, b) => Some (c :: a, b)
           | None => None
           end
  end.

Definition SplitN2 (s : gostring) (sep : ascii) : list gostring :=
  match cut_byte sep s with
  | Some (a, b) => [a; b]
  | None => [s]
  end.

(** ** [strconv.Atoi] on a 64-bit platform *)

Definition maxUint64 : Z := 2 ^ 64 - 1.
Definition minInt : Z := - 2 ^ 63.
Definition maxInt : Z := 2 ^ 63 - 1.

Inductive NumError := ErrSyntax | ErrRange.

Definition is_digit (c : ascii) : bool :=
  (byte_val "0" <=? byte_val c) && (byte_val c <=? byte_val "9").

(** [strconv.ParseUint(s, 10, 64)] on the digits: a byte that is no digit is
    a syntax error, a value above [maxUint64] a range error, whichever comes
    first from the left. *)
Fixpoint parse_digits (acc : Z) (s : gostring) : Z + NumError :=
  match s with
  | [] => inl acc
  | c :: s' =>
      if is_digit c then
        let acc' := acc * 10 + (byte_val c - byte_val "0") in
        if maxUint64 <? acc' then inr ErrRange else parse_digits acc' s'
      else inr ErrSyntax
  end.

Definition Atoi (s : gostring) : Z + NumError :=
  match s with
  | [] => inr ErrSyntax
  | c :: s' =>
      let neg := byte_eqb c "-" in
      let digits := if byte_eqb c "-" || byte_eqb c "+" then s' else s in
      match digits with
      | [] => inr ErrSyntax
      | _ =>
          match parse_digits 0 digits with
          | inr e => inr e
          | inl un =>
              if negb neg && (maxInt <? un) then inr ErrRange
              else if neg && (- minInt <? un) then inr ErrRange
              else inl (if neg then - un else un)
          end
      end
  end.

(** [strconv.Itoa]: the decimal digits, with [-] before a negative number. *)
Definition Itoa (n : Z) : gostring :=
  list_ascii_of_string (NilZero.string_of_int (Z.to_int n)).

End GoStd.
Export GoStd.

(* ===================================================================== *)
(** * The data model of main.go *)
(* ===================================================================== *)

(** [type userSpec struct { ID *int; Login string; Name string }] *)
Record userSpec := mkUserSpec {
  ID : option Z;
  Login : gostring;
  Name : gostring
}.

(** The errors of the two list parsers, one constructor per [errors.New] or
    [fmt.Errorf] of the source, holding the values the message is formatted
    from. *)
Inductive parseError :=
| ErrUserListEmpty                                   (* "user list is empty" *)
| ErrInvalidUserSpec (item : gostring)               (* "invalid user specification %q" *)
| ErrUserIdEmpty (item : gostring)                   (* "user identifier is empty in %q" *)
| ErrUserNameEmpty (item : gostring)                 (* "user name is empty in %q" *)
| ErrContestListEmpty                                (* "contest list is empty" *)
| ErrInvalidContestID (item : gostring) (err : NumError). (* "invalid contest ID %q: %w" *)

(* ===================================================================== *)
(** * The list parsers *)
(* ===================================================================== *)

Definition is_separator (r : ascii) : bool := byte_eqb r ";" || byte_eqb r ",".

(** [splitList]: the fields between [;] and [,], trimmed, the empty ones
    dropped. *)
Fixpoint keep_trimmed (parts : list gostring) : list gostring :=
  match parts with
  | [] => []
  | part :: rest =>
      let trimmed := TrimSpace part in
      if negb (is_empty trimmed) then trimmed :: keep_trimmed rest
      else keep_trimmed rest
  end.

Definition splitList (raw : gostring) : list gostring :=
  keep_trimmed (FieldsFunc raw is_separator).

(** The body of the loop of [parseUsers] for one item. *)
Definition parseUser (item : gostring) : userSpec + parseError :=
  match SplitN2 item ":" with
  | [p0; p1] =>
      let idPart := TrimSpace p0 in
      let namePart := TrimSpace p1 in
      if is_empty idPart then inr (ErrUserIdEmpty item)
      else if is_empty namePart then inr (ErrUserNameEmpty item)
      else
        inl {| Name := namePart; Login := idPart;
               ID := match Atoi idPart with inl id => Some id | inr _ => None end |}
  | _ => inr (ErrInvalidUserSpec item)
  end.

(** The loop of [parseUsers]: the first item in error ends it. *)
Fixpoint parseUsers_loop (items : list gostring) (users : list userSpec)
  : list userSpec + parseError :=
  match items with
  | [] => inl users
  | item :: rest =>
      match parseUser item with
      | inr e => inr e
      | inl user => parseUsers_loop rest (users ++ [user])
      end
  end.

Definition parseUsers (raw : gostring) : list userSpec + parseError :=
  let items := splitList raw in
  if (length items =? 0)%nat then inr ErrUserListEmpty
  else parseUsers_loop items [].

Fixpoint parseContestIDs_loop (items : list gostring) (ids : list Z)
  : list Z + parseError :=
  match items with
  | [] => inl ids
  | item :: rest =>
      match Atoi item with
      | inr err => inr (ErrInvalidContestID item err)
      | inl id => parseContestIDs_loop rest (ids ++ [id])
      end
  end.

Definition parseContestIDs (raw : gostring) : list Z + parseError :=
  let items := splitList raw in
  if (length items =? 0)%nat then inr ErrContestListEmpty
  else parseContestIDs_loop items [].

(** ** The tokens of a list, in the words of the specification *)

(** The spec's tokenisation, in its words: split on [;] and [,], trim, drop
    the empty tokens. *)
Fixpoint split_on (f : ascii -> bool) (s : gostring) : list gostring :=
  match s with
  | [] => [[]]
  | c :: s' =>
      if f c then [] :: split_on f s'
      else match split_on f s' with
           | h :: t => (c :: h) :: t
           | [] => [[c]]
           end
  end.

Definition spec_tokens (raw : gostring) : list gostring :=
  filter (fun t => t <> []) (map TrimSpace (split_on is_separator raw)).


Definition cons_head (cur : gostring) (l : list gostring) : list gostring :=
  match l with
  | h :: t => (rev cur ++ h) :: t
  | [] => [rev cur]
  end.


(** The identifier and the name of a token: what precedes and what follows
    its first [:], trimmed. *)
Definition token_parts (item : gostring) : option (gostring * gostring) :=
  match cut_byte ":" item with
  | Some (p0, p1) => Some (TrimSpace p0, TrimSpace p1)
  | None => None
  end.

Definition valid_token (item : gostring) : Prop :=
  exists idPart namePart,
    token_parts item = Some (idPart, namePart) /\ idPart <> [] /\ namePart <> [].

(** The record of a token: the identifier in [Login], the name in [Name], and
    in [ID] the integer the identifier parses to, when it does. *)
Definition record_of (item : gostring) (u : userSpec) : Prop :=
  exists idPart namePart,
    token_parts item = Some (idPart, namePart) /\
    Login u = idPart /\ Name u = namePart /\
    (forall n, ID u = Some n <-> Atoi idPart = inl n) /\
    (ID u = None <-> exists err, Atoi idPart = inr err).

(** What is wrong with a token that [parseUsers] reports as [e]. *)
Definition token_defect (e : parseError) (item : gostring) : Prop :=
  (e = ErrInvalidUserSpec item /\ Forall (fun c => c <> ":"%char) item) \/
  (exists idPart namePart, token_parts item = Some (idPart, namePart) /\
     ((e = ErrUserIdEmpty item /\ idPart = []) \/
      (e = ErrUserNameEmpty item /\ idPart <> [] /\ namePart = []))).

Definition colon_count (s : gostring) : nat :=
  length (filter (fun c => c = ":"%char) s).


(** A token as [splitList] returns it: not empty, without separator, and
    with no white space around it. *)
Definition is_token (t : gostring) : Prop :=
  t <> [] /\ Forall (fun c => is_separator c = false) t /\ TrimSpace t = t.


(** The record and the token of an identifier and a name. *)
Definition user_of (p : gostring * gostring) : userSpec :=
  {| ID := match Atoi p.1 with inl id => Some id | inr _ => None end;
     Login := p.1; Name := p.2 |}.

Definition token_of (p : gostring * gostring) : gostring := p.1 ++ ":"%char :: p.2.


(* ===================================================================== *)
(** * Lists, white space and decimal numbers, on the bytes alone

    What a separator, a field, white space, a trimmed string and a decimal
    number are, stated on byte sequences without the functions that embed
    the program and its library: the statements about the parsers and about
    the messages are made with these. *)
(* ===================================================================== *)

(** The two separators of a list. *)
Definition separator (c : ascii) : Prop := c = ";"%char \/ c = ","%char.

(** The fields of a list: the list is its fields with one separator between
    two of them, and no field holds a separator. *)
Inductive fields_of : gostring -> list gostring -> Prop :=
| fields_last (f : gostring) :
    Forall (fun c => ~ separator c) f -> fields_of f [f]
| fields_more (f : gostring) (c : ascii) (rest : gostring) (fs : list gostring) :
    Forall (fun c => ~ separator c) f -> separator c -> fields_of rest fs ->
    fields_of (f ++ c :: rest) (f :: fs).

(** The white-space runes of Unicode, as [unicode.IsSpace] has them, by
    their code points. *)
Definition space_runes : list Z :=
  [0x09; 0x0A; 0x0B; 0x0C; 0x0D; 0x20; 0x85; 0xA0; 0x1680;
   0x2000; 0x2001; 0x2002; 0x2003; 0x2004; 0x2005; 0x2006; 0x2007; 0x2008;
   0x2009; 0x200A; 0x2028; 0x2029; 0x202F; 0x205F; 0x3000].

(** The UTF-8 encoding of a code point below [0x10000]. *)
Definition utf8 (r : Z) : gostring :=
  let byte n := ascii_of_N (Z.to_N n) in
  if r <? 0x80 then [byte r]
  else if r <? 0x800 then [byte (0xC0 + r / 0x40); byte (0x80 + r mod 0x40)]
  else [byte (0xE0 + r / 0x1000); byte (0x80 + r / 0x40 mod 0x40);
        byte (0x80 + r mod 0x40)].

(** White space: white-space runes, one after the other. *)
Inductive blank : gostring -> Prop :=
| blank_nil : blank []
| blank_rune (r : Z) (s : gostring) :
    In r space_runes -> blank s -> blank (utf8 r ++ s).

Definition starts_with_space (s : gostring) : Prop :=
  exists r rest, In r space_runes /\ s = utf8 r ++ rest.

Definition ends_with_space (s : gostring) : Prop :=
  exists r front, In r space_runes /\ s = front ++ utf8 r.

(** [t] is [s] without the white space around it. *)
Definition trimmed_of (s t : gostring) : Prop :=
  exists l r,
    s = l ++ t ++ r /\ blank l /\ blank r /\
    ~ starts_with_space t /\ ~ ends_with_space t.

(** The fields trimmed, those that are empty then left out. *)
Inductive kept_of : list gostring -> list gostring -> Prop :=
| kept_nil : kept_of [] []
| kept_token (f t : gostring) (fs ts : list gostring) :
    trimmed_of f t -> t <> [] -> kept_of fs ts -> kept_of (f :: fs) (t :: ts)
| kept_empty (f : gostring) (fs ts : list gostring) :
    trimmed_of f [] -> kept_of fs ts -> kept_of (f :: fs) ts.

(** The tokens of a list. *)
Definition tokens_of (raw : gostring) (ts : list gostring) : Prop :=
  exists fs, fields_of raw fs /\ kept_of fs ts.

(** A token of the form [identifier:name]: what precedes its first [:] and
    what follows it, trimmed. *)
Definition id_and_name (item idPart namePart : gostring) : Prop :=
  exists p0 p1,
    item = p0 ++ ":"%char :: p1 /\ ~ In ":"%char p0 /\
    trimmed_of p0 idPart /\ trimmed_of p1 namePart.

(** The ten digits, each at the place of its value. *)
Definition digits10 : gostring := "0123456789".

(** The number written by decimal digits, at least one. *)
Inductive decimal_nat : gostring -> Z -> Prop :=
| decimal_digit (c : ascii) (d : nat) :
    nth_error digits10 d = Some c -> decimal_nat [c] (Z.of_nat d)
| decimal_more (s : gostring) (n : Z) (c : ascii) (d : nat) :
    decimal_nat s n -> nth_error digits10 d = Some c ->
    decimal_nat (s ++ [c]) (10 * n + Z.of_nat d).

(** A base-10 integer as [strconv.Atoi] reads it: digits, after [+] or [-]
    or no sign, for a number in the range of a 64-bit [int]. *)
Definition base10_int (s : gostring) (n : Z) : Prop :=
  - 2 ^ 63 <= n <= 2 ^ 63 - 1 /\
  (decimal_nat s n \/
   (exists d, s = "+"%char :: d /\ decimal_nat d n) \/
   (exists d m, s = "-"%char :: d /\ decimal_nat d m /\ n = - m)).

(** The decimal text of an integer, as [%d] and [strconv.Itoa] write it: no
    [+], no zero before the first digit, [-] before a negative number. *)
Definition decimal_text (d : gostring) (n : Z) : Prop :=
  let plain (t : gostring) := t = ["0"%char] \/ head t <> Some "0"%char in
  (0 <= n /\ decimal_nat d n /\ plain d) \/
  (n < 0 /\ exists t, d = "-"%char :: t /\ decimal_nat t (- n) /\ plain t).

(* ===================================================================== *)
(** * A model of encoding/json, as far as the program uses it *)
(* ===================================================================== *)

Module GoJSON.

#[local] Set Warnings "-register-all".

Inductive json :=
| JNull
| JBool (b : bool)
| JNumber (lit : gostring)
| JString (s : gostring)
| JArray (elems : list json)
| JObject (members : list (gostring * json)).

(** How the scanner fails: the input ends inside a value, a byte cannot
    continue the value, or arrays and objects nest deeper than
    [maxNestingDepth].  [ErrFuel] is the model's own, and never the result of
    [scan] (see [scan_value_fuel]). *)
Inductive scanError := ErrUnexpectedEnd | ErrInvalidChar | ErrMaxDepth | ErrFuel.

Inductive presult (A : Type) :=
| POk (a : A) (rest : gostring)
| PErr (e : scanError).
Arguments POk {A} a rest.
Arguments PErr {A} e.

Definition maxNestingDepth : Z := 10000.

(** The double quote. *)
Definition dquote : ascii := "034"%char.

(** JSON texts are written with ['] where the text has a double quote. *)
Definition jsontext (s : string) : gostring :=
  map (fun c => if byte_eqb c "'" then dquote else c) (list_ascii_of_string s).

Definition isSpace (c : ascii) : bool :=
  byte_eqb c " " || byte_eqb c (byte_of 9) || byte_eqb c (byte_of 13) || byte_eqb c (byte_of 10).

Fixpoint skip_space (s : gostring) : gostring :=
  match s with
  | c :: r => if isSpace c then skip_space r else s
  | [] => []
  end.

Definition in_range (lo hi c : ascii) : bool :=
  (byte_val lo <=? byte_val c) && (byte_val c <=? byte_val hi).

Definition is_hex (c : ascii) : bool :=
  in_range "0" "9" c || in_range "a" "f" c || in_range "A" "F" c.

Definition hex_val (c : ascii) : Z :=
  if in_range "0" "9" c then byte_val c - byte_val "0"
  else if in_range "a" "f" c then byte_val c - byte_val "a" + 10
  else byte_val c - byte_val "A" + 10.

(** ** Strings *)

(** The bytes of a string literal up to its closing quote, escapes as they
    are written; [s] is what follows the opening quote. *)
Fixpoint scan_string (s : gostring) : presult gostring :=
  match s with
  | [] => PErr ErrUnexpectedEnd
  | c :: r =>
      if byte_eqb c dquote then POk [] r
      else if byte_eqb c "\" then
        match r with
        | [] => PErr ErrUnexpectedEnd
        | e :: r1 =>
            if existsb (byte_eqb e) ["b"; "f"; "n"; "r"; "t"; "\"; "/"; dquote]%char then
              match scan_string r1 with
              | POk raw rest => POk (c :: e :: raw) rest
              | PErr err => PErr err
              end
            else if byte_eqb e "u" then
              match r1 with
              | [] => PErr ErrUnexpectedEnd
              | h1 :: r2 =>
                  if negb (is_hex h1) then PErr ErrInvalidChar else
                  match r2 with
                  | [] => PErr ErrUnexpectedEnd
                  | h2 :: r3 =>
                      if negb (is_hex h2) then PErr ErrInvalidChar else
                      match r3 with
                      | [] => PErr ErrUnexpectedEnd
                      | h3 :: r4 =>
                          if negb (is_hex h3) then PErr ErrInvalidChar else
                          match r4 with
                          | [] => PErr ErrUnexpectedEnd
                          | h4 :: r5 =>
                              if negb (is_hex h4) then PErr ErrInvalidChar else
                              match scan_string r5 with
                              | POk raw rest => POk (c :: e :: h1 :: h2 :: h3 :: h4 :: raw) rest
                              | PErr err => PErr err
                              end
                          end
                      end
                  end
              end
            else PErr ErrInvalidChar
        end
      else if byte_val c <? 32 then PErr ErrInvalidChar
      else
        match scan_string r with
        | POk raw rest => POk (c :: raw) rest
        | PErr err => PErr err
        end
  end.

(** [utf8.AppendRune] for a rune below [0x110000] that is no surrogate. *)
Definition encode_rune (r : Z) : gostring :=
  if r <? 0x80 then [byte_of r]
  else if r <? 0x800 then
    [byte_of (0xC0 + r / 64); byte_of (0x80 + r mod 64)]
  else if r <? 0x10000 then
    [byte_of (0xE0 + r / 4096); byte_of (0x80 + (r / 64) mod 64); byte_of (0x80 + r mod 64)]
  else
    [byte_of (0xF0 + r / 262144); byte_of (0x80 + (r / 4096) mod 64);
     byte_of (0x80 + (r / 64) mod 64); byte_of (0x80 + r mod 64)].

Definition RuneError : Z := 0xFFFD.

Definition is_cont (c : ascii) : bool := (0x80 <=? byte_val c) && (byte_val c <=? 0xBF).

(** The number of bytes of the rune [s] starts with, as [utf8.DecodeRune]
    accepts it; 0 when the first byte does not start a valid encoding. *)
Definition utf8_width (s : gostring) : nat :=
  match s with
  | [] => 0%nat
  | c0 :: r =>
      let b0 := byte_val c0 in
      if b0 <? 0x80 then 1%nat
      else if (0xC2 <=? b0) && (b0 <=? 0xDF) then
        match r with
        | c1 :: _ => if is_cont c1 then 2%nat else 0%nat
        | _ => 0%nat
        end
      else if (0xE0 <=? b0) && (b0 <=? 0xEF) then
        match r with
        | c1 :: c2 :: _ =>
            let lo := if b0 =? 0xE0 then 0xA0 else 0x80 in
            let hi := if b0 =? 0xED then 0x9F else 0xBF in
            if (lo <=? byte_val c1) && (byte_val c1 <=? hi) && is_cont c2 then 3%nat else 0%nat
        | _ => 0%nat
        end
      else if (0xF0 <=? b0) && (b0 <=? 0xF4) then
        match r with
        | c1 :: c2 :: c3 :: _ =>
            let lo := if b0 =? 0xF0 then 0x90 else 0x80 in
            let hi := if b0 =? 0xF4 then 0x8F else 0xBF in
            if (lo <=? byte_val c1) && (byte_val c1 <=? hi) && is_cont c2 && is_cont c3
            then 4%nat else 0%nat
        | _ => 0%nat
        end
      else 0%nat
  end.

Definition getu4 (h1 h2 h3 h4 : ascii) : Z :=
  ((hex_val h1 * 16 + hex_val h2) * 16 + hex_val h3) * 16 + hex_val h4.

Definition simple_escape (e : ascii) : ascii :=
  if byte_eqb e "b" then byte_of 8
  else if byte_eqb e "f" then byte_of 12
  else if byte_eqb e "n" then byte_of 10
  else if byte_eqb e "r" then byte_of 13
  else if byte_eqb e "t" then byte_of 9
  else e.

(** [unquote]: the string a scanned literal denotes.  Escapes are replaced, a
    [\u] escape by the UTF-8 encoding of its rune (two escapes that form a
    surrogate pair by the rune of the pair, any other surrogate by
    [RuneError]); a byte that starts no valid UTF-8 encoding is replaced by
    [RuneError].  [pending] counts the bytes still to copy of a rune whose
    encoding has been checked. *)
Fixpoint unquote_go (pending : nat) (s : gostring) : gostring :=
  match s with
  | [] => []
  | c :: r =>
      match pending with
      | S k => c :: unquote_go k r
      | O =>
          if byte_eqb c "\" then
            match r with
            | [] => []
            | e :: r1 =>
                if byte_eqb e "u" then
                  match r1 with
                  | h1 :: h2 :: h3 :: h4 :: r5 =>
                      let rr := getu4 h1 h2 h3 h4 in
                      if (0xD800 <=? rr) && (rr <? 0xE000) then
                        match r5 with
                        | b :: u :: g1 :: g2 :: g3 :: g4 :: r11 =>
                            let rr1 := getu4 g1 g2 g3 g4 in
                            if byte_eqb b "\" && byte_eqb u "u"
                               && is_hex g1 && is_hex g2 && is_hex g3 && is_hex g4
                               && (rr <? 0xDC00) && (0xDC00 <=? rr1) && (rr1 <? 0xE000)
                            then encode_rune ((rr - 0xD800) * 1024 + (rr1 - 0xDC00) + 0x10000)
                                   ++ unquote_go 0 r11
                            else encode_rune RuneError ++ unquote_go 0 r5
                        | _ => encode_rune RuneError ++ unquote_go 0 r5
                        end
                      else encode_rune rr ++ unquote_go 0 r5
                  | _ => []
                  end
                else simple_escape e :: unquote_go 0 r1
            end
          else
            match utf8_width s with
            | O => encode_rune RuneError ++ unquote_go 0 r
            | S k => c :: unquote_go k r
            end
      end
  end.

Definition unquote (raw : gostring) : gostring := unquote_go 0 raw.

(** ** Numbers and literals *)

Fixpoint span_digits (s : gostring) : gostring * gostring :=
  match s with
  | c :: r => if is_digit c then let '(ds, rest) := span_digits r in (c :: ds, rest) else ([], s)
  | [] => ([], [])
  end.

(** At least one digit, and the digits that follow it. *)
Definition scan_digits1 (s : gostring) : presult gostring :=
  match s with
  | [] => PErr ErrUnexpectedEnd
  | d :: _ =>
      if is_digit d then let '(ds, rest) := span_digits s in POk ds rest
      else PErr ErrInvalidChar
  end.

Definition scan_exponent (lit s : gostring) : presult gostring :=
  match s with
  | e :: r =>
      if byte_eqb e "e" || byte_eqb e "E" then
        let '(sign, r1) :=
          match r with
          | g :: r' => if byte_eqb g "+" || byte_eqb g "-" then ([g], r') else ([], r)
          | [] => ([], r)
          end in
        match scan_digits1 r1 with
        | POk ds rest => POk (lit ++ e :: sign ++ ds) rest
        | PErr err => PErr err
        end
      else POk lit s
  | [] => POk lit s
  end.

Definition scan_fraction (lit s : gostring) : presult gostring :=
  match s with
  | p :: r =>
      if byte_eqb p "." then
        match scan_digits1 r with
        | POk ds rest => scan_exponent (lit ++ p :: ds) rest
        | PErr err => PErr err
        end
      else scan_exponent lit s
  | [] => POk lit s
  end.

(** A number: an optional minus sign; a zero, or a digit from 1 to 9 and any
    digits; optionally a point and one digit or more; optionally [e] or [E],
    an optional sign and one digit or more. *)
Definition scan_number (s : gostring) : presult gostring :=
  let '(sign, s1) :=
    match s with
    | m :: r => if byte_eqb m "-" then ([m], r) else ([], s)
    | [] => ([], s)
    end in
  match s1 with
  | [] => PErr ErrUnexpectedEnd
  | c :: r =>
      if byte_eqb c "0" then scan_fraction (sign ++ [c]) r
      else if in_range "1" "9" c then
        let '(ds, rest) := span_digits r in scan_fraction (sign ++ c :: ds) rest
      else PErr ErrInvalidChar
  end.

(** The rest of [true], [false] or [null], byte by byte. *)
Fixpoint scan_literal (lit s : gostring) : presult unit :=
  match lit with
  | [] => POk tt s
  | l :: lit' =>
      match s with
      | [] => PErr ErrUnexpectedEnd
      | c :: s' => if byte_eqb c l then scan_literal lit' s' else PErr ErrInvalidChar
      end
  end.

(** ** Values

    [scan_value] reads one value from the front of [s], after white space,
    and returns it with what follows.  [depth] is the number of arrays and
    objects the value is inside of. *)
Fixpoint scan_value (fuel : nat) (depth : Z) (s : gostring) {struct fuel} : presult json :=
  match fuel with
  | O => PErr ErrFuel
  | S fuel' =>
      match skip_space s with
      | [] => PErr ErrUnexpectedEnd
      | c :: r =>
          if byte_eqb c "{" then
            if maxNestingDepth <? depth + 1 then PErr ErrMaxDepth else
            match skip_space r with
            | [] => PErr ErrUnexpectedEnd
            | c' :: r' =>
                if byte_eqb c' "}" then POk (JObject []) r'
                else scan_members fuel' (depth + 1) r []
            end
          else if byte_eqb c "[" then
            if maxNestingDepth <? depth + 1 then PErr ErrMaxDepth else
            match skip_space r with
            | [] => PErr ErrUnexpectedEnd
            | c' :: r' =>
                if byte_eqb c' "]" then POk (JArray []) r'
                else scan_elements fuel' (depth + 1) r []
            end
          else if byte_eqb c dquote then
            match scan_string r with
            | POk raw rest => POk (JString (unquote raw)) rest
            | PErr e => PErr e
            end
          else if byte_eqb c "-" || is_digit c then
            match scan_number (c :: r) with
            | POk lit rest => POk (JNumber lit) rest
            | PErr e => PErr e
            end
          else if byte_eqb c "t" then
            match scan_literal "rue" r with
            | POk _ rest => POk (JBool true) rest
            | PErr e => PErr e
            end
          else if byte_eqb c "f" then
            match scan_literal "alse" r with
            | POk _ rest => POk (JBool false) rest
            | PErr e => PErr e
            end
          else if byte_eqb c "n" then
            match scan_literal "ull" r with
            | POk _ rest => POk JNull rest
            | PErr e => PErr e
            end
          else PErr ErrInvalidChar
      end
  end
with scan_elements (fuel : nat) (depth : Z) (s : gostring) (acc : list json)
       {struct fuel} : presult json :=
  match fuel with
  | O => PErr ErrFuel
  | S fuel' =>
      match scan_value fuel' depth s with
      | PErr e => PErr e
      | POk v r =>
          match skip_space r with
          | [] => PErr ErrUnexpectedEnd
          | c :: r' =>
              if byte_eqb c "," then scan_elements fuel' depth r' (acc ++ [v])
              else if byte_eqb c "]" then POk (JArray (acc ++ [v])) r'
              else PErr ErrInvalidChar
          end
      end
  end
with scan_members (fuel : nat) (depth : Z) (s : gostring) (acc : list (gostring * json))
       {struct fuel} : presult json :=
  match fuel with
  | O => PErr ErrFuel
  | S fuel' =>
      match skip_space s with
      | [] => PErr ErrUnexpectedEnd
      | q :: r =>
          if negb (byte_eqb q dquote) then PErr ErrInvalidChar else
          match scan_string r with
          | PErr e => PErr e
          | POk raw r1 =>
              match skip_space r1 with
              | [] => PErr ErrUnexpectedEnd
              | c :: r2 =>
                  if negb (byte_eqb c ":") then PErr ErrInvalidChar else
                  match scan_value fuel' depth r2 with
                  | PErr e => PErr e
                  | POk v r3 =>
                      match skip_space r3 with
                      | [] => PErr ErrUnexpectedEnd
                      | c' :: r4 =>
                          if byte_eqb c' "," then
                            scan_members fuel' depth r4 (acc ++ [(unquote raw, v)])
                          else if byte_eqb c' "}" then
                            POk (JObject (acc ++ [(unquote raw, v)])) r4
                          else PErr ErrInvalidChar
                      end
                  end
              end
          end
      end
  end.

(** One value from the front of [s]; the fuel is enough for any input. *)
Definition scan (s : gostring) : presult json :=
  scan_value (2 * length s + 1) 0 s.

End GoJSON.
Export GoJSON.

(* ===================================================================== *)
(** * Decoding JSON values into the structs of main.go *)
(* ===================================================================== *)

(** [type replyError struct], with the keys [message], [num], [symbol] and
    [log_id]. *)
Record replyError := mkReplyError {
  Message : gostring;
  Num : Z;
  Symbol : gostring;
  LogID : gostring
}.

(** [type changeRegistrationReply struct], with the keys [ok], [result],
    [error] and [action]. *)
Record changeRegistrationReply := mkReply {
  OK : bool;
  Result : bool;
  Error : option replyError;
  Action : gostring
}.

(** [type config struct], with the key [token]. *)
Record config := mkConfig { Token : gostring }.

Definition zero_replyError : replyError :=
  {| Message := []; Num := 0; Symbol := []; LogID := [] |}.
Definition zero_reply : changeRegistrationReply :=
  {| OK := false; Result := false; Error := None; Action := [] |}.
Definition zero_config : config := {| Token := [] |}.

Module Decode.

(** [*json.UnmarshalTypeError]: the JSON value, the struct and the path of the
    field it was meant for, and the Go type of the field. *)
Record UnmarshalTypeError := mkTypeError {
  Value : gostring;
  Struct : gostring;
  Field : gostring;
  Type_ : gostring
}.

Inductive jsonError :=
| SyntaxError (e : scanError)
| TypeError (e : UnmarshalTypeError)
| UnknownField (key : gostring).

(** [UnmarshalTypeError.Error]. *)
Definition typeErrorText (e : UnmarshalTypeError) : gostring :=
  if negb (is_empty (Struct e)) || negb (is_empty (Field e)) then
    "json: cannot unmarshal " ++ Value e ++ " into Go struct field "
      ++ Struct e ++ "." ++ Field e ++ " of type " ++ Type_ e
  else
    "json: cannot unmarshal " ++ Value e ++ " into Go value of type " ++ Type_ e.

Definition kind_of (v : json) : gostring :=
  match v with
  | JNull => "null"
  | JBool _ => "bool"
  | JNumber _ => "number"
  | JString _ => "string"
  | JArray _ => "array"
  | JObject _ => "object"
  end.

Definition upper (c : ascii) : ascii :=
  if in_range "a" "z" c then byte_of (byte_val c - 32) else c.

(** The folded form of a key, by which a key is matched with a field name
    whatever the case of its letters.  ASCII letters fold to upper case, and
    so do the two other runes that fold to an ASCII letter, U+017F to [S] and
    U+212A to [K]; every other rune folds to a rune that is not ASCII, and is
    left as it is: the model is exact for the comparison with the folded form
    of an ASCII name, which is all the decoder does with it. *)
Fixpoint foldName (s : gostring) : gostring :=
  match s with
  | [] => []
  | c :: r =>
      match r with
      | [] => [upper c]
      | c2 :: r2 =>
          if (byte_val c =? 0xC5) && (byte_val c2 =? 0xBF) then "S"%char :: foldName r2
          else
            match r2 with
            | [] => upper c :: foldName r
            | c3 :: r3 =>
                if (byte_val c =? 0xE2) && (byte_val c2 =? 0x84) && (byte_val c3 =? 0xAA)
                then "K"%char :: foldName r3
                else upper c :: foldName r
            end
      end
  end.

(** A key names a field when it is the field's name, or folds to the same. *)
Definition field_matches (key name : gostring) : bool :=
  bytes_eqb key name || bytes_eqb (foldName key) (foldName name).

(** The decoder keeps the first error and goes on. *)
Definition saveError (saved new : option jsonError) : option jsonError :=
  match saved with
  | Some _ => saved
  | None => new
  end.

Definition mismatch (v : json) (struct field type : gostring) : option jsonError :=
  Some (TypeError {| Value := kind_of v; Struct := struct; Field := field; Type_ := type |}).

(** A value into a [bool], a [string] or an [int] field: [null] leaves the
    field as it is, a value of another kind as well, with a type error. *)
Definition decode_bool (struct field : gostring) (v : json) (cur : bool)
  : bool * option jsonError :=
  match v with
  | JBool b => (b, None)
  | JNull => (cur, None)
  | _ => (cur, mismatch v struct field "bool")
  end.

Definition decode_string (struct field : gostring) (v : json) (cur : gostring)
  : gostring * option jsonError :=
  match v with
  | JString s => (s, None)
  | JNull => (cur, None)
  | _ => (cur, mismatch v struct field "string")
  end.

Definition decode_int (struct field : gostring) (v : json) (cur : Z)
  : Z * option jsonError :=
  match v with
  | JNumber lit =>
      match Atoi lit with
      | inl n => (n, None)
      | inr _ =>
          (cur, Some (TypeError {| Value := "number " ++ lit; Struct := struct;
                                   Field := field; Type_ := "int" |}))
      end
  | JNull => (cur, None)
  | _ => (cur, mismatch v struct field "int")
  end.

(** The members of an object into a [replyError]; [path] is the path of the
    struct in the value being decoded.  Keys that name no field are skipped. *)
Fixpoint decode_replyError_members (path : gostring) (ms : list (gostring * json))
    (cur : replyError) : replyError * option jsonError :=
  match ms with
  | [] => (cur, None)
  | (key, v) :: rest =>
      let '(cur', e) :=
        if field_matches key "message" then
          let '(x, e) := decode_string "replyError" (path ++ "message") v (Message cur) in
          ({| Message := x; Num := Num cur; Symbol := Symbol cur; LogID := LogID cur |}, e)
        else if field_matches key "num" then
          let '(x, e) := decode_int "replyError" (path ++ "num") v (Num cur) in
          ({| Message := Message cur; Num := x; Symbol := Symbol cur; LogID := LogID cur |}, e)
        else if field_matches key "symbol" then
          let '(x, e) := decode_string "replyError" (path ++ "symbol") v (Symbol cur) in
          ({| Message := Message cur; Num := Num cur; Symbol := x; LogID := LogID cur |}, e)
        else if field_matches key "log_id" then
          let '(x, e) := decode_string "replyError" (path ++ "log_id") v (LogID cur) in
          ({| Message := Message cur; Num := Num cur; Symbol := Symbol cur; LogID := x |}, e)
        else (cur, None) in
      let '(cur'', e') := decode_replyError_members path rest cur' in
      (cur'', saveError e e')
  end.

(** A value into the field [Error *replyError]: [null] makes it nil, an
    object is decoded into the struct it points to, which is allocated when
    the pointer is nil; so it is for a value of another kind, a type error. *)
Definition decode_replyError_ptr (struct field : gostring) (v : json)
    (cur : option replyError) : option replyError * option jsonError :=
  let target := match cur with Some e => e | None => zero_replyError end in
  match v with
  | JNull => (None, None)
  | JObject ms =>
      let '(e, err) := decode_replyError_members (field ++ ".") ms target in
      (Some e, err)
  | _ => (Some target, mismatch v struct field "main.replyError")
  end.

Fixpoint decode_reply_members (ms : list (gostring * json)) (cur : changeRegistrationReply)
  : changeRegistrationReply * option jsonError :=
  match ms with
  | [] => (cur, None)
  | (key, v) :: rest =>
      let '(cur', e) :=
        if field_matches key "ok" then
          let '(x, e) := decode_bool "changeRegistrationReply" "ok" v (OK cur) in
          ({| OK := x; Result := Result cur; Error := Error cur; Action := Action cur |}, e)
        else if field_matches key "result" then
          let '(x, e) := decode_bool "changeRegistrationReply" "result" v (Result cur) in
          ({| OK := OK cur; Result := x; Error := Error cur; Action := Action cur |}, e)
        else if field_matches key "error" then
          let '(x, e) := decode_replyError_ptr "changeRegistrationReply" "error" v (Error cur) in
          ({| OK := OK cur; Result := Result cur; Error := x; Action := Action cur |}, e)
        else if field_matches key "action" then
          let '(x, e) := decode_string "changeRegistrationReply" "action" v (Action cur) in
          ({| OK := OK cur; Result := Result cur; Error := Error cur; Action := x |}, e)
        else (cur, None) in
      let '(cur'', e') := decode_reply_members rest cur' in
      (cur'', saveError e e')
  end.

Definition decode_reply (v : json) (cur : changeRegistrationReply)
  : changeRegistrationReply * option jsonError :=
  match v with
  | JNull => (cur, None)
  | JObject ms => decode_reply_members ms cur
  | _ => (cur, mismatch v [] [] "main.changeRegistrationReply")
  end.

(** The members of an object into a [config], under
    [DisallowUnknownFields]: a key that names no field is an error. *)
Fixpoint decode_config_members (ms : list (gostring * json)) (cur : config)
  : config * option jsonError :=
  match ms with
  | [] => (cur, None)
  | (key, v) :: rest =>
      let '(cur', e) :=
        if field_matches key "token" then
          let '(x, e) := decode_string "config" "token" v (Token cur) in
          ({| Token := x |}, e)
        else (cur, Some (UnknownField key)) in
      let '(cur'', e') := decode_config_members rest cur' in
      (cur'', saveError e e')
  end.

Definition decode_config (v : json) (cur : config) : config * option jsonError :=
  match v with
  | JNull => (cur, None)
  | JObject ms => decode_config_members ms cur
  | _ => (cur, mismatch v [] [] "main.config")
  end.

(** A value into [struct{}], under [DisallowUnknownFields]: every key is
    unknown. *)
Definition decode_empty_struct (v : json) : option jsonError :=
  match v with
  | JNull => None
  | JObject [] => None
  | JObject ((key, _) :: _) => Some (UnknownField key)
  | _ => mismatch v [] [] "struct {}"
  end.

(** [json.Unmarshal(data, &reply)]: the data are one value and white space,
    or nothing is decoded; then the value is decoded. *)
Definition Unmarshal_reply (data : gostring) (cur : changeRegistrationReply)
  : changeRegistrationReply * option jsonError :=
  match scan data with
  | PErr e => (cur, Some (SyntaxError e))
  | POk v rest =>
      match skip_space rest with
      | [] => decode_reply v cur
      | _ => (cur, Some (SyntaxError ErrInvalidChar))
      end
  end.

End Decode.
Export Decode.

(* ===================================================================== *)
(** * The registration client *)
(* ===================================================================== *)

(** [type actionType string] and its two constants. *)
Definition actionType := gostring.
Definition actionRegister : actionType := "register".
Definition actionUnregister : actionType := "unregister".

Definition changeRegistrationPath : gostring := "/ej/api/v1/master/change-registration".

(** ** [url.Values] *)

Abbreviation Values := (gmap gostring (list gostring)).

(** [Values.Set]: the key has this one value from now on. *)
Definition Values_Set (v : Values) (key value : gostring) : Values :=
  <[ key := [value] ]> v.

Definition upperhex (n : Z) : ascii :=
  if n <? 10 then byte_of (byte_val "0" + n) else byte_of (byte_val "A" + (n - 10)).

(** [url.shouldEscape] in the mode of a query component: letters, digits and
    [-], [_], [.], [~] are kept. *)
Definition shouldEscape (c : ascii) : bool :=
  negb (in_range "a" "z" c || in_range "A" "Z" c || in_range "0" "9" c
        || existsb (byte_eqb c) ["-"; "_"; "."; "~"]%char).

(** [url.QueryEscape]. *)
Fixpoint QueryEscape (s : gostring) : gostring :=
  match s with
  | [] => []
  | c :: r =>
      if shouldEscape c then
        if byte_eqb c " " then "+"%char :: QueryEscape r
        else "%"%char :: upperhex (byte_val c / 16) :: upperhex (byte_val c mod 16)
               :: QueryEscape r
      else c :: QueryEscape r
  end.

(** The order of [slices.Sort] on strings: byte by byte. *)
Fixpoint bytes_leb (s t : gostring) : bool :=
  match s, t with
  | [], _ => true
  | _ :: _, [] => false
  | a :: s', b :: t' =>
      if byte_val a <? byte_val b then true
      else if byte_val b <? byte_val a then false
      else bytes_leb s' t'
  end.

Definition key_le (a b : gostring * list gostring) : Prop := bytes_leb a.1 b.1 = true.

#[global] Instance key_le_dec : RelDecision key_le :=
  fun a b => decide (bytes_leb a.1 b.1 = true).

Definition encode_pair (key : gostring) (value : gostring) : gostring :=
  QueryEscape key ++ "=" ++ QueryEscape value.

Fixpoint join_with (sep : gostring) (parts : list gostring) : gostring :=
  match parts with
  | [] => []
  | [p] => p
  | p :: rest => p ++ sep ++ join_with sep rest
  end.

(** [Values.Encode]: [key=value] for the keys in order, joined by [&]. *)
Definition Values_Encode (v : Values) : gostring :=
  join_with "&"
    (concat (map (fun kv : gostring * list gostring => map (encode_pair kv.1) kv.2)
                 (merge_sort key_le (map_to_list v)))).

(** ** Requests, responses and errors *)

(** [http.Client], as [main] configures it. *)
Record httpClient := mkClient {
  clientTimeout : Z;
  InsecureSkipVerify : bool
}.

(** The request [changeRegistration] sends: a POST of [reqBody] to [reqURL]
    with these headers, under a context that expires after [reqTimeout]. *)
Record httpRequest := mkRequest {
  reqURL : gostring;
  reqHeader : list (gostring * gostring);
  reqBody : gostring;
  reqTimeout : Z
}.

(** What [changeRegistration] looks at in the response: the status code and
    line, [Header.Get("Content-Type")], and what [io.ReadAll] returns for the
    body, the bytes or an error. *)
Record httpResponse := mkResponse {
  StatusCode : Z;
  Status : gostring;
  ContentType : gostring;
  Body : gostring + gostring
}.

(** The errors of [changeRegistration], one constructor per [fmt.Errorf] or
    [errors.New], holding the values the message is formatted from. *)
Inductive callError :=
| ErrUnsupportedAction (action : actionType)        (* "unsupported action %q" *)
| ErrCreatingRequest (err : gostring)               (* "creating request: %w" *)
| ErrSendingRequest (err : gostring)                (* "sending request: %w" *)
| ErrReadingResponse (err : gostring)               (* "reading response: %w" *)
| ErrUnexpectedStatus (status body : gostring)      (* "unexpected status %s: %s" *)
| ErrUnexpectedContentType (contentType status preview : gostring)
    (* "unexpected response content type %q (status %s): %s" *)
| ErrDecodingResponse (err : jsonError)             (* "decoding response: %w" *)
| ErrServerError (err : replyError)
    (* "server error: %s (code %d, symbol %s, log %s)" *)
| ErrNotAcknowledged.                               (* "registration change was not acknowledged" *)

(** The message of an error, where it is formatted from strings and integers
    alone; the messages with a quoted string ([%q]) or with the text of a
    syntax error of the JSON scanner are not spelled out. *)
Definition callErrorText (e : callError) : option gostring :=
  match e with
  | ErrCreatingRequest err => Some ("creating request: " ++ err)
  | ErrSendingRequest err => Some ("sending request: " ++ err)
  | ErrReadingResponse err => Some ("reading response: " ++ err)
  | ErrUnexpectedStatus status body => Some ("unexpected status " ++ status ++ ": " ++ body)
  | ErrDecodingResponse (TypeError te) => Some ("decoding response: " ++ typeErrorText te)
  | ErrServerError err =>
      Some ("server error: " ++ Message err ++ " (code " ++ Itoa (Num err)
              ++ ", symbol " ++ Symbol err ++ ", log " ++ LogID err ++ ")")
  | ErrNotAcknowledged => Some (list_ascii_of_string "registration change was not acknowledged")
  | _ => None
  end.

(** ** What the model takes as given

    The results of two library functions that work on Unicode tables, and
    the world the program runs in: the HTTP exchange and the file system. *)

Class GoLib := {
  (** [mime.ParseMediaType]: the media type, in lower case and without its
      parameters, or nothing when the header value does not parse. *)
  ParseMediaType : gostring -> option gostring;
  (** [strings.ToLower]. *)
  ToLower : gostring -> gostring;
  (** The error of [http.NewRequestWithContext] for this URL, if any. *)
  NewRequest_error : gostring -> option gostring
}.

(** The bytes a file yields, and how reading it ends: at the end of the file,
    or with an error. *)
Record fileStream := mkFile {
  fileData : gostring;
  readError : option gostring
}.

Class Platform (World : Type) := {
  (** [client.Do(req)] and [io.ReadAll(resp.Body)]: an error of the
      transport, or the response. *)
  client_Do : httpClient -> httpRequest -> World -> World * (httpResponse + gostring);
  (** [os.Open(path)]: the file or an error. *)
  os_Open : gostring -> World -> fileStream + gostring;
  (** Whether [http.DefaultTransport] is a [*http.Transport]. *)
  defaultTransportIsHTTP : bool
}.

Section Client.

Context {lib : GoLib}.

Definition isJSONContentType (contentType : gostring) : bool :=
  match ParseMediaType contentType with
  | None => false
  | Some mediaType =>
      bytes_eqb mediaType "application/json" || bytes_eqb mediaType "text/json"
      || bytes_eqb mediaType "application/problem+json"
  end.

(** The first part of [changeRegistration]: the form, or the error for an
    action that is neither constant. *)
Definition buildForm (contestID : Z) (user : userSpec) (action : actionType)
  : Values + callError :=
  let form : Values := ∅ in
  let form := match ID user with
              | Some id => Values_Set form "other_user_id" (Itoa id)
              | None => form
              end in
  let form := if negb (is_empty (Login user))
              then Values_Set form "other_user_login" (Login user)
              else form in
  let form := Values_Set form "contest_id" (Itoa contestID) in
  if bytes_eqb action actionRegister then
    let form := Values_Set form "op" "upsert" in
    let form := Values_Set form "status" "ok" in
    let form := Values_Set form "name" (Name user) in
    let form := Values_Set form "ignore" "true" in
    inl form
  else if bytes_eqb action actionUnregister then
    let form := Values_Set form "op" "delete" in
    let form := Values_Set form "ignore" "true" in
    inl form
  else inr (ErrUnsupportedAction action).

Definition maxPreview : nat := 200.

(** The last step of [changeRegistration], on the decoded reply. *)
Definition checkReply (reply : changeRegistrationReply) : option callError :=
  if negb (OK reply) || negb (Result reply) then
    match Error reply with
    | Some e => Some (ErrServerError e)
    | None => Some ErrNotAcknowledged
    end
  else None.

(** What [changeRegistration] does with the status, the content type and the
    body of the response. *)
Definition handleResponse (statusCode : Z) (status contentType body : gostring)
  : option callError :=
  if (statusCode <? 200) || (300 <=? statusCode) then
    Some (ErrUnexpectedStatus status body)
  else if negb (is_empty contentType) && negb (isJSONContentType contentType) then
    let preview :=
      if (maxPreview <? length body)%nat then take maxPreview body ++ "..." else body in
    Some (ErrUnexpectedContentType contentType status preview)
  else
    match Unmarshal_reply body zero_reply with
    | (_, Some err) => Some (ErrDecodingResponse err)
    | (reply, None) => checkReply reply
    end.

Context {World : Type} {plat : Platform World}.

(** The request of [changeRegistration]: the encoded form, posted to the
    endpoint with the token in [Authorization]. *)
Definition buildRequest (baseURL token : gostring) (form : Values) (timeout : Z)
  : httpRequest :=
  {| reqURL := baseURL ++ changeRegistrationPath;
     reqHeader := [("Authorization" : gostring, token);
                   ("Content-Type" : gostring,
                    "application/x-www-form-urlencoded" : gostring);
                   ("Accept" : gostring, "application/json" : gostring)];
     reqBody := Values_Encode form;
     reqTimeout := timeout |}.

Definition changeRegistration (client : httpClient) (baseURL token : gostring)
    (contestID : Z) (user : userSpec) (action : actionType) (timeout : Z)
    (w : World) : World * option callError :=
  match buildForm contestID user action with
  | inr e => (w, Some e)
  | inl form =>
      match NewRequest_error (baseURL ++ changeRegistrationPath) with
      | Some err => (w, Some (ErrCreatingRequest err))
      | None =>
          match client_Do client (buildRequest baseURL token form timeout) w with
          | (w', inr err) => (w', Some (ErrSendingRequest err))
          | (w', inl resp) =>
              match Body resp with
              | inr err => (w', Some (ErrReadingResponse err))
              | inl body =>
                  (w', handleResponse (StatusCode resp) (Status resp) (ContentType resp) body)
              end
          end
      end
  end.

(** The call is answered: the request is made and sent, and the server
    answers [resp], of which [body] is read. *)
Definition answered (client : httpClient) (baseURL token : gostring)
    (contestID : Z) (user : userSpec) (action : actionType) (timeout : Z)
    (w w' : World) (resp : httpResponse) (body : gostring) : Prop :=
  exists form,
    buildForm contestID user action = inl form /\
    NewRequest_error (baseURL ++ changeRegistrationPath) = None /\
    client_Do client (buildRequest baseURL token form timeout) w = (w', inl resp) /\
    Body resp = inl body.

Definition userIdentifier (u : userSpec) : gostring :=
  match negb (is_empty (Login u)), ID u with
  | true, Some id => "login=" ++ Login u ++ " (id=" ++ Itoa id ++ ")"
  | false, Some id => "id=" ++ Itoa id
  | true, None => "login=" ++ Login u
  | false, None => "<unknown>"
  end.

Definition actionVerb (action : actionType) : gostring :=
  if bytes_eqb action actionRegister then "Registered"
  else if bytes_eqb action actionUnregister then "Unregistered"
  else action.

End Client.




(* ===================================================================== *)
(** * The configuration loader *)
(* ===================================================================== *)

(** How [Decoder.Decode] fails: [io.EOF] when nothing but white space is left,
    [io.ErrUnexpectedEOF] when the file ends inside a value, the error of a
    failed read, or an error of the scanner or of the decoding. *)
Inductive decodeError :=
| DecEOF
| DecUnexpectedEOF
| DecRead (err : gostring)
| DecJSON (e : jsonError).

Inductive configError :=
| ErrOpeningConfig (path err : gostring)            (* "opening config file %q: %w" *)
| ErrConfigEmpty                                    (* "config file is empty" *)
| ErrDecodingConfig (path : gostring) (e : decodeError)  (* "decoding config %q: %w" *)
| ErrConfigMultiple (path : gostring).              (* "config file %q contains multiple JSON values" *)

Definition is_container (v : json) : bool :=
  match v with
  | JArray _ | JObject _ => true
  | _ => false
  end.

(** [Decoder.readValue]: the next value of the stream and what follows it.
    An array or an object is complete at its closing bracket; any other value
    is complete at the byte after it or at the end of the file, so that the
    decoder reads on, and fails when this read fails. *)
Definition readValue (buf : gostring) (tail : option gostring)
  : (json * gostring) + decodeError :=
  match skip_space buf with
  | [] => inr (match tail with None => DecEOF | Some err => DecRead err end)
  | _ =>
      match scan buf with
      | PErr ErrUnexpectedEnd =>
          inr (match tail with None => DecUnexpectedEOF | Some err => DecRead err end)
      | PErr e => inr (DecJSON (SyntaxError e))
      | POk v rest =>
          if is_container v || negb (is_empty rest) then inl (v, rest)
          else match tail with
               | None => inl (v, rest)
               | Some err => inr (DecRead err)
               end
      end
  end.

(** [decoder.Decode(&cfg)] under [DisallowUnknownFields]. *)
Definition Decode_config (buf : gostring) (tail : option gostring) (cur : config)
  : (config * gostring) + decodeError :=
  match readValue buf tail with
  | inr e => inr e
  | inl (v, rest) =>
      match decode_config v cur with
      | (_, Some e) => inr (DecJSON e)
      | (cfg, None) => inl (cfg, rest)
      end
  end.

(** [decoder.Decode(&struct{}{})] under [DisallowUnknownFields]. *)
Definition Decode_empty_struct (buf : gostring) (tail : option gostring)
  : gostring + decodeError :=
  match readValue buf tail with
  | inr e => inr e
  | inl (v, rest) =>
      match decode_empty_struct v with
      | Some e => inr (DecJSON e)
      | None => inl rest
      end
  end.

Section Main.

Context {lib : GoLib} {World : Type} {plat : Platform World}.

Definition loadConfig (path : gostring) (w : World) : config + configError :=
  if is_empty path then inl zero_config
  else
    match os_Open path w with
    | inr err => inr (ErrOpeningConfig path err)
    | inl file =>
        match Decode_config (fileData file) (readError file) zero_config with
        | inr DecEOF => inr ErrConfigEmpty
        | inr e => inr (ErrDecodingConfig path e)
        | inl (cfg, rest) =>
            match Decode_empty_struct rest (readError file) with
            | inr DecEOF => inl cfg
            | inl _ => inr (ErrConfigMultiple path)
            | inr e => inr (ErrDecodingConfig path e)
            end
        end
    end.

(* ===================================================================== *)
(** * The driver *)
(* ===================================================================== *)

(** The flags, as [flag.Parse] leaves them. *)
Record flags := mkFlags {
  usersArg : gostring;
  contestsArg : gostring;
  actionArg : gostring;
  baseURLArg : gostring;
  tokenArg : gostring;
  configArg : gostring;
  timeoutArg : Z;
  insecureArg : bool
}.

(** A failure of the loop: the values of
    ["contest %d, user %s: %v"]. *)
Record failure := mkFailure {
  failContest : Z;
  failUser : gostring;
  failError : callError
}.

(** The reasons of [log.Fatal] in [main]. *)
Inductive fatalError :=
| FatalUsersRequired
| FatalContestsRequired
| FatalInvalidAction (raw : gostring)
| FatalParseUsers (e : parseError)
| FatalParseContests (e : parseError)
| FatalLoadConfig (e : configError)
| FatalNoToken
| FatalEmptyBaseURL
| FatalInsecureUnsupported.

(** The lines the program logs. *)
Inductive logEntry :=
| LogDone (verb user : gostring) (contestID : Z)    (* "%s user %s for contest %d" *)
| LogError (f : failure)                            (* "error:", failure *)
| LogFatal (f : fatalError).

Definition parseAction (raw : gostring) : actionType + gostring :=
  let a := ToLower (TrimSpace raw) in
  if bytes_eqb a actionRegister then inl actionRegister
  else if bytes_eqb a actionUnregister then inl actionUnregister
  else inr raw.

(** [strings.TrimSuffix(s, "/")]. *)
Definition TrimSuffix_slash (s : gostring) : gostring :=
  match rev s with
  | c :: r => if byte_eqb c "/" then rev r else s
  | [] => s
  end.

(** The state of the loop: the world, the failures and the lines logged so
    far. *)
Record loopState := mkLoop {
  world : World;
  failures : list failure;
  logged : list logEntry
}.

Section Loop.

Variables (client : httpClient) (baseURL token : gostring) (action : actionType)
          (timeout : Z).

(** The body of the inner loop. *)
Definition attempt (contestID : Z) (user : userSpec) (st : loopState) : loopState :=
  match changeRegistration client baseURL token contestID user action timeout (world st) with
  | (w', Some err) =>
      {| world := w';
         failures := failures st ++ [mkFailure contestID (userIdentifier user) err];
         logged := logged st |}
  | (w', None) =>
      {| world := w';
         failures := failures st;
         logged := logged st ++ [LogDone (actionVerb action) (userIdentifier user) contestID] |}
  end.

Fixpoint users_loop (contestID : Z) (users : list userSpec) (st : loopState) : loopState :=
  match users with
  | [] => st
  | user :: rest => users_loop contestID rest (attempt contestID user st)
  end.

Fixpoint contests_loop (contests : list Z) (users : list userSpec) (st : loopState)
  : loopState :=
  match contests with
  | [] => st
  | contestID :: rest => contests_loop rest users (users_loop contestID users st)
  end.

(** The loop of [main] and what follows it: the world after the calls, the
    lines logged, and the exit status. *)
Definition driver (contests : list Z) (users : list userSpec) (w : World)
  : World * list logEntry * Z :=
  let st := contests_loop contests users {| world := w; failures := []; logged := [] |} in
  if (0 <? length (failures st))%nat
  then (world st, logged st ++ map LogError (failures st), 1)
  else (world st, logged st, 0).

End Loop.

Definition fatal (w : World) (f : fatalError) : World * list logEntry * Z :=
  (w, [LogFatal f], 1).

Definition main (f : flags) (w : World) : World * list logEntry * Z :=
  if is_empty (usersArg f) then fatal w FatalUsersRequired
  else if is_empty (contestsArg f) then fatal w FatalContestsRequired
  else
    match parseAction (actionArg f) with
    | inr raw => fatal w (FatalInvalidAction raw)
    | inl action =>
    match parseUsers (usersArg f) with
    | inr e => fatal w (FatalParseUsers e)
    | inl users =>
    match parseContestIDs (contestsArg f) with
    | inr e => fatal w (FatalParseContests e)
    | inl contests =>
    match loadConfig (TrimSpace (configArg f)) w with
    | inr e => fatal w (FatalLoadConfig e)
    | inl cfg =>
        let token := TrimSpace (tokenArg f) in
        let token := if is_empty token then TrimSpace (Token cfg) else token in
        if is_empty token then fatal w FatalNoToken
        else
          let baseURL := TrimSuffix_slash (baseURLArg f) in
          if is_empty baseURL then fatal w FatalEmptyBaseURL
          else if insecureArg f && negb defaultTransportIsHTTP
          then fatal w FatalInsecureUnsupported
          else
            let client := {| clientTimeout := timeoutArg f;
                             InsecureSkipVerify := insecureArg f |} in
            driver client baseURL token action (timeoutArg f) contests users w
    end end end end.

End Main.

(* ===================================================================== *)
(** * A world to run the model in *)
(* ===================================================================== *)

Module Sample.

Fixpoint take_until (sep : ascii) (s : gostring) : gostring :=
  match s with
  | [] => []
  | c :: r => if byte_eqb c sep then [] else c :: take_until sep r
  end.

Definition lower (c : ascii) : ascii :=
  if in_range "A" "Z" c then byte_of (byte_val c + 32) else c.

(** Library functions for header values and actions written in ASCII: the
    media type is what precedes the first [;], trimmed and in lower case. *)
Definition lib : GoLib :=
  {| ParseMediaType := fun v => Some (TrimSpace (map lower (take_until ";" v)));
     ToLower := map lower;
     NewRequest_error := fun _ => None |}.

Fixpoint lookup_file (files : list (gostring * fileStream)) (path : gostring)
  : fileStream + gostring :=
  match files with
  | [] => inr ("no such file or directory" : gostring)
  | (p, f) :: rest => if bytes_eqb p path then inl f else lookup_file rest path
  end.

(** A world that is the list of the requests sent so far; the server answers
    the [n]-th request with [answers n], and the files are [files]. *)
Definition platform (answers : nat -> httpResponse + gostring)
    (files : list (gostring * fileStream)) : Platform (list httpRequest) :=
  {| client_Do := fun _ req w => (w ++ [req], answers (length w));
     os_Open := fun path _ => lookup_file files path;
     defaultTransportIsHTTP := true |}.

Definition response (statusCode : Z) (status contentType body : gostring)
  : httpResponse :=
  {| StatusCode := statusCode; Status := status; ContentType := contentType;
     Body := inl body |}.

(** A server that answers every request with [resp], and no files. *)
Definition server (resp : httpResponse) : Platform (list httpRequest) :=
  platform (fun _ => inl resp) [].

(** The call of the tests of [changeRegistration], in this world. *)
Definition user : userSpec := {| ID := None; Login := "user"; Name := "User Name" |}.
Definition client : httpClient := {| clientTimeout := 1000000000; InsecureSkipVerify := false |}.

Definition call (resp : httpResponse) : list httpRequest * option callError :=
  @changeRegistration lib _ (server resp) client "http://127.0.0.1" "token" 1 user
    actionRegister 1000000000 [].

(** The page of the test of the decoding of an HTML response. *)
Definition html_page : gostring :=
  jsontext "<!DOCTYPE html><html><body><style>body{margin:0;}</style><pre>{'ok':true,'result':true,'action':'upsert'}</pre></body></html>".

(** The inputs of the tests of the parsers: a list of users that ends with a
    line feed, and contest IDs with tabs between them. *)
Definition users_list : gostring :=
  "123:Alice; user2:User Two ;user3:User Three; " ++ ["010"%char].

Definition tabbed_contests : gostring :=
  "101" ++ ["009"%char] ++ "202" ++ ["009"%char] ++ " 303" ++ ["009"%char].

(** The body of the test of the message of a server error. *)
Definition blocked_body : gostring :=
  jsontext "{'ok': false, 'error': {'message': 'User is blocked', 'num': 13, 'symbol': 'USER_BLOCKED', 'log_id': 'log-1'}}".

(** A body of 201 bytes. *)
Definition long_body : gostring := repeat "a"%char 201.

(** A configuration file whose token is a number. *)
Definition numeric_token : list (gostring * fileStream) :=
  [("config.json" : gostring,
    {| fileData := jsontext "{'token':5}"; readError := None |})].

(** A configuration file as it should be. *)
Definition good_config : list (gostring * fileStream) :=
  [("config.json" : gostring,
    {| fileData := jsontext "{'token':'secret'}"; readError := None |})].

End Sample.

(* ===================================================================== *)
(** * The calls of the driver, one after the other *)
(* ===================================================================== *)

Section DriverSpec.

Context {lib : GoLib} {World : Type} {plat : Platform World}.

Variables (client : httpClient) (baseURL token : gostring) (action : actionType)
          (timeout : Z).

(** One call of [changeRegistration] for each pair of the list, in its order,
    each in the world the one before left; the pairs with what their calls
    returned. *)
Fixpoint run_calls (pairs : list (Z * userSpec)) (w : World)
  : World * list (Z * userSpec * option callError) :=
  match pairs with
  | [] => (w, [])
  | (contestID, user) :: rest =>
      let '(w1, r) :=
        changeRegistration client baseURL token contestID user action timeout w in
      let '(w2, rs) := run_calls rest w1 in
      (w2, (contestID, user, r) :: rs)
  end.

(** The failures among the results of the calls, in their order. *)
Fixpoint failures_of (outcomes : list (Z * userSpec * option callError)) : list failure :=
  match outcomes with
  | [] => []
  | (contestID, user, Some err) :: rest =>
      mkFailure contestID (userIdentifier user) err :: failures_of rest
  | (_, _, None) :: rest => failures_of rest
  end.

(** The lines logged for the calls that succeeded, in their order. *)
Fixpoint done_of (outcomes : list (Z * userSpec * option callError)) : list logEntry :=
  match outcomes with
  | [] => []
  | (contestID, user, None) :: rest =>
      LogDone (actionVerb action) (userIdentifier user) contestID :: done_of rest
  | (_, _, Some _) :: rest => done_of rest
  end.

Definition succeeded (o : Z * userSpec * option callError) : bool :=
  match o.2 with
  | None => true
  | Some _ => false
  end.

End DriverSpec.

(* ===================================================================== *)
(** * What a configuration file must hold *)
(* ===================================================================== *)

Definition string_or_null (v : json) : bool :=
  match v with
  | JString _ | JNull => true
  | _ => false
  end.

(** The key of the member names the field [token], in any case of its
    letters. *)
Definition names_token (m : gostring * json) : bool := field_matches m.1 "token".

Definition fits_member (m : gostring * json) : bool :=
  names_token m && string_or_null m.2.

(** A value fits [config] when it is [null], or an object whose members all
    name [token] and hold a string or [null]. *)
Definition fits_config (v : json) : bool :=
  match v with
  | JNull => true
  | JObject ms => forallb fits_member ms
  | _ => false
  end.

(** The token of an object: the string of its last member that holds one. *)
Fixpoint last_token (ms : list (gostring * json)) (cur : gostring) : gostring :=
  match ms with
  | [] => cur
  | (_, JString s) :: rest => last_token rest s
  | _ :: rest => last_token rest cur
  end.

Definition config_of (v : json) : config :=
  match v with
  | JObject ms => {| Token := last_token ms [] |}
  | _ => zero_config
  end.

(** The failures the specification lists, for what [os.Open] returns: the
    file is missing or unreadable, it is empty, its content is not valid JSON,
    its object has a field other than [token], or more follows its first
    value. *)
Definition listed_failure (r : fileStream + gostring) : Prop :=
  match r with
  | inr _ => True
  | inl file =>
      readError file <> None \/
      skip_space (fileData file) = [] \/
      (exists e, scan (fileData file) = PErr e) \/
      (exists ms rest, scan (fileData file) = POk (JObject ms) rest /\
                       Exists (fun m => names_token m = false) ms) \/
      (exists v rest, scan (fileData file) = POk v rest /\ skip_space rest <> [])
  end.

(** The failure the list leaves out: the value is valid JSON and is not what
    [config] is decoded from, being neither an object nor [null], or holding
    for [token] something that is neither a string nor [null]. *)
Definition wrong_shape (r : fileStream + gostring) : Prop :=
  match r with
  | inr _ => False
  | inl file =>
      exists v rest, scan (fileData file) = POk v rest /\
        match v with
        | JNull => False
        | JObject ms => Exists (fun m => names_token m = true /\ string_or_null m.2 = false) ms
        | _ => True
        end
  end.

(* ===================================================================== *)
(** * What the parsers return *)
(* ===================================================================== *)

(** A record as [parseUsers] makes it: the identifier and the name are not
    empty, have no white space around them and hold no separator, the
    identifier holds no [:], and [ID] is what [strconv.Atoi] reads in the
    identifier. *)
Definition parsed_user (u : userSpec) : Prop :=
  Login u <> [] /\ Name u <> [] /\
  TrimSpace (Login u) = Login u /\ TrimSpace (Name u) = Name u /\
  Forall (fun c => is_separator c = false /\ c <> ":"%char) (Login u) /\
  Forall (fun c => is_separator c = false) (Name u) /\
  ID u = match Atoi (Login u) with inl id => Some id | inr _ => None end.

(** The bytes [strconv.Itoa] writes for a decimal number. *)
Definition uint_bytes (d : Decimal.uint) : gostring :=
  list_ascii_of_string (NilEmpty.string_of_uint d).

(* ===================================================================== *)
(** * What [main] does with the flags *)
(* ===================================================================== *)

(** The token [main] sends: the flag without the white space around it, or,
    when that is empty, the token of the configuration file. *)
Definition resolved_token (f : flags) (cfg : config) : gostring :=
  let token := TrimSpace (tokenArg f) in
  if is_empty token then TrimSpace (Token cfg) else token.

(** The line logged for a call that succeeded. *)
Definition done_line (action : actionType) (p : Z * userSpec) : logEntry :=
  LogDone (actionVerb action) (userIdentifier p.2) p.1.

(** A line of [log.Fatal]. *)
Definition is_fatal (e : logEntry) : bool :=
  match e with
  | LogFatal _ => true
  | _ => false
  end.

(** The headers of every request. *)
Definition request_headers (token : gostring) : list (gostring * gostring) :=
  [("Authorization" : gostring, token);
   ("Content-Type" : gostring, "application/x-www-form-urlencoded" : gostring);
   ("Accept" : gostring, "application/json" : gostring)].

(** The form of a call, empty when the action is not supported. *)
Definition form_of (action : actionType) (p : Z * userSpec) : Values :=
  match buildForm p.1 p.2 action with
  | inl form => form
  | inr _ => ∅
  end.

(** What the calls for these pairs send: nothing when the request cannot be
    made, else one request for each pair. *)
Definition requests_of {lib : GoLib} (baseURL token : gostring) (action : actionType)
    (timeout : Z) (pairs : list (Z * userSpec)) : list httpRequest :=
  match NewRequest_error (baseURL ++ changeRegistrationPath) with
  | Some _ => []
  | None => map (fun p => buildRequest baseURL token (form_of action p) timeout) pairs
  end.

(* ===================================================================== *)
(** * A run of [main] *)
(* ===================================================================== *)

Module Run.

(** Two users for two contests, the token in the configuration file. *)
Definition args : flags :=
  {| usersArg := "7:Ann Lee;bob:Bob"; contestsArg := "5,6"; actionArg := " Register ";
     baseURLArg := "http://127.0.0.1/"; tokenArg := " "; configArg := "config.json";
     timeoutArg := 15000000000; insecureArg := false |}.

Definition ann : userSpec := {| ID := Some 7; Login := "7"; Name := "Ann Lee" |}.
Definition bob : userSpec := {| ID := None; Login := "bob"; Name := "Bob" |}.

(** A server that acknowledges every change but the second. *)
Definition second_refused (n : nat) : httpResponse + gostring :=
  inl (Sample.response 200 "200 OK" "application/json"
         (if (n =? 1)%nat then jsontext "{'ok':false}"
          else jsontext "{'ok':true,'result':true}")).

Definition platform : Platform (list httpRequest) :=
  Sample.platform second_refused Sample.good_config.

(** What [main] returns in this world, nothing sent before. *)
Definition outcome : list httpRequest * list logEntry * Z :=
  @main Sample.lib _ platform args [].

(** Library functions that refuse every URL. *)
Definition no_request : GoLib :=
  {| ParseMediaType := fun _ => None;
     ToLower := fun s => s;
     NewRequest_error := fun _ => Some ("invalid URL" : gostring) |}.

End Run.

(* ===================================================================== *)
(** * The list parsers: proofs *)
(* ===================================================================== *)

Lemma TrimSpace_nil : TrimSpace [] = [].
Proof. reflexivity. Qed.

Lemma is_empty_nil (s : gostring) : is_empty s = true <-> s = [].
Proof. destruct s; simpl; split; congruence. Qed.

Lemma keep_trimmed_filter parts :
  keep_trimmed parts = filter (fun t => t <> []) (map TrimSpace parts).
Proof.
  induction parts as [|p ps IH]; [done|]. simpl.
  destruct (TrimSpace p) eqn:E; simpl.
  - rewrite filter_cons_False by auto. done.
  - rewrite filter_cons_True by done. by rewrite IH.
Qed.

Lemma split_on_not_nil f s : split_on f s <> [].
Proof. destruct s; simpl; [done|]. destruct (f a); [done|]. by destruct (split_on f s). Qed.

Lemma fields_go_split f s cur :
  fields_go f cur s = filter (fun t => t <> []) (cons_head cur (split_on f s)).
Proof.
  revert cur. induction s as [|c s IH]; intros cur; simpl.
  - rewrite app_nil_r. destruct cur as [|x cur]; simpl; [done|].
    rewrite filter_cons_True; [done|]. intros H. apply (f_equal length) in H.
    rewrite length_app in H. simpl in H. lia.
  - destruct (f c) eqn:Hf; simpl.
    + rewrite app_nil_r. rewrite (IH []).
      assert (Hh : cons_head [] (split_on f s) = split_on f s).
      { pose proof (split_on_not_nil f s). by destruct (split_on f s). }
      rewrite Hh.
      destruct cur as [|x cur]; simpl.
      * by rewrite filter_cons_False by auto.
      * rewrite filter_cons_True; [done|]. intros H. apply (f_equal length) in H.
        rewrite length_app in H. simpl in H. lia.
    + rewrite IH. pose proof (split_on_not_nil f s).
      destruct (split_on f s) as [|h t]; [done|]. simpl.
      by rewrite <- app_assoc.
Qed.

Lemma FieldsFunc_split s f :
  FieldsFunc s f = filter (fun t => t <> []) (split_on f s).
Proof.
  unfold FieldsFunc. rewrite fields_go_split.
  pose proof (split_on_not_nil f s). by destruct (split_on f s).
Qed.

Lemma splitList_spec_tokens raw : splitList raw = spec_tokens raw.
Proof.
  unfold splitList, spec_tokens. rewrite keep_trimmed_filter, FieldsFunc_split.
  generalize (split_on is_separator raw). intros l.
  induction l as [|p l IH]; [done|]. simpl.
  destruct p as [|c p].
  - rewrite filter_cons_False by auto. simpl. rewrite TrimSpace_nil.
    rewrite (filter_cons_False _ []) by auto. done.
  - rewrite filter_cons_True by done. simpl.
    destruct (TrimSpace (c :: p)) eqn:E.
    + rewrite !filter_cons_False by auto. done.
    + rewrite !filter_cons_True by done. by rewrite IH.
Qed.

Lemma split_on_no_sep f s : Forall (fun c => f c = false) s -> split_on f s = [s].
Proof.
  induction 1 as [|c s Hc _ IH]; [done|]. simpl. by rewrite Hc, IH.
Qed.

Lemma split_on_fields_no_sep f s :
  Forall (Forall (fun c => f c = false)) (split_on f s).
Proof.
  induction s as [|c s IH]; simpl; [by repeat constructor|].
  destruct (f c) eqn:Hc; [by constructor|].
  destruct (split_on f s) as [|h t]; [by repeat constructor|].
  inversion IH; subst. constructor; [by constructor|done].
Qed.

Lemma trim_left_fuel_suffix n s : exists a, s = a ++ trim_left_fuel n s.
Proof.
  revert s. induction n as [|n IH]; intros s; simpl; [by exists []|].
  destruct (leading_space s) as [k|]; [|by exists []].
  destruct (IH (drop k s)) as [a Ha]. exists (take k s ++ a).
  rewrite <- app_assoc, <- Ha. by rewrite take_drop.
Qed.

Lemma trim_right_fuel_suffix n s : exists a, s = a ++ trim_right_fuel n s.
Proof.
  revert s. induction n as [|n IH]; intros s; simpl; [by exists []|].
  destruct (trailing_space s) as [k|]; [|by exists []].
  destruct (IH (drop k s)) as [a Ha]. exists (take k s ++ a).
  rewrite <- app_assoc, <- Ha. by rewrite take_drop.
Qed.

(** What [TrimSpace] returns is a part of its argument. *)
Lemma TrimSpace_infix s : exists a b, s = a ++ TrimSpace s ++ b.
Proof.
  unfold TrimSpace, TrimRightSpace, TrimLeftSpace.
  destruct (trim_left_fuel_suffix (length s) s) as [a Ha].
  set (l := trim_left_fuel (length s) s) in *.
  destruct (trim_right_fuel_suffix (length l) (rev l)) as [b Hb].
  exists a, (rev b). rewrite <- rev_app_distr, <- Hb, rev_involutive. exact Ha.
Qed.

Lemma TrimSpace_Forall (P : ascii -> Prop) s : Forall P s -> Forall P (TrimSpace s).
Proof.
  intros H. destruct (TrimSpace_infix s) as (a & b & E). rewrite E in H.
  apply Forall_app in H as [_ H]. by apply Forall_app in H as [H _].
Qed.

Lemma spec_tokens_no_sep raw :
  Forall (fun t => t <> [] /\ Forall (fun c => is_separator c = false) t) (spec_tokens raw).
Proof.
  unfold spec_tokens. apply Forall_forall. intros t Ht.
  apply list_elem_of_filter in Ht as [Hne Ht].
  split; [done|]. apply list_elem_of_fmap in Ht as (p & -> & Hp).
  apply TrimSpace_Forall.
  pose proof (split_on_fields_no_sep is_separator raw) as HF.
  rewrite Forall_forall in HF. by apply HF.
Qed.

Lemma splitList_no_sep s :
  Forall (fun c => is_separator c = false) s ->
  splitList s = if is_empty (TrimSpace s) then [] else [TrimSpace s].
Proof.
  intros H. rewrite splitList_spec_tokens. unfold spec_tokens.
  rewrite split_on_no_sep by done. simpl.
  destruct (TrimSpace s) eqn:E; simpl.
  - by rewrite filter_cons_False by auto.
  - by rewrite filter_cons_True by done.
Qed.


(** ** [TrimSpace] trims to the end *)

Lemma space_encodings_length :
  Forall (fun e : gostring => (1 <= length e)%nat) space_encodings.
Proof. unfold space_encodings. simpl. repeat constructor; simpl; lia. Qed.

Lemma has_prefix_length p s : has_prefix p s = true -> (length p <= length s)%nat.
Proof.
  revert s. induction p as [|a p IH]; intros s; simpl; [lia|].
  destruct s as [|b s]; [done|]. intros Hp. apply andb_true_iff in Hp as [_ Hp].
  apply IH in Hp. simpl. lia.
Qed.

Lemma find_space_length (f : gostring -> bool) (s : gostring) n :
  (forall e, f e = true -> (length e <= length s)%nat) ->
  length <$> List.find f space_encodings = Some n -> (1 <= n <= length s)%nat.
Proof.
  intros Hf Hn. destruct (List.find f space_encodings) as [e|] eqn:E; [|done].
  injection Hn as <-. apply find_some in E as [Hin He].
  pose proof space_encodings_length as HF. rewrite Forall_forall in HF.
  split; [apply HF; by apply list_elem_of_In|by apply Hf].
Qed.

Lemma leading_space_bounds s n : leading_space s = Some n -> (1 <= n <= length s)%nat.
Proof. apply find_space_length. intros e. apply has_prefix_length. Qed.

Lemma trailing_space_bounds r n : trailing_space r = Some n -> (1 <= n <= length r)%nat.
Proof.
  apply find_space_length. intros e He. apply has_prefix_length in He.
  by rewrite length_rev in He.
Qed.

Lemma trim_left_fuel_done fuel s :
  (length s <= fuel)%nat -> leading_space (trim_left_fuel fuel s) = None.
Proof.
  revert s. induction fuel as [|fuel IH]; intros s Hl; simpl.
  - by destruct s; [|simpl in Hl; lia].
  - destruct (leading_space s) as [n|] eqn:E; [|done].
    apply leading_space_bounds in E. apply IH. rewrite length_drop. lia.
Qed.

Lemma trim_right_fuel_done fuel r :
  (length r <= fuel)%nat -> trailing_space (trim_right_fuel fuel r) = None.
Proof.
  revert r. induction fuel as [|fuel IH]; intros r Hl; simpl.
  - by destruct r; [|simpl in Hl; lia].
  - destruct (trailing_space r) as [n|] eqn:E; [|done].
    apply trailing_space_bounds in E. apply IH. rewrite length_drop. lia.
Qed.

(** [TrimSpace] trims to the end: what it returns has no white space left at
    its end, and none at its start. *)
Lemma TrimSpace_done s :
  trailing_space (rev (TrimSpace s)) = None.
Proof.
  unfold TrimSpace, TrimRightSpace. rewrite rev_involutive.
  apply trim_right_fuel_done. by rewrite length_rev.
Qed.

Lemma has_prefix_app p s t : has_prefix p s = true -> has_prefix p (s ++ t) = true.
Proof.
  revert s. induction p as [|a p IH]; intros s; simpl; [done|].
  destruct s as [|b s]; [done|]. simpl. intros Hp.
  apply andb_true_iff in Hp as [Hab Hp]. by rewrite Hab, IH.
Qed.

Lemma find_none_weaken {A} (f g : A -> bool) (l : list A) :
  (forall x, f x = true -> g x = true) ->
  List.find g l = None -> List.find f l = None.
Proof.
  intros Hfg. induction l as [|x l IH]; simpl; [done|].
  destruct (g x) eqn:Hg; [done|]. intros Hn.
  destruct (f x) eqn:Hf; [apply Hfg in Hf; congruence|by apply IH].
Qed.

Lemma leading_space_prefix s t : leading_space (s ++ t) = None -> leading_space s = None.
Proof.
  unfold leading_space. intros Hn.
  destruct (List.find (fun e => has_prefix e (s ++ t)) space_encodings) eqn:E; [done|].
  rewrite (find_none_weaken (fun e => has_prefix e s) _ _ (fun e => has_prefix_app e s t) E).
  done.
Qed.

Lemma TrimSpace_done_left s : leading_space (TrimSpace s) = None.
Proof.
  unfold TrimSpace, TrimRightSpace, TrimLeftSpace.
  set (l := trim_left_fuel (length s) s).
  assert (Hl : leading_space l = None) by (apply trim_left_fuel_done; lia).
  destruct (trim_right_fuel_suffix (length l) (rev l)) as [a Ha].
  apply (f_equal (@rev ascii)) in Ha. rewrite rev_involutive, rev_app_distr in Ha.
  rewrite Ha in Hl. by apply leading_space_prefix in Hl.
Qed.

Lemma trim_left_fuel_id fuel s : leading_space s = None -> trim_left_fuel fuel s = s.
Proof. intros E. destruct fuel; simpl; [done|]. by rewrite E. Qed.

Lemma trim_right_fuel_id fuel r : trailing_space r = None -> trim_right_fuel fuel r = r.
Proof. intros E. destruct fuel; simpl; [done|]. by rewrite E. Qed.

(** Trimming what is trimmed changes nothing. *)
Lemma TrimSpace_idempotent s : TrimSpace (TrimSpace s) = TrimSpace s.
Proof.
  pose proof (TrimSpace_done_left s) as Hl. pose proof (TrimSpace_done s) as Hr.
  generalize dependent (TrimSpace s). intros x Hl Hr.
  unfold TrimSpace, TrimLeftSpace, TrimRightSpace.
  rewrite (trim_left_fuel_id (length x) x Hl).
  rewrite (trim_right_fuel_id (length x) (rev x) Hr).
  apply rev_involutive.
Qed.

(** The tokens of an input are tokens: not empty, without separator,
    trimmed. *)
Lemma spec_tokens_are_tokens raw : Forall is_token (spec_tokens raw).
Proof.
  pose proof (spec_tokens_no_sep raw) as Hn. rewrite Forall_forall in Hn.
  apply Forall_forall. intros t Ht. destruct (Hn t Ht) as [Hne Hsep].
  repeat split; try done.
  unfold spec_tokens in Ht. apply list_elem_of_filter in Ht as [_ Ht].
  apply list_elem_of_fmap in Ht as (p & -> & _). apply TrimSpace_idempotent.
Qed.

(** ** The two parsers *)

Lemma parseContestIDs_loop_ok items ids acc :
  Forall2 (fun item id => Atoi item = inl id) items ids ->
  parseContestIDs_loop items acc = inl (acc ++ ids).
Proof.
  intros H. revert acc. induction H as [|item id items ids Hi _ IH]; intros acc; simpl.
  - by rewrite app_nil_r.
  - rewrite Hi, IH. by rewrite <- app_assoc.
Qed.

Lemma parseContestIDs_loop_bad good item rest err acc :
  Forall (fun i => exists id, Atoi i = inl id) good ->
  Atoi item = inr err ->
  parseContestIDs_loop (good ++ item :: rest) acc = inr (ErrInvalidContestID item err).
Proof.
  intros Hg Hi. revert acc. induction Hg as [|g good [id Hid] _ IH]; intros acc; simpl.
  - by rewrite Hi.
  - by rewrite Hid, IH.
Qed.

(** The tokens of [parseContestIDs] are the fields between [;] and [,],
    trimmed, the empty ones dropped; a token is not empty, holds no separator
    and has no white space around it, and an input without [;] and [,] is
    one token, whatever white space it holds.  The result is the integers of
    the tokens in their order when every token parses; the error with the
    first token that does not parse, when there is one; the error of an empty
    list when there is no token. *)
Lemma parseContestIDs_cases (raw : gostring) :
  let tokens := splitList raw in
  tokens = spec_tokens raw /\
  Forall is_token tokens /\
  (Forall (fun c => is_separator c = false) raw -> TrimSpace raw <> [] ->
   tokens = [TrimSpace raw]) /\
  (tokens = [] -> parseContestIDs raw = inr ErrContestListEmpty) /\
  (forall ids, tokens <> [] ->
     Forall2 (fun item id => Atoi item = inl id) tokens ids ->
     parseContestIDs raw = inl ids) /\
  (forall good item rest err,
     tokens = good ++ item :: rest ->
     Forall (fun i => exists id, Atoi i = inl id) good ->
     Atoi item = inr err ->
     parseContestIDs raw = inr (ErrInvalidContestID item err)).
Proof.
  intros tokens. subst tokens. repeat split.
  - apply splitList_spec_tokens.
  - rewrite splitList_spec_tokens. apply spec_tokens_are_tokens.
  - intros Hs Hne. rewrite splitList_no_sep by done.
    by destruct (TrimSpace raw).
  - intros E. unfold parseContestIDs. by rewrite E.
  - intros ids Hne H. unfold parseContestIDs.
    rewrite (parseContestIDs_loop_ok _ ids []) by done.
    by destruct (splitList raw).
  - intros good item rest err E Hg Hi. unfold parseContestIDs. rewrite E.
    rewrite length_app. simpl.
    replace (length good + S (length rest) =? 0)%nat with false
      by (symmetry; apply Nat.eqb_neq; lia).
    by apply parseContestIDs_loop_bad.
Qed.

Lemma byte_eqb_eq a b : byte_eqb a b = true <-> a = b.
Proof. apply Ascii.eqb_eq. Qed.

Lemma cut_byte_None sep s :
  cut_byte sep s = None <-> Forall (fun c => c <> sep) s.
Proof.
  induction s as [|c s IH]; simpl; [split; [constructor|done]|].
  destruct (byte_eqb c sep) eqn:E.
  - apply byte_eqb_eq in E. split; [done|]. inversion 1; subst. congruence.
  - assert (c <> sep) by (intros ->; rewrite (proj2 (byte_eqb_eq sep sep)) in E; done).
    destruct (cut_byte sep s) as [[a b]|].
    + split; [done|]. inversion 1 as [|? ? ? H4]; subst. by apply IH in H4.
    + split; [|done]. intros _. constructor; [done|]. by apply IH.
Qed.

(** [cut_byte] cuts at the first separator: nothing before it is one. *)
Lemma cut_byte_Some sep s a b :
  cut_byte sep s = Some (a, b) <-> s = a ++ sep :: b /\ Forall (fun c => c <> sep) a.
Proof.
  revert a. induction s as [|c s IH]; intros a; simpl.
  - split; [done|]. intros [E _]. by destruct a.
  - destruct (byte_eqb c sep) eqn:E.
    + apply byte_eqb_eq in E. subst c. split.
      * intros [= <- <-]. by split.
      * intros [E H]. destruct a as [|x a]; simpl in E.
        -- by inversion E.
        -- inversion E; subst. inversion H; subst. congruence.
    + assert (Hc : c <> sep) by (intros ->; rewrite (proj2 (byte_eqb_eq sep sep)) in E; done).
      destruct (cut_byte sep s) as [[a' b']|] eqn:Ec.
      * split.
        -- intros [= <- <-]. destruct (proj1 (IH a') eq_refl) as [-> H].
           split; [done|]. by constructor.
        -- intros [Es H]. destruct a as [|x a]; simpl in Es; inversion Es; subst; [done|].
           inversion H; subst.
           assert (Hs : Some (a', b') = Some (a, b)) by (apply IH; done).
           by inversion Hs.
      * split; [done|]. intros [Es H].
        destruct a as [|x a]; simpl in Es; inversion Es; subst; [done|].
        inversion H; subst.
        assert (Hs : None = Some (a, b)) by (apply IH; done). done.
Qed.

Lemma parseUser_ok item u :
  parseUser item = inl u -> valid_token item /\ record_of item u.
Proof.
  unfold parseUser, SplitN2, valid_token, record_of, token_parts.
  destruct (cut_byte ":" item) as [[p0 p1]|]; [|done].
  destruct (TrimSpace p0) as [|c0 i0] eqn:E0; cbn [is_empty]; [done|].
  destruct (TrimSpace p1) as [|c1 n1] eqn:E1; cbn [is_empty]; [done|].
  destruct (Atoi (c0 :: i0)) as [id|err] eqn:EA.
  all: intros [= <-]; cbn [ID Login Name]; split;
    [by exists (c0 :: i0), (c1 :: n1)|];
    exists (c0 :: i0), (c1 :: n1); rewrite EA;
    repeat split; try congruence; eauto.
  by intros [err H].
Qed.

Lemma parseUser_valid item :
  valid_token item -> exists u, parseUser item = inl u.
Proof.
  intros (i & n & H & Hi & Hn). unfold parseUser, SplitN2. unfold token_parts in H.
  destruct (cut_byte ":" item) as [[p0 p1]|]; [|done].
  injection H as -> ->. destruct i; [done|]. destruct n; [done|]. simpl. eauto.
Qed.

Lemma parseUser_err item e : parseUser item = inr e -> token_defect e item.
Proof.
  unfold parseUser, SplitN2, token_defect, token_parts.
  destruct (cut_byte ":" item) as [[p0 p1]|] eqn:Ec.
  - destruct (TrimSpace p0) as [|c0 i0] eqn:E0; simpl.
    + intros [= <-]. right. exists [], (TrimSpace p1). split; [done|]. by left.
    + destruct (TrimSpace p1) as [|c1 n1] eqn:E1; simpl; [|done].
      intros [= <-]. right. exists (c0 :: i0), []. split; [done|]. by right.
  - intros [= <-]. left. split; [done|]. by apply cut_byte_None.
Qed.

Lemma token_defect_invalid e item : token_defect e item -> ~ valid_token item.
Proof.
  intros [[_ H]|(i & n & Hp & H)] (i' & n' & Hp' & Hi & Hn).
  - apply cut_byte_None in H. unfold token_parts in Hp'. by rewrite H in Hp'.
  - rewrite Hp in Hp'. injection Hp' as <- <-. by destruct H as [[_ ?]|(_ & _ & ?)].
Qed.

Lemma parseUsers_loop_ok items acc :
  Forall valid_token items ->
  exists us, parseUsers_loop items acc = inl (acc ++ us) /\ Forall2 record_of items us.
Proof.
  intros H. revert acc. induction H as [|item items Hi _ IH]; intros acc; simpl.
  - exists []. by rewrite app_nil_r.
  - destruct (parseUser_valid _ Hi) as [u Hu]. rewrite Hu.
    destruct (IH (acc ++ [u])) as (us & E & HF). exists (u :: us).
    rewrite E, <- app_assoc. split; [done|]. constructor; [|done].
    by apply parseUser_ok.
Qed.

Lemma parseUsers_loop_err items acc e :
  parseUsers_loop items acc = inr e -> Exists (token_defect e) items.
Proof.
  revert acc. induction items as [|item items IH]; intros acc; simpl; [done|].
  destruct (parseUser item) as [u|e'] eqn:E.
  - intros H. apply Exists_cons_tl. by eapply IH.
  - intros [= <-]. apply Exists_cons_hd. by apply parseUser_err.
Qed.

Lemma parseUsers_loop_inl items acc us :
  parseUsers_loop items acc = inl us -> Forall valid_token items.
Proof.
  revert acc. induction items as [|item items IH]; intros acc; simpl; [by constructor|].
  destruct (parseUser item) as [u|e'] eqn:E; [|done].
  intros H. constructor; [by apply (parseUser_ok _ u)|by eapply IH].
Qed.

Lemma parseUsers_tokens_valid (raw : gostring) :
  spec_tokens raw <> [] ->
  Forall valid_token (spec_tokens raw) ->
  exists users,
    parseUsers raw = inl users /\ Forall2 record_of (spec_tokens raw) users.
Proof.
  intros Hne Hv. unfold parseUsers. rewrite splitList_spec_tokens.
  destruct (parseUsers_loop_ok _ [] Hv) as (us & E & HF).
  exists us. split; [|done].
  destruct (spec_tokens raw); [done|]. exact E.
Qed.

(** C5, as amended: [parseUsers] fails exactly when the list of tokens is
    empty or some token is not valid, and returns the users exactly when
    there are tokens and all are valid; the error names a token and what is
    wrong with it (no [:], an empty identifier, an empty name).  A valid
    token has at least one [:], and what precedes its first [:] and what
    follows it are not empty after trimming: the name may hold further
    [:]. *)
Theorem parseUsers_rejects (raw : gostring) :
  ((exists e, parseUsers raw = inr e) <->
   spec_tokens raw = [] \/ Exists (fun item => ~ valid_token item) (spec_tokens raw)) /\
  ((exists users, parseUsers raw = inl users) <->
   spec_tokens raw <> [] /\ Forall valid_token (spec_tokens raw)) /\
  (forall e, parseUsers raw = inr e ->
     (e = ErrUserListEmpty /\ spec_tokens raw = []) \/
     Exists (token_defect e) (spec_tokens raw)) /\
  (forall item, valid_token item <->
     exists p0 p1, item = p0 ++ ":"%char :: p1 /\ Forall (fun c => c <> ":"%char) p0 /\
                   TrimSpace p0 <> [] /\ TrimSpace p1 <> []).
Proof.
  assert (Herr : forall e, parseUsers raw = inr e ->
     (e = ErrUserListEmpty /\ spec_tokens raw = []) \/
     Exists (token_defect e) (spec_tokens raw)).
  { intros e. unfold parseUsers. rewrite splitList_spec_tokens.
    destruct (spec_tokens raw) as [|t ts] eqn:E.
    - intros [= <-]. by left.
    - intros H. change (parseUsers_loop (t :: ts) [] = inr e) in H.
      right. by eapply parseUsers_loop_err. }
  assert (Hok : forall users, parseUsers raw = inl users ->
     spec_tokens raw <> [] /\ Forall valid_token (spec_tokens raw)).
  { intros users. unfold parseUsers. rewrite splitList_spec_tokens.
    destruct (spec_tokens raw) as [|t ts] eqn:E; [done|].
    intros H. change (parseUsers_loop (t :: ts) [] = inl users) in H.
    split; [done|]. by eapply parseUsers_loop_inl. }
  split; [split|split; [split|split; [exact Herr|intros item; split]]].
  - intros [e He]. destruct (Herr e He) as [[_ ?]|H]; [by left|right].
    eapply Exists_impl; [exact H|]. intros item Hd. by eapply token_defect_invalid.
  - intros H. destruct (parseUsers raw) as [users|e] eqn:E; [|eauto].
    destruct (Hok users eq_refl) as [Hne Hv]. destruct H as [H|H]; [done|].
    apply Exists_exists in H as (item & Hin & Hbad).
    rewrite Forall_forall in Hv. destruct Hbad. by apply Hv.
  - intros [users Hu]. by apply (Hok users).
  - intros [Hne Hv]. destruct (parseUsers_tokens_valid raw Hne Hv) as (us & E & _). eauto.
  - intros (i & n & Hp & Hi & Hn). unfold token_parts in Hp.
    destruct (cut_byte ":" item) as [[p0 p1]|] eqn:Ec; [|done].
    injection Hp as <- <-. apply cut_byte_Some in Ec as [-> Hc]. by exists p0, p1.
  - intros (p0 & p1 & -> & Hc & H0 & H1). exists (TrimSpace p0), (TrimSpace p1).
    unfold token_parts.
    rewrite (proj2 (cut_byte_Some ":" (p0 ++ ":"%char :: p1) p0 p1)); done.
Qed.

(** ** Lists written with [;] are read back *)

Lemma split_on_app_sep f t sep rest :
  Forall (fun c => f c = false) t -> f sep = true ->
  split_on f (t ++ sep :: rest) = t :: split_on f rest.
Proof.
  intros Ht Hs. induction Ht as [|c t Hc _ IH]; simpl.
  - by rewrite Hs.
  - by rewrite Hc, IH.
Qed.

(** Tokens joined by [;] are split into these tokens. *)
Lemma spec_tokens_join tokens :
  Forall is_token tokens -> spec_tokens (join_with ";" tokens) = tokens.
Proof.
  unfold spec_tokens. induction 1 as [|t ts (Hne & Hsep & Htrim) Hts IH]; [done|].
  destruct ts as [|t2 ts].
  - simpl. rewrite split_on_no_sep by done. simpl. rewrite Htrim.
    by rewrite filter_cons_True, filter_nil by done.
  - change (join_with ";" (t :: t2 :: ts)) with (t ++ ";"%char :: join_with ";" (t2 :: ts)).
    rewrite split_on_app_sep by done. rewrite map_cons, Htrim.
    rewrite filter_cons_True by done. by rewrite IH.
Qed.

(** Identifiers and names written as [id:name;id2:name2] are parsed back:
    the identifiers hold no [:], and neither they nor the names hold a
    separator or have white space around them. *)
Lemma parseUsers_join (pairs : list (gostring * gostring)) :
  pairs <> [] ->
  Forall (fun p => is_token (token_of p) /\ Forall (fun c => c <> ":"%char) p.1 /\
                   p.1 <> [] /\ p.2 <> [] /\ TrimSpace p.1 = p.1 /\ TrimSpace p.2 = p.2)
         pairs ->
  parseUsers (join_with ";" (map token_of pairs)) = inl (map user_of pairs).
Proof.
  intros Hne Hp. unfold parseUsers. rewrite splitList_spec_tokens, spec_tokens_join.
  2:{ apply Forall_fmap. eapply Forall_impl; [exact Hp|]. by intros p [? _]. }
  destruct pairs as [|p0 ps]; [done|]. clear Hne.
  change (length (map token_of (p0 :: ps)) =? 0)%nat with false. cbv iota.
  enough (Hl : forall acc, parseUsers_loop (map token_of (p0 :: ps)) acc
                           = inl (acc ++ map user_of (p0 :: ps))) by apply Hl.
  induction Hp as [|p ps' (_ & Hc & Hi & Hn & Ti & Tn) _ IH]; intros acc; simpl.
  - by rewrite app_nil_r.
  - unfold parseUser, SplitN2, token_of.
    rewrite (proj2 (cut_byte_Some ":" (p.1 ++ ":"%char :: p.2) p.1 p.2)) by done.
    rewrite Ti, Tn. destruct p as [[|i0 i] [|n0 n]]; try done. cbn [is_empty fst snd].
    rewrite IH. by rewrite <- app_assoc.
Qed.

(* ===================================================================== *)
(** * The JSON scanner: it ends, and it consumes what it reads *)
(* ===================================================================== *)

(** Case analysis on what a scanner looked at, in the hypothesis [H]. *)
Ltac scan_cases H :=
  repeat match type of H with
         | context [match ?x with _ => _ end] =>
             lazymatch x with
             | context [match _ with _ => _ end] => fail
             | _ => destruct x eqn:?; try discriminate H
             end
         end.

Lemma skip_space_length s : (length (skip_space s) <= length s)%nat.
Proof. induction s as [|c s IH]; simpl; [lia|]. destruct (isSpace c); simpl; lia. Qed.

Lemma skip_space_cons s c r : skip_space s = c :: r -> (length r < length s)%nat.
Proof. intros E. pose proof (skip_space_length s) as L. rewrite E in L. simpl in L. lia. Qed.

Lemma scan_string_length_aux n :
  forall s, (length s <= n)%nat ->
  forall raw rest, scan_string s = POk raw rest -> (length rest < length s)%nat.
Proof.
  induction n as [|n IH]; intros s Hn raw rest H.
  - destruct s; simpl in *; [discriminate|lia].
  - destruct s as [|c r]; [discriminate|]. simpl in H.
    scan_cases H; injection H as _ <-;
      repeat match goal with
             | E : scan_string _ = POk _ _ |- _ => apply IH in E; [|simpl in *; lia]
             end; simpl in *; lia.
Qed.

Lemma scan_string_length s raw rest :
  scan_string s = POk raw rest -> (length rest < S (length s))%nat.
Proof. intros H. apply (scan_string_length_aux (length s)) in H; lia. Qed.

Lemma span_digits_length s ds rest :
  span_digits s = (ds, rest) -> (length rest <= length s)%nat.
Proof.
  revert ds rest. induction s as [|c s IH]; intros ds rest; simpl.
  - intros [= _ <-]. simpl. lia.
  - destruct (is_digit c).
    + destruct (span_digits s) as [ds' rest'] eqn:E. intros [= _ <-].
      specialize (IH _ _ eq_refl). lia.
    + intros [= _ <-]. simpl. lia.
Qed.

Lemma scan_digits1_length s ds rest :
  scan_digits1 s = POk ds rest -> (length rest <= length s)%nat.
Proof.
  unfold scan_digits1. destruct s as [|d s]; [discriminate|].
  destruct (is_digit d); [|discriminate].
  destruct (span_digits (d :: s)) as [ds' rest'] eqn:E. intros [= _ <-].
  by apply span_digits_length in E.
Qed.

Lemma scan_exponent_length lit s l rest :
  scan_exponent lit s = POk l rest -> (length rest <= length s)%nat.
Proof.
  unfold scan_exponent. destruct s as [|e r]; [intros [= _ <-]; simpl; lia|].
  destruct (byte_eqb e "e" || byte_eqb e "E"); [|intros [= _ <-]; simpl; lia].
  destruct r as [|g r'].
  - simpl. discriminate.
  - destruct (byte_eqb g "+" || byte_eqb g "-").
    + destruct (scan_digits1 r') as [ds rest'|] eqn:E; [|discriminate].
      intros [= _ <-]. apply scan_digits1_length in E. simpl. lia.
    + destruct (scan_digits1 (g :: r')) as [ds rest'|] eqn:E; [|discriminate].
      intros [= _ <-]. apply scan_digits1_length in E. simpl in *. lia.
Qed.

Lemma scan_fraction_length lit s l rest :
  scan_fraction lit s = POk l rest -> (length rest <= length s)%nat.
Proof.
  unfold scan_fraction. destruct s as [|p r]; [intros [= _ <-]; simpl; lia|].
  destruct (byte_eqb p ".").
  - destruct (scan_digits1 r) as [ds rest'|] eqn:E; [|discriminate].
    intros H. apply scan_exponent_length in H. apply scan_digits1_length in E.
    simpl. lia.
  - apply scan_exponent_length.
Qed.

Lemma scan_number_length s l rest :
  scan_number s = POk l rest -> (length rest < length s)%nat.
Proof.
  unfold scan_number. destruct s as [|m r]; [discriminate|].
  destruct (byte_eqb m "-").
  - destruct r as [|c r']; [discriminate|].
    destruct (byte_eqb c "0").
    + intros H. apply scan_fraction_length in H. simpl. lia.
    + destruct (in_range "1" "9" c); [|discriminate].
      destruct (span_digits r') as [ds rest'] eqn:E.
      intros H. apply scan_fraction_length in H. apply span_digits_length in E.
      simpl. lia.
  - destruct (byte_eqb m "0").
    + intros H. apply scan_fraction_length in H. simpl. lia.
    + destruct (in_range "1" "9" m); [|discriminate].
      destruct (span_digits r) as [ds rest'] eqn:E.
      intros H. apply scan_fraction_length in H. apply span_digits_length in E.
      simpl. lia.
Qed.

Lemma scan_literal_length lit s u rest :
  scan_literal lit s = POk u rest -> (length rest <= length s)%nat.
Proof.
  revert s. induction lit as [|l lit IH]; intros s; simpl.
  - intros [= _ <-]. lia.
  - destruct s as [|c s']; [discriminate|]. destruct (byte_eqb c l); [|discriminate].
    intros H. apply IH in H. simpl. lia.
Qed.

Lemma scan_lengths fuel :
  (forall depth s v rest,
     scan_value fuel depth s = POk v rest -> (length rest < length s)%nat) /\
  (forall depth s acc v rest,
     scan_elements fuel depth s acc = POk v rest -> (length rest < length s)%nat) /\
  (forall depth s acc v rest,
     scan_members fuel depth s acc = POk v rest -> (length rest < length s)%nat).
Proof.
  induction fuel as [|fuel (IHv & IHe & IHm)]; [repeat split; intros; discriminate|].
  repeat split.
  - intros depth s v rest H. cbn [scan_value] in H.
    destruct (skip_space s) as [|c r] eqn:Es; [discriminate|].
    apply skip_space_cons in Es.
    scan_cases H; try (injection H as _ <-);
      repeat match goal with
             | E : skip_space _ = _ :: _ |- _ => apply skip_space_cons in E
             | E : scan_string _ = POk _ _ |- _ => apply scan_string_length in E
             | E : scan_number _ = POk _ _ |- _ => apply scan_number_length in E
             | E : scan_literal _ _ = POk _ _ |- _ => apply scan_literal_length in E
             | E : scan_members _ _ _ _ = POk _ _ |- _ => apply IHm in E
             | E : scan_elements _ _ _ _ = POk _ _ |- _ => apply IHe in E
             end; simpl in *; lia.
  - intros depth s acc v rest H. cbn [scan_elements] in H.
    destruct (scan_value fuel depth s) as [v' r|] eqn:Ev; [|discriminate].
    apply IHv in Ev.
    scan_cases H; try (injection H as _ <-);
      repeat match goal with
             | E : skip_space _ = _ :: _ |- _ => apply skip_space_cons in E
             | E : scan_elements _ _ _ _ = POk _ _ |- _ => apply IHe in E
             end; simpl in *; lia.
  - intros depth s acc v rest H. cbn [scan_members] in H.
    destruct (skip_space s) as [|q r] eqn:Es; [discriminate|].
    apply skip_space_cons in Es.
    destruct (negb (byte_eqb q dquote)); [discriminate|].
    destruct (scan_string r) as [raw r1|] eqn:Er; [|discriminate].
    apply scan_string_length in Er.
    destruct (skip_space r1) as [|c r2] eqn:E1; [discriminate|].
    apply skip_space_cons in E1.
    destruct (negb (byte_eqb c ":")); [discriminate|].
    destruct (scan_value fuel depth r2) as [v' r3|] eqn:Ev; [|discriminate].
    apply IHv in Ev.
    scan_cases H; try (injection H as _ <-);
      repeat match goal with
             | E : skip_space _ = _ :: _ |- _ => apply skip_space_cons in E
             | E : scan_members _ _ _ _ = POk _ _ |- _ => apply IHm in E
             end; simpl in *; lia.
Qed.

Lemma scan_string_no_fuel_aux n :
  forall s, (length s <= n)%nat -> scan_string s <> PErr ErrFuel.
Proof.
  induction n as [|n IH]; intros s Hn H.
  - destruct s; simpl in *; [discriminate|lia].
  - destruct s as [|c r]; [discriminate|]. simpl in H.
    scan_cases H;
      match goal with
      | E : scan_string ?x = PErr _ |- _ =>
          injection H as ->; apply IH in E; [done|simpl in *; lia]
      end.
Qed.

Lemma scan_string_no_fuel s : scan_string s <> PErr ErrFuel.
Proof. by apply (scan_string_no_fuel_aux (length s)). Qed.

Lemma scan_digits1_no_fuel s : scan_digits1 s <> PErr ErrFuel.
Proof.
  unfold scan_digits1. intros H. scan_cases H.
Qed.

Lemma scan_exponent_no_fuel lit s : scan_exponent lit s <> PErr ErrFuel.
Proof.
  unfold scan_exponent. intros H. scan_cases H;
    injection H as ->; by eapply scan_digits1_no_fuel.
Qed.

Lemma scan_fraction_no_fuel lit s : scan_fraction lit s <> PErr ErrFuel.
Proof.
  unfold scan_fraction. intros H.
  destruct s as [|p r]; [discriminate|].
  destruct (byte_eqb p "."); [|by eapply scan_exponent_no_fuel].
  destruct (scan_digits1 r) eqn:E; [by eapply scan_exponent_no_fuel|].
  injection H as ->. by eapply scan_digits1_no_fuel.
Qed.

Lemma scan_number_no_fuel s : scan_number s <> PErr ErrFuel.
Proof.
  unfold scan_number. intros H.
  scan_cases H; by eapply scan_fraction_no_fuel.
Qed.

Lemma scan_literal_no_fuel lit s : scan_literal lit s <> PErr ErrFuel.
Proof.
  revert s. induction lit as [|l lit IH]; intros s H; simpl in H; [discriminate|].
  scan_cases H. by eapply IH.
Qed.

(** The fuel [scan] gives is enough: the scanner does not stop for lack of
    it. *)
Lemma scan_fuel fuel :
  (forall depth s, (2 * length s + 1 <= fuel)%nat ->
     scan_value fuel depth s <> PErr ErrFuel) /\
  (forall depth s acc, (2 * length s + 2 <= fuel)%nat ->
     scan_elements fuel depth s acc <> PErr ErrFuel) /\
  (forall depth s acc, (2 * length s + 2 <= fuel)%nat ->
     scan_members fuel depth s acc <> PErr ErrFuel).
Proof.
  induction fuel as [|fuel (IHv & IHe & IHm)]; [repeat split; intros; lia|].
  repeat split.
  - intros depth s Hf H. cbn [scan_value] in H.
    destruct (skip_space s) as [|c r] eqn:Es; [discriminate|].
    apply skip_space_cons in Es.
    scan_cases H;
      repeat match goal with
             | E : skip_space _ = _ :: _ |- _ => apply skip_space_cons in E
             end;
      first [ injection H as ->;
              first [ by eapply scan_string_no_fuel | by eapply scan_number_no_fuel
                    | by eapply scan_literal_no_fuel ]
            | apply IHm in H; [done|simpl in *; lia]
            | apply IHe in H; [done|simpl in *; lia] ].
  - intros depth s acc Hf H. cbn [scan_elements] in H.
    destruct (scan_value fuel depth s) as [v' r|e] eqn:Ev.
    + apply (proj1 (scan_lengths fuel)) in Ev.
      scan_cases H;
        repeat match goal with
               | E : skip_space _ = _ :: _ |- _ => apply skip_space_cons in E
               end.
      apply IHe in H; [done|simpl in *; lia].
    + injection H as ->. apply IHv in Ev; [done|lia].
  - intros depth s acc Hf H. cbn [scan_members] in H.
    destruct (skip_space s) as [|q r] eqn:Es; [discriminate|].
    apply skip_space_cons in Es.
    destruct (negb (byte_eqb q dquote)); [discriminate|].
    destruct (scan_string r) as [raw r1|e] eqn:Er;
      [|injection H as ->; by eapply scan_string_no_fuel].
    apply scan_string_length in Er.
    destruct (skip_space r1) as [|c r2] eqn:E1; [discriminate|].
    apply skip_space_cons in E1.
    destruct (negb (byte_eqb c ":")); [discriminate|].
    destruct (scan_value fuel depth r2) as [v' r3|e] eqn:Ev.
    + apply (proj1 (scan_lengths fuel)) in Ev.
      scan_cases H;
        repeat match goal with
               | E : skip_space _ = _ :: _ |- _ => apply skip_space_cons in E
               end.
      apply IHm in H; [done|simpl in *; lia].
    + injection H as ->. apply IHv in Ev; [done|simpl in *; lia].
Qed.

Lemma scan_total s : scan s <> PErr ErrFuel.
Proof. unfold scan. apply (proj1 (scan_fuel _)). lia. Qed.

Lemma scan_rest_shorter s v rest : scan s = POk v rest -> (length rest < length s)%nat.
Proof. apply (proj1 (scan_lengths _)). Qed.

(* ===================================================================== *)
(** * The form *)
(* ===================================================================== *)

(** Keys of the form are compared by computing them. *)
Ltac key_neq := let E := fresh in intros E; vm_compute in E; congruence.

Ltac form_lookup :=
  unfold Values_Set;
  repeat (rewrite lookup_insert_eq
          || (rewrite lookup_insert_ne by (first [key_neq | congruence])));
  rewrite ?lookup_empty.



(* ===================================================================== *)
(** * The response handling of changeRegistration *)
(* ===================================================================== *)

Section ClientProofs.

Context {lib : GoLib} {World : Type} {plat : Platform World}.

Variables (client : httpClient) (baseURL token : gostring) (contestID : Z)
          (user : userSpec) (action : actionType) (timeout : Z).

(** An answered call returns what [handleResponse] makes of the answer. *)
Lemma changeRegistration_answered (w w' : World) resp body :
  answered client baseURL token contestID user action timeout w w' resp body ->
  changeRegistration client baseURL token contestID user action timeout w
  = (w', handleResponse (StatusCode resp) (Status resp) (ContentType resp) body).
Proof.
  intros (form & Hf & Hn & Hd & Hb). unfold changeRegistration.
  by rewrite Hf, Hn, Hd, Hb.
Qed.

Lemma handleResponse_non2xx statusCode status contentType body :
  statusCode < 200 \/ 300 <= statusCode ->
  handleResponse statusCode status contentType body
  = Some (ErrUnexpectedStatus status body).
Proof.
  intros Hs. unfold handleResponse.
  replace ((statusCode <? 200) || (300 <=? statusCode)) with true; [done|].
  symmetry. apply orb_true_iff. destruct Hs; [left|right]; lia.
Qed.

Lemma handleResponse_2xx statusCode status contentType body :
  200 <= statusCode < 300 ->
  handleResponse statusCode status contentType body
  = if negb (is_empty contentType) && negb (isJSONContentType contentType) then
      Some (ErrUnexpectedContentType contentType status
              (if (maxPreview <? length body)%nat
               then take maxPreview body ++ "..." else body))
    else
      match Unmarshal_reply body zero_reply with
      | (_, Some err) => Some (ErrDecodingResponse err)
      | (reply, None) => checkReply reply
      end.
Proof.
  intros Hs. unfold handleResponse.
  replace ((statusCode <? 200) || (300 <=? statusCode)) with false; [done|].
  symmetry. apply orb_false_iff. split; lia.
Qed.

Lemma handleResponse_json statusCode status contentType body :
  200 <= statusCode < 300 ->
  contentType = [] \/ isJSONContentType contentType = true ->
  handleResponse statusCode status contentType body
  = match Unmarshal_reply body zero_reply with
    | (_, Some err) => Some (ErrDecodingResponse err)
    | (reply, None) => checkReply reply
    end.
Proof.
  intros Hs Hc. rewrite handleResponse_2xx by done.
  destruct Hc as [-> | ->]; [done|]. by rewrite andb_false_r.
Qed.

End ClientProofs.

Section ClientStatements.

Context {lib : GoLib} {World : Type} {plat : Platform World}.

Variables (client : httpClient) (baseURL token : gostring) (contestID : Z)
          (user : userSpec) (action : actionType) (timeout : Z).

(** C3, on the code: when the status of the response is not 2xx,
    [changeRegistration] fails with the status line and the whole body of the
    response, of whatever length: the body is not cut at 200 bytes and no
    ellipsis is appended. *)
Theorem changeRegistration_non2xx_whole_body (w w' : World) resp body :
  answered client baseURL token contestID user action timeout w w' resp body ->
  StatusCode resp < 200 \/ 300 <= StatusCode resp ->
  changeRegistration client baseURL token contestID user action timeout w
  = (w', Some (ErrUnexpectedStatus (Status resp) body)) /\
  callErrorText (ErrUnexpectedStatus (Status resp) body)
  = Some ("unexpected status " ++ Status resp ++ ": " ++ body).
Proof.
  intros Ha Hs. rewrite (changeRegistration_answered _ _ _ _ _ _ _ _ _ _ _ Ha).
  by rewrite handleResponse_non2xx.
Qed.

(** C1, on the code: when the status is 2xx and the content type is not empty
    and not a JSON media type, [changeRegistration] fails with the error of
    the unexpected content type, whatever the body holds; the body is not
    searched for JSON, and nothing is decoded. *)
Theorem changeRegistration_non_json_content_type (w w' : World) resp body :
  answered client baseURL token contestID user action timeout w w' resp body ->
  200 <= StatusCode resp < 300 ->
  ContentType resp <> [] ->
  isJSONContentType (ContentType resp) = false ->
  changeRegistration client baseURL token contestID user action timeout w
  = (w', Some (ErrUnexpectedContentType (ContentType resp) (Status resp)
                 (if (200 <? length body)%nat then take 200 body ++ "..." else body))).
Proof.
  intros Ha Hs Hne Hj. rewrite (changeRegistration_answered _ _ _ _ _ _ _ _ _ _ _ Ha).
  rewrite handleResponse_2xx by done. rewrite Hj.
  by destruct (ContentType resp).
Qed.

(** C2, on the code: a 2xx JSON response whose body is the object with [ok]
    false and [result] the string [contest is closed] makes
    [changeRegistration] fail with the error of the decoding, a string being
    no value for the boolean [Result]; the message does not hold
    [contest is closed]. *)
Theorem changeRegistration_result_string (w w' : World) resp body :
  answered client baseURL token contestID user action timeout w w' resp body ->
  200 <= StatusCode resp < 300 ->
  ContentType resp = [] \/ isJSONContentType (ContentType resp) = true ->
  (exists rest,
     scan body = POk (JObject [("ok" : gostring, JBool false);
                               ("result" : gostring,
                                JString ("contest is closed" : gostring))]) rest /\
     skip_space rest = []) ->
  exists e text,
    changeRegistration client baseURL token contestID user action timeout w = (w', Some e) /\
    callErrorText e = Some text /\
    text = ("decoding response: json: cannot unmarshal string into Go struct field changeRegistrationReply.result of type bool" : gostring) /\
    Contains text "contest is closed" = false.
Proof.
  intros Ha Hs Hc (rest & Hscan & Hrest).
  rewrite (changeRegistration_answered _ _ _ _ _ _ _ _ _ _ _ Ha).
  rewrite handleResponse_json by done.
  unfold Unmarshal_reply. rewrite Hscan, Hrest.
  eexists _, _. split; [reflexivity|]. split; [reflexivity|].
  split; [reflexivity|]. vm_compute. reflexivity.
Qed.

(** When the response decodes to a reply, [changeRegistration] succeeds
    exactly when [OK] and [Result] are both true; otherwise it fails, with
    the error of the reply when there is one, and with the error that the
    change was not acknowledged when there is none. *)
Lemma changeRegistration_decoded (w w' : World) resp body reply :
  answered client baseURL token contestID user action timeout w w' resp body ->
  200 <= StatusCode resp < 300 ->
  ContentType resp = [] \/ isJSONContentType (ContentType resp) = true ->
  Unmarshal_reply body zero_reply = (reply, None) ->
  let result := changeRegistration client baseURL token contestID user action timeout w in
  (result = (w', None) <-> OK reply = true /\ Result reply = true) /\
  (forall e, Error reply = Some e -> ~ (OK reply = true /\ Result reply = true) ->
     result = (w', Some (ErrServerError e)) /\
     callErrorText (ErrServerError e)
     = Some ("server error: " ++ Message e ++ " (code " ++ Itoa (Num e)
               ++ ", symbol " ++ Symbol e ++ ", log " ++ LogID e ++ ")")) /\
  (Error reply = None -> ~ (OK reply = true /\ Result reply = true) ->
     result = (w', Some ErrNotAcknowledged) /\
     callErrorText ErrNotAcknowledged
     = Some ("registration change was not acknowledged" : gostring)).
Proof.
  intros Ha Hs Hc Hu result. subst result.
  rewrite (changeRegistration_answered _ _ _ _ _ _ _ _ _ _ _ Ha).
  rewrite handleResponse_json by done. rewrite Hu. unfold checkReply.
  split; [|split].
  - destruct (OK reply), (Result reply), (Error reply); simpl; split; intros Hx;
      try done; try (by destruct Hx); congruence.
  - intros e He Hn. rewrite He. split; [|done].
    destruct (OK reply), (Result reply); simpl; try done. exfalso. by apply Hn.
  - intros He Hn. rewrite He. split; [|done].
    destruct (OK reply), (Result reply); simpl; try done. exfalso. by apply Hn.
Qed.

End ClientStatements.

(* ===================================================================== *)
(** * The driver loop *)
(* ===================================================================== *)

Section DriverProofs.

Context {lib : GoLib} {World : Type} {plat : Platform World}.

Variables (client : httpClient) (baseURL token : gostring) (action : actionType)
          (timeout : Z).

#[local] Abbreviation run := (run_calls client baseURL token action timeout).
#[local] Abbreviation done_of' := (done_of action).

Lemma run_calls_app l1 l2 (w : World) :
  run (l1 ++ l2) w
  = let '(w1, o1) := run l1 w in
    let '(w2, o2) := run l2 w1 in
    (w2, o1 ++ o2).
Proof.
  revert w. induction l1 as [|[c u] l1 IH]; intros w; simpl.
  - by destruct (run l2 w).
  - destruct (changeRegistration client baseURL token c u action timeout w) as [w1 r].
    rewrite IH. destruct (run l1 w1) as [w2 o1]. by destruct (run l2 w2).
Qed.

Lemma run_calls_pairs l (w : World) : map fst (run l w).2 = l.
Proof.
  revert w. induction l as [|[c u] l IH]; intros w; simpl; [done|].
  destruct (changeRegistration client baseURL token c u action timeout w) as [w1 r].
  specialize (IH w1). destruct (run l w1) as [w2 rs]. simpl in *. by rewrite IH.
Qed.

Lemma failures_of_app o1 o2 : failures_of (o1 ++ o2) = failures_of o1 ++ failures_of o2.
Proof.
  induction o1 as [|[[c u] [e|]] o1 IH]; simpl; [done| |done]. by rewrite IH.
Qed.

Lemma done_of_app o1 o2 : done_of' (o1 ++ o2) = done_of' o1 ++ done_of' o2.
Proof.
  induction o1 as [|[[c u] [e|]] o1 IH]; simpl; [done|done|]. by rewrite IH.
Qed.

(** The inner loop is the calls for the pairs of one contest. *)
Lemma users_loop_run contestID users (st : loopState) :
  users_loop client baseURL token action timeout contestID users st
  = let '(w', outs) := run (map (pair contestID) users) (world st) in
    {| world := w';
       failures := failures st ++ failures_of outs;
       logged := logged st ++ done_of' outs |}.
Proof.
  revert st. induction users as [|u users IH]; intros st; simpl.
  - rewrite !app_nil_r. by destruct st.
  - rewrite IH. unfold attempt.
    destruct (changeRegistration client baseURL token contestID u action timeout (world st))
      as [w1 [e|]]; simpl;
      destruct (run (map (pair contestID) users) w1) as [w2 outs]; simpl;
      by rewrite <- ?app_assoc.
Qed.

(** The two loops are the calls for the pairs of the product. *)
Lemma contests_loop_run contests users (st : loopState) :
  contests_loop client baseURL token action timeout contests users st
  = let '(w', outs) := run (list_prod contests users) (world st) in
    {| world := w';
       failures := failures st ++ failures_of outs;
       logged := logged st ++ done_of' outs |}.
Proof.
  revert st. induction contests as [|c contests IH]; intros st; simpl.
  - rewrite !app_nil_r. by destruct st.
  - rewrite IH, users_loop_run, run_calls_app.
    destruct (run (map (pair c) users) (world st)) as [w1 o1]. simpl.
    destruct (run (list_prod contests users) w1) as [w2 o2].
    by rewrite failures_of_app, done_of_app, !app_assoc.
Qed.

Lemma failures_of_nil outs :
  failures_of outs = [] <-> forallb succeeded outs = true.
Proof.
  induction outs as [|[[c u] [e|]] outs IH]; simpl; [done| |done].
  split; [done|]. unfold succeeded. simpl. done.
Qed.

(** C8: the driver calls [changeRegistration] once for every pair of a
    contest and a user, the contests in the outer loop and the users in the
    inner one, each call in the world the one before left, whatever the calls
    return; it then logs the failures, and the exit status is 0 exactly when
    every call succeeded, and 1 otherwise. *)
Theorem driver_attempts_every_pair contests users (w : World) :
  exists w' outcomes,
    run (list_prod contests users) w = (w', outcomes) /\
    map fst outcomes = list_prod contests users /\
    length outcomes = (length contests * length users)%nat /\
    driver client baseURL token action timeout contests users w
    = (w', done_of' outcomes ++ map LogError (failures_of outcomes),
       if forallb succeeded outcomes then 0 else 1).
Proof.
  destruct (run (list_prod contests users) w) as [w' outcomes] eqn:E.
  exists w', outcomes. split; [done|].
  assert (Hp : map fst outcomes = list_prod contests users).
  { pose proof (run_calls_pairs (list_prod contests users) w) as Hp. by rewrite E in Hp. }
  split; [done|]. split.
  { rewrite <- (length_map fst), Hp. apply length_prod. }
  unfold driver. rewrite contests_loop_run. simpl. rewrite E. simpl.
  destruct (forallb succeeded outcomes) eqn:Ef.
  - apply failures_of_nil in Ef. rewrite Ef. simpl. by rewrite app_nil_r.
  - destruct (failures_of outcomes) as [|f fs] eqn:Ff; [|done].
    apply failures_of_nil in Ff. congruence.
Qed.

End DriverProofs.

(* ===================================================================== *)
(** * The configuration loader: proofs *)
(* ===================================================================== *)

Lemma scan_blank s : skip_space s = [] -> scan s = PErr ErrUnexpectedEnd.
Proof.
  intros E. unfold scan. rewrite Nat.add_1_r. cbn [scan_value]. by rewrite E.
Qed.

Lemma scan_not_blank s v rest : scan s = POk v rest -> skip_space s <> [].
Proof. intros E Hb. rewrite (scan_blank _ Hb) in E. discriminate. Qed.

Lemma decode_config_members_fits ms cur :
  forallb fits_member ms = true ->
  decode_config_members ms cur = ({| Token := last_token ms (Token cur) |}, None).
Proof.
  revert cur. induction ms as [|[key v] ms IH]; intros cur; simpl.
  - intros _. by destruct cur.
  - unfold fits_member, names_token. simpl. intros Hf.
    apply andb_true_iff in Hf as [Hm Hf]. apply andb_true_iff in Hm as [Hk Hv].
    rewrite Hk. destruct v; try discriminate; simpl; by rewrite IH.
Qed.

Lemma decode_config_members_misfit ms cur :
  forallb fits_member ms = false ->
  exists cfg e, decode_config_members ms cur = (cfg, Some e).
Proof.
  revert cur. induction ms as [|[key v] ms IH]; intros cur; [done|].
  cbn [decode_config_members forallb]. unfold fits_member at 1, names_token.
  cbn [fst snd]. intros Hf.
  destruct (field_matches key "token") eqn:Hk.
  - destruct (decode_string "config" "token" v (Token cur)) as [x [e|]] eqn:Ed.
    + destruct (decode_config_members ms {| Token := x |}) as [c e']. simpl. eauto.
    + assert (Hv : string_or_null v = true)
        by (destruct v; simpl in Ed; try discriminate Ed; reflexivity).
      rewrite Hv in Hf. simpl in Hf.
      destruct (IH {| Token := x |} Hf) as (c & e & ->). simpl. eauto.
  - destruct (decode_config_members ms cur) as [c e']. simpl. eauto.
Qed.

Lemma decode_config_fits v :
  fits_config v = true -> decode_config v zero_config = (config_of v, None).
Proof.
  destruct v; simpl; try done. intros Hf. by rewrite decode_config_members_fits.
Qed.

Lemma decode_config_misfit v :
  fits_config v = false -> exists cfg e, decode_config v zero_config = (cfg, Some e).
Proof.
  destruct v; simpl; try done; eauto. apply decode_config_members_misfit.
Qed.

(** A member that does not fit has another name, or holds something else
    than a string. *)
Lemma misfit_member ms :
  forallb fits_member ms = false ->
  Exists (fun m => names_token m = false) ms \/
  Exists (fun m => names_token m = true /\ string_or_null m.2 = false) ms.
Proof.
  induction ms as [|m ms IH]; simpl; [done|].
  unfold fits_member at 1. destruct (names_token m) eqn:Hn; simpl.
  - destruct (string_or_null m.2) eqn:Hs; simpl.
    + intros Hf. destruct (IH Hf); [left|right]; by apply Exists_cons_tl.
    + intros _. right. by apply Exists_cons_hd.
  - intros _. left. by apply Exists_cons_hd.
Qed.

Lemma fits_no_misfit ms :
  forallb fits_member ms = true ->
  ~ Exists (fun m => names_token m = false) ms /\
  ~ Exists (fun m => names_token m = true /\ string_or_null m.2 = false) ms.
Proof.
  intros Hf. rewrite forallb_forall in Hf.
  split; intros Hex; apply Exists_exists in Hex as (m & Hin & Hm);
    apply list_elem_of_In, Hf in Hin; unfold fits_member in Hin;
    apply andb_true_iff in Hin as [? ?]; [congruence|destruct Hm; congruence].
Qed.

(** Reading the first value of a file that is read to its end. *)
Lemma readValue_eof buf :
  readValue buf None
  = match skip_space buf with
    | [] => inr DecEOF
    | _ => match scan buf with
           | PErr ErrUnexpectedEnd => inr DecUnexpectedEOF
           | PErr e => inr (DecJSON (SyntaxError e))
           | POk v rest => inl (v, rest)
           end
    end.
Proof.
  unfold readValue. destruct (skip_space buf); [done|].
  destruct (scan buf) as [v rest|e]; [|done].
  by destruct (is_container v || negb (is_empty rest)).
Qed.

(** Reading from a file whose reading fails never ends at the end of the
    file. *)
Lemma readValue_read_error buf err : readValue buf (Some err) <> inr DecEOF.
Proof.
  unfold readValue. destruct (skip_space buf); [done|].
  destruct (scan buf) as [v rest|[]]; try done.
  by destruct (is_container v || negb (is_empty rest)).
Qed.

(** After the first value, anything but white space is a failure. *)
Lemma Decode_empty_struct_eof rest :
  Decode_empty_struct rest None = inr DecEOF <-> skip_space rest = [].
Proof.
  unfold Decode_empty_struct. rewrite readValue_eof.
  destruct (skip_space rest) eqn:E; [done|]. split; [|done].
  destruct (scan rest) as [v r|[]]; try done.
  by destruct (decode_empty_struct v).
Qed.
Section ConfigProofs.

Context {lib : GoLib} {World : Type} {plat : Platform World}.

Lemma Decode_empty_struct_read_error rest err :
  Decode_empty_struct rest (Some err) <> inr DecEOF.
Proof.
  unfold Decode_empty_struct. pose proof (readValue_read_error rest err) as Hr.
  destruct (readValue rest (Some err)) as [[v r]|e]; [|congruence].
  by destruct (decode_empty_struct v).
Qed.

Lemma Decode_config_eof data :
  Decode_config data None zero_config
  = match skip_space data with
    | [] => inr DecEOF
    | _ => match scan data with
           | PErr ErrUnexpectedEnd => inr DecUnexpectedEOF
           | PErr e => inr (DecJSON (SyntaxError e))
           | POk v rest =>
               match decode_config v zero_config with
               | (_, Some e) => inr (DecJSON e)
               | (cfg, None) => inl (cfg, rest)
               end
           end
    end.
Proof.
  unfold Decode_config. rewrite readValue_eof.
  destruct (skip_space data); [done|]. by destruct (scan data) as [v rest|[]].
Qed.

(** [loadConfig] returns a configuration exactly for a file that is read to
    its end and holds one value that fits [config], and white space. *)
Lemma loadConfig_ok_iff path (w : World) cfg :
  path <> [] ->
  loadConfig path w = inl cfg <->
  exists data v rest,
    os_Open path w = inl {| fileData := data; readError := None |} /\
    scan data = POk v rest /\ skip_space rest = [] /\
    fits_config v = true /\ cfg = config_of v.
Proof.
  intros Hp. unfold loadConfig. destruct path as [|p0 path']; [done|]. cbn [is_empty].
  destruct (os_Open (p0 :: path') w) as [[data [err|]]|err] eqn:Eo; cbn [fileData readError].
  - split; [|intros (? & ? & ? & [=] & _)].
    destruct (Decode_config data (Some err) zero_config) as [[c rest]|[]]; try done.
    pose proof (Decode_empty_struct_read_error rest err).
    by destruct (Decode_empty_struct rest (Some err)) as [|[]].
  - rewrite Decode_config_eof.
    destruct (skip_space data) as [|c0 d0] eqn:Eb.
    { split; [done|]. intros (? & v & rest & [= <-] & Hs & _).
      by apply scan_not_blank in Hs. }
    destruct (scan data) as [v rest|e] eqn:Es.
    2:{ split; [by destruct e|]. intros (? & ? & ? & [= <-] & Hs & _). congruence. }
    destruct (fits_config v) eqn:Ef.
    + rewrite (decode_config_fits _ Ef).
      pose proof (Decode_empty_struct_eof rest) as He.
      destruct (Decode_empty_struct rest None) as [r|e] eqn:Ed.
      * split; [done|]. intros (? & v' & rest' & [= <-] & Hs & Hr & _).
        rewrite Es in Hs. injection Hs as <- <-. apply He in Hr. discriminate.
      * split.
        -- intros Hc. assert (e = DecEOF) as -> by (by destruct e).
           injection Hc as <-. exists data, v, rest. repeat split; try done.
           by apply He.
        -- intros (? & v' & rest' & [= <-] & Hs & Hr & _ & ->).
           rewrite Es in Hs. injection Hs as <- <-. apply He in Hr.
           by injection Hr as ->.
    + destruct (decode_config_misfit _ Ef) as (c & e & ->).
      split; [done|]. intros (? & v' & rest' & [= <-] & Hs & _ & Hf & _).
      rewrite Es in Hs. injection Hs as <- <-. congruence.
  - split; [done|]. by intros (? & ? & ? & [=] & _).
Qed.

(** [main] sends nothing before the configuration is loaded: the world
    changes only when [loadConfig] has returned a configuration. *)
Lemma main_world_changes (f : flags) (w w' : World) log code :
  main f w = (w', log, code) -> w' <> w ->
  exists cfg, loadConfig (TrimSpace (configArg f)) w = inl cfg.
Proof.
  unfold main, fatal. intros Hm Hw.
  repeat match type of Hm with
         | context [match ?x with _ => _ end] =>
             lazymatch x with
             | context [match _ with _ => _ end] => fail
             | _ => destruct x eqn:?
             end
         end; try (injection Hm as <- _ _; done); eauto.
Qed.

(** C10, as amended: with an empty path [loadConfig] returns the empty
    configuration.  With another path it returns a configuration exactly
    when the file is read to its end and holds one JSON value that fits
    [config], and white space; the configuration holds the token of the
    value.  It fails exactly in the cases the specification lists (the file
    is missing or unreadable, is empty, is not valid JSON, has a field other
    than [token], or holds more after its first value) and in one more: the
    value is neither an object nor [null], or its [token] is neither a string
    nor [null].  [main] sends no request before [loadConfig] has returned a
    configuration. *)
Theorem loadConfig_spec (path : gostring) (w : World) :
  (path = [] -> loadConfig path w = inl zero_config) /\
  (path <> [] ->
   (forall cfg,
      loadConfig path w = inl cfg <->
      exists data v rest,
        os_Open path w = inl {| fileData := data; readError := None |} /\
        scan data = POk v rest /\ skip_space rest = [] /\
        fits_config v = true /\ cfg = config_of v) /\
   ((exists e, loadConfig path w = inr e) <->
    listed_failure (os_Open path w) \/ wrong_shape (os_Open path w))) /\
  (forall (f : flags) w' log code,
     main f w = (w', log, code) -> w' <> w ->
     exists cfg, loadConfig (TrimSpace (configArg f)) w = inl cfg).
Proof.
  split; [by intros ->|]. split; [|intros f w' log code; apply main_world_changes].
  intros Hp. split; [intros cfg; by apply loadConfig_ok_iff|].
  split.
  - intros [e He].
    destruct (os_Open path w) as [[data tail]|err] eqn:Eo; [|by left].
    unfold listed_failure, wrong_shape. cbn [fileData readError].
    destruct tail as [err|]; [left; left; done|].
    destruct (skip_space data) as [|c0 d0] eqn:Eb; [left; right; left; done|].
    destruct (scan data) as [v rest|e'] eqn:Es; [|left; right; right; left; eauto].
    destruct (fits_config v) eqn:Ef.
    + destruct (skip_space rest) as [|c1 r1] eqn:Er.
      * assert (Hok : loadConfig path w = inl (config_of v)).
        { apply loadConfig_ok_iff; [done|]. exists data, v, rest. by rewrite Eo. }
        congruence.
      * left. do 4 right. exists v, rest. split; [done|]. by rewrite Er.
    + destruct v; try discriminate Ef;
        try (right; eexists _, _; split; [reflexivity|exact I]).
      simpl in Ef. destruct (misfit_member _ Ef) as [Hm|Hm].
      * left. do 3 right. left. eauto.
      * right. eauto.
  - intros Hfail. destruct (loadConfig path w) as [cfg|e] eqn:El; [|eauto].
    exfalso. apply loadConfig_ok_iff in El as (data & v & rest & Eo & Es & Er & Ef & _);
      [|done].
    rewrite Eo in Hfail. unfold listed_failure, wrong_shape in Hfail.
    cbn [fileData readError] in Hfail.
    destruct Hfail as [[Hf|[Hf|[[e Hf]|[(ms & r & Hf & Hex)|(v' & r & Hf & Hne)]]]]
                      |(v' & r & Hf & Hw)].
    + done.
    + by apply scan_not_blank in Es.
    + congruence.
    + rewrite Es in Hf. injection Hf as -> ->. simpl in Ef.
      by apply fits_no_misfit in Ef as [Hn _].
    + rewrite Es in Hf. injection Hf as <- <-. done.
    + rewrite Es in Hf. injection Hf as <- <-.
      destruct v; try done. simpl in Ef. by apply fits_no_misfit in Ef as [_ Hn].
Qed.

End ConfigProofs.

(* ===================================================================== *)
(** * The tests of the repository, on the model *)
(* ===================================================================== *)

(** [TestParseUsersNormalizesSemicolons]. *)
Example test_parseUsers_semicolons :
  parseUsers Sample.users_list
  = inl [ {| ID := Some 123; Login := "123"; Name := "Alice" |};
          {| ID := None; Login := "user2"; Name := "User Two" |};
          {| ID := None; Login := "user3"; Name := "User Three" |} ].
Proof. vm_compute. reflexivity. Qed.

(** [TestParseContestIDsSplitsByTab] expects the three integers; for this
    [splitList] the input is one token, with its tabs, and no integer. *)
Example test_parseContestIDs_tabs :
  parseContestIDs Sample.tabbed_contests
  = inr (ErrInvalidContestID
           ("101" ++ ["009"%char] ++ "202" ++ ["009"%char] ++ " 303") ErrSyntax).
Proof. vm_compute. reflexivity. Qed.

(** [TestChangeRegistrationIncludesServerErrorMessage]. *)
Example test_server_error_message :
  exists w' e text,
    Sample.call (Sample.response 200 "200 OK" "application/json" Sample.blocked_body)
    = (w', Some e) /\
    callErrorText e = Some text /\
    text = ("server error: User is blocked (code 13, symbol USER_BLOCKED, log log-1)"
            : gostring) /\
    Contains text "User is blocked" = true.
Proof. eexists _, _, _. repeat split; vm_compute; reflexivity. Qed.

(** The form of the call of these tests, as it is sent. *)
Example test_request_body :
  (reqBody <$> (Sample.call (Sample.response 200 "200 OK" "" (jsontext "{}"))).1)
  = [("contest_id=1&ignore=true&name=User+Name&op=upsert&other_user_login=user&status=ok"
      : gostring)].
Proof. vm_compute. reflexivity. Qed.

(** [main] on two contests and two users, with a server that refuses the
    second call: the four calls are made, three lines are logged for the
    calls that succeeded and one for the failure, and the exit status is 1. *)
Example test_main_continues :
  let answers n :=
    inl (Sample.response 200 "200 OK" "application/json"
           (if (n =? 1)%nat then jsontext "{'ok':false}"
            else jsontext "{'ok':true,'result':true}")) in
  let f := {| usersArg := "1:a;b:c"; contestsArg := "5,6"; actionArg := "register";
              baseURLArg := "http://127.0.0.1/"; tokenArg := ""; configArg := "config.json";
              timeoutArg := 15000000000; insecureArg := false |} in
  let '(w', log, code) :=
    @main Sample.lib _ (Sample.platform answers Sample.good_config) f [] in
  (reqBody <$> w')
  = [("contest_id=5&ignore=true&name=a&op=upsert&other_user_id=1&other_user_login=1&status=ok"
      : gostring);
     ("contest_id=5&ignore=true&name=c&op=upsert&other_user_login=b&status=ok" : gostring);
     ("contest_id=6&ignore=true&name=a&op=upsert&other_user_id=1&other_user_login=1&status=ok"
      : gostring);
     ("contest_id=6&ignore=true&name=c&op=upsert&other_user_login=b&status=ok" : gostring)] /\
  log = [LogDone "Registered" "login=1 (id=1)" 5;
         LogDone "Registered" "login=1 (id=1)" 6;
         LogDone "Registered" "login=b" 6;
         LogError {| failContest := 5; failUser := "login=b";
                     failError := ErrNotAcknowledged |}] /\
  code = 1.
Proof. vm_compute. repeat split; reflexivity. Qed.

(* ===================================================================== *)
(** * [strconv.Itoa] and [strconv.Atoi] *)
(* ===================================================================== *)

(** The bytes of a decimal number are digits, and [parse_digits] reads them
    from the left as [Pos.of_uint_acc] does. *)

Lemma parse_digits_acc d (acc : positive) :
  Z.pos (Pos.of_uint_acc d acc) <= maxUint64 ->
  parse_digits (Z.pos acc) (uint_bytes d) = inl (Z.pos (Pos.of_uint_acc d acc)).
Proof.
  assert (Hmono : forall d acc, (acc <= Pos.of_uint_acc d acc)%positive).
  { clear. induction d; intros acc; simpl; try lia;
      (etransitivity; [|apply IHd]); lia. }
  revert acc. induction d; intros acc Hb; [reflexivity|..];
    unfold uint_bytes; cbn [NilEmpty.string_of_uint list_ascii_of_string parse_digits];
    match goal with
    | |- context [is_digit ?c] => change (is_digit c) with true; cbv iota
    end;
    match goal with
    | H : Z.pos (Pos.of_uint_acc (_ d) acc) <= _ |- _ => simpl in H
    end;
    match goal with
    | H : Z.pos (Pos.of_uint_acc d ?a) <= _ |- _ =>
        pose proof (Hmono d a);
        match goal with
        | |- context [maxUint64 <? ?v] =>
            replace v with (Z.pos a) by (unfold byte_val; simpl; lia);
            replace (maxUint64 <? Z.pos a) with false by (symmetry; apply Z.ltb_ge; lia);
            by apply IHd
        end
    end.
Qed.

Lemma parse_digits_uint d :
  Z.of_uint d <= maxUint64 ->
  parse_digits 0 (uint_bytes d) = inl (Z.of_uint d).
Proof.
  unfold Z.of_uint. induction d; intros Hb; [reflexivity|..];
    unfold uint_bytes; cbn [NilEmpty.string_of_uint list_ascii_of_string parse_digits];
    match goal with
    | |- context [is_digit ?c] => change (is_digit c) with true; cbv iota
    end;
    match goal with
    | |- context [maxUint64 <? ?v] =>
        let v' := eval vm_compute in v in
        change v with v'; change (maxUint64 <? v') with false; cbv iota
    end.
  1: by apply IHd.
  all: apply parse_digits_acc; exact Hb.
Qed.

Lemma uint_bytes_digits d : Forall (fun c => is_digit c = true) (uint_bytes d).
Proof. induction d; unfold uint_bytes; simpl; constructor; done. Qed.

Lemma to_uint_not_Nil p : Pos.to_uint p <> Decimal.Nil.
Proof.
  intros E. pose proof (DecimalPos.Unsigned.of_to p) as Hp. rewrite E in Hp. discriminate.
Qed.

(** [Itoa] of a positive number and of its opposite. *)
Lemma Itoa_pos p : Itoa (Z.pos p) = uint_bytes (Pos.to_uint p).
Proof.
  unfold Itoa, uint_bytes. simpl. pose proof (to_uint_not_Nil p).
  by destruct (Pos.to_uint p).
Qed.

Lemma Itoa_neg p : Itoa (Z.neg p) = "-"%char :: uint_bytes (Pos.to_uint p).
Proof.
  unfold Itoa, uint_bytes. simpl. pose proof (to_uint_not_Nil p).
  by destruct (Pos.to_uint p).
Qed.

Lemma uint_bytes_first p :
  exists c s, uint_bytes (Pos.to_uint p) = c :: s /\ is_digit c = true.
Proof.
  pose proof (to_uint_not_Nil p) as Hn. pose proof (uint_bytes_digits (Pos.to_uint p)) as Hd.
  destruct (Pos.to_uint p); [done|..]; unfold uint_bytes in *; simpl in *;
    inversion Hd; subst; eauto.
Qed.

Lemma digit_not_sign c :
  is_digit c = true -> byte_eqb c "-" = false /\ byte_eqb c "+" = false.
Proof.
  unfold is_digit, byte_eqb. intros Hd.
  split; apply Ascii.eqb_neq; intros ->; vm_compute in Hd; discriminate.
Qed.

Lemma parse_digits_to_uint p :
  Z.pos p <= maxUint64 ->
  parse_digits 0 (uint_bytes (Pos.to_uint p)) = inl (Z.pos p).
Proof.
  intros Hb. rewrite parse_digits_uint; unfold Z.of_uint;
    rewrite DecimalPos.Unsigned.of_to; done.
Qed.

(** What [strconv.Itoa] writes, [strconv.Atoi] reads back. *)
Lemma Atoi_Itoa n : minInt <= n <= maxInt -> Atoi (Itoa n) = inl n.
Proof.
  intros [Hlo Hhi]. unfold minInt, maxInt in *. destruct n as [|p|p].
  - reflexivity.
  - rewrite Itoa_pos. destruct (uint_bytes_first p) as (c & s & E & Hc).
    pose proof (parse_digits_to_uint p) as Hp. rewrite E in *.
    destruct (digit_not_sign c Hc) as [Hm Hpl]. unfold Atoi. rewrite Hm, Hpl. cbn [orb negb andb].
    rewrite Hp by (unfold maxUint64; lia).
    replace (maxInt <? Z.pos p) with false by (symmetry; apply Z.ltb_ge; unfold maxInt; lia).
    done.
  - rewrite Itoa_neg. destruct (uint_bytes_first p) as (c & s & E & Hc).
    pose proof (parse_digits_to_uint p) as Hp. rewrite E in *.
    unfold Atoi. change (byte_eqb "-" "-") with true. cbn [orb negb andb].
    rewrite Hp by (unfold maxUint64; lia).
    replace (- minInt <? Z.pos p) with false
      by (symmetry; apply Z.ltb_ge; unfold minInt; lia).
    done.
Qed.

Lemma parse_digits_nonneg s : forall acc n, 0 <= acc -> parse_digits acc s = inl n -> 0 <= n.
Proof.
  induction s as [|c s IH]; intros acc n Ha; simpl; [intros [= <-]; done|].
  destruct (is_digit c) eqn:Hc; [|done].
  destruct (maxUint64 <? _); [done|]. apply IH.
  unfold is_digit in Hc. apply andb_true_iff in Hc as [H0 _]. lia.
Qed.

(** What [strconv.Atoi] returns is an [int]. *)
Lemma Atoi_range s n : Atoi s = inl n -> minInt <= n <= maxInt.
Proof.
  unfold Atoi. destruct s as [|c s]; [done|].
  destruct (if byte_eqb c "-" || byte_eqb c "+" then s else c :: s) as [|d ds] eqn:Ed; [done|].
  destruct (parse_digits 0 (d :: ds)) as [un|e] eqn:Ep; [|done].
  apply parse_digits_nonneg in Ep; [|lia].
  destruct (byte_eqb c "-"); simpl.
  - destruct (- minInt <? un) eqn:E; [done|]. intros [= <-].
    apply Z.ltb_ge in E. unfold minInt, maxInt in *. lia.
  - destruct (maxInt <? un) eqn:E; [done|]. intros [= <-].
    apply Z.ltb_ge in E. unfold minInt, maxInt in *. lia.
Qed.

(* ===================================================================== *)
(** * What the parsers make of a list *)
(* ===================================================================== *)

Lemma split_on_concat f a sep b :
  f sep = true -> split_on f (a ++ sep :: b) = split_on f a ++ split_on f b.
Proof.
  intros Hs. induction a as [|c a IH]; simpl; [by rewrite Hs|].
  destruct (f c); [by rewrite IH|]. rewrite IH.
  pose proof (split_on_not_nil f a). by destruct (split_on f a).
Qed.

Lemma spec_tokens_concat a sep b :
  is_separator sep = true -> spec_tokens (a ++ sep :: b) = spec_tokens a ++ spec_tokens b.
Proof.
  intros Hs. unfold spec_tokens. rewrite split_on_concat by done.
  by rewrite map_app, filter_app.
Qed.

(** X1: a separator between two lists joins what [splitList] makes of each:
    the tokens of [a], then the tokens of [b], whatever stands at the end of
    [a] and at the start of [b]. *)
Theorem splitList_concat (a b : gostring) (sep : ascii) :
  is_separator sep = true ->
  splitList (a ++ sep :: b) = splitList a ++ splitList b.
Proof. intros Hs. rewrite !splitList_spec_tokens. by apply spec_tokens_concat. Qed.

Lemma parseContestIDs_loop_acc items acc :
  parseContestIDs_loop items acc
  = match parseContestIDs_loop items [] with
    | inl ids => inl (acc ++ ids)
    | inr e => inr e
    end.
Proof.
  revert acc. induction items as [|item items IH]; intros acc; simpl.
  - by rewrite app_nil_r.
  - destruct (Atoi item) as [id|e]; [|done].
    rewrite (IH (acc ++ [id])), (IH [id]).
    destruct (parseContestIDs_loop items []); [|done]. by rewrite <- app_assoc.
Qed.

Lemma parseContestIDs_loop_app l1 l2 acc :
  parseContestIDs_loop (l1 ++ l2) acc
  = match parseContestIDs_loop l1 acc with
    | inl ids => parseContestIDs_loop l2 ids
    | inr e => inr e
    end.
Proof.
  revert acc. induction l1 as [|item l1 IH]; intros acc; simpl; [done|].
  destruct (Atoi item) as [id|e]; [apply IH|done].
Qed.

Lemma parseContestIDs_tokens raw :
  parseContestIDs raw
  = match splitList raw with
    | [] => inr ErrContestListEmpty
    | items => parseContestIDs_loop items []
    end.
Proof. unfold parseContestIDs. by destruct (splitList raw). Qed.

(** X2: [parseContestIDs] on two lists with a separator between them: the
    IDs of the first followed by the IDs of the second; an empty half counts
    for nothing; the error is the error of the first half that has an
    invalid token, so the list is empty only when both halves are. *)
Theorem parseContestIDs_concat (a b : gostring) (sep : ascii) :
  is_separator sep = true ->
  parseContestIDs (a ++ sep :: b)
  = match parseContestIDs a, parseContestIDs b with
    | inr ErrContestListEmpty, r => r
    | inr e, _ => inr e
    | inl ids, inr ErrContestListEmpty => inl ids
    | inl _, inr e => inr e
    | inl ids, inl ids' => inl (ids ++ ids')
    end.
Proof.
  intros Hs. unfold parseContestIDs at 1.
  rewrite splitList_spec_tokens, spec_tokens_concat, <- !splitList_spec_tokens by done.
  rewrite (parseContestIDs_tokens a), (parseContestIDs_tokens b).
  assert (Hne : forall l acc, parseContestIDs_loop l acc <> inr ErrContestListEmpty).
  { clear. induction l as [|i l IH]; intros acc; simpl; [done|].
    destruct (Atoi i); [apply IH|done]. }
  destruct (splitList a) as [|ta la] eqn:Ea.
  - simpl. by destruct (splitList b).
  - change (length ((ta :: la) ++ splitList b) =? 0)%nat with false. cbv iota.
    rewrite parseContestIDs_loop_app.
    pose proof (Hne (ta :: la) []) as Ha.
    destruct (parseContestIDs_loop (ta :: la) []) as [ids|e] eqn:El.
    + destruct (splitList b) as [|tb lb] eqn:Eb; [done|].
      rewrite parseContestIDs_loop_acc. pose proof (Hne (tb :: lb) []) as Hb.
      destruct (parseContestIDs_loop (tb :: lb) []) as [ids'|e] eqn:El'; [done|].
      by destruct e.
    + by destruct e.
Qed.

Lemma parseUsers_loop_app l1 l2 acc :
  parseUsers_loop (l1 ++ l2) acc
  = match parseUsers_loop l1 acc with
    | inl users => parseUsers_loop l2 users
    | inr e => inr e
    end.
Proof.
  revert acc. induction l1 as [|item l1 IH]; intros acc; simpl; [done|].
  destruct (parseUser item) as [u|e]; [apply IH|done].
Qed.

Lemma parseUsers_loop_acc items acc :
  parseUsers_loop items acc
  = match parseUsers_loop items [] with
    | inl users => inl (acc ++ users)
    | inr e => inr e
    end.
Proof.
  revert acc. induction items as [|item items IH]; intros acc; simpl.
  - by rewrite app_nil_r.
  - destruct (parseUser item) as [u|e]; [|done].
    rewrite (IH (acc ++ [u])), (IH [u]).
    destruct (parseUsers_loop items []); [|done]. by rewrite <- app_assoc.
Qed.

Lemma parseUsers_loop_not_empty_error items acc :
  parseUsers_loop items acc <> inr ErrUserListEmpty.
Proof.
  revert acc. induction items as [|item items IH]; intros acc; simpl; [done|].
  unfold parseUser. destruct (SplitN2 item ":") as [|p0 [|p1 [|p2 ps]]]; try done.
  destruct (is_empty (TrimSpace p0)); [done|].
  destruct (is_empty (TrimSpace p1)); [done|]. apply IH.
Qed.

Lemma parseUsers_tokens raw :
  parseUsers raw
  = match splitList raw with
    | [] => inr ErrUserListEmpty
    | items => parseUsers_loop items []
    end.
Proof. unfold parseUsers. by destruct (splitList raw). Qed.

(** X3: [parseUsers] on two lists with a separator between them: the users
    of the first followed by the users of the second; an empty half counts
    for nothing; the error is the error of the first half that has an
    invalid token. *)
Theorem parseUsers_concat (a b : gostring) (sep : ascii) :
  is_separator sep = true ->
  parseUsers (a ++ sep :: b)
  = match parseUsers a, parseUsers b with
    | inr ErrUserListEmpty, r => r
    | inr e, _ => inr e
    | inl users, inr ErrUserListEmpty => inl users
    | inl _, inr e => inr e
    | inl users, inl users' => inl (users ++ users')
    end.
Proof.
  intros Hs. unfold parseUsers at 1.
  rewrite splitList_spec_tokens, spec_tokens_concat, <- !splitList_spec_tokens by done.
  rewrite (parseUsers_tokens a), (parseUsers_tokens b).
  destruct (splitList a) as [|ta la] eqn:Ea.
  - simpl. by destruct (splitList b).
  - change (length ((ta :: la) ++ splitList b) =? 0)%nat with false. cbv iota.
    rewrite parseUsers_loop_app.
    pose proof (parseUsers_loop_not_empty_error (ta :: la) []) as Ha.
    destruct (parseUsers_loop (ta :: la) []) as [us|e] eqn:El.
    + destruct (splitList b) as [|tb lb] eqn:Eb; [done|].
      rewrite parseUsers_loop_acc.
      pose proof (parseUsers_loop_not_empty_error (tb :: lb) []) as Hb.
      destruct (parseUsers_loop (tb :: lb) []) as [us'|e] eqn:El'; [done|].
      by destruct e.
    + by destruct e.
Qed.

Lemma parseContestIDs_loop_Forall2 items acc ids :
  parseContestIDs_loop items acc = inl ids ->
  exists ids', ids = acc ++ ids' /\ Forall2 (fun item id => Atoi item = inl id) items ids'.
Proof.
  revert acc. induction items as [|item items IH]; intros acc; simpl.
  - intros [= <-]. exists []. by rewrite app_nil_r.
  - destruct (Atoi item) as [id|e] eqn:Ei; [|done]. intros Hl.
    destruct (IH _ Hl) as (ids' & -> & HF). exists (id :: ids').
    rewrite <- app_assoc. split; [done|]. by constructor.
Qed.

Lemma parseContestIDs_items raw ids :
  parseContestIDs raw = inl ids ->
  splitList raw <> [] /\ Forall2 (fun item id => Atoi item = inl id) (splitList raw) ids.
Proof.
  rewrite parseContestIDs_tokens. destruct (splitList raw) as [|t ts] eqn:E; [done|].
  intros Hl. by apply parseContestIDs_loop_Forall2 in Hl as (ids' & -> & HF).
Qed.

Lemma Atoi_items_range items ids :
  Forall2 (fun item id => Atoi item = inl id) items ids ->
  Forall (fun id => minInt <= id <= maxInt) ids.
Proof.
  induction 1 as [|item id items ids Hi _ IH]; constructor; [|done].
  by apply Atoi_range in Hi.
Qed.

(** The contest IDs [parseContestIDs] returns are in the range of [int]. *)
Lemma parseContestIDs_in_range raw ids :
  parseContestIDs raw = inl ids -> Forall (fun id => minInt <= id <= maxInt) ids.
Proof. intros [_ HF]%parseContestIDs_items. by eapply Atoi_items_range. Qed.

(** X4: the list [parseContestIDs] returns is never empty; it has one ID for
    each token of [splitList], in their order, the ID being what
    [strconv.Atoi] reads in the token; every ID is in the range of a 64-bit
    [int]. *)
Theorem parseContestIDs_ids (raw : gostring) (ids : list Z) :
  parseContestIDs raw = inl ids ->
  ids <> [] /\
  Forall2 (fun item id => Atoi item = inl id) (splitList raw) ids /\
  Forall (fun id => minInt <= id <= maxInt) ids.
Proof.
  intros [Hne HF]%parseContestIDs_items.
  split; [intros ->; by inversion HF|]. split; [done|]. by eapply Atoi_items_range.
Qed.

Lemma parseUsers_loop_Forall2 items acc users :
  parseUsers_loop items acc = inl users ->
  exists us, users = acc ++ us /\ Forall2 (fun item u => parseUser item = inl u) items us.
Proof.
  revert acc. induction items as [|item items IH]; intros acc; simpl.
  - intros [= <-]. exists []. by rewrite app_nil_r.
  - destruct (parseUser item) as [u|e] eqn:Ei; [|done]. intros Hl.
    destruct (IH _ Hl) as (us & -> & HF). exists (u :: us).
    rewrite <- app_assoc. split; [done|]. by constructor.
Qed.

Lemma parseUser_parsed item u :
  is_token item -> parseUser item = inl u -> parsed_user u.
Proof.
  intros (_ & Hsep & _). unfold parseUser, SplitN2.
  destruct (cut_byte ":" item) as [[p0 p1]|] eqn:Ec; [|done].
  apply cut_byte_Some in Ec as [-> Hc].
  apply Forall_app in Hsep as [Hs0 Hs1]. apply Forall_cons in Hs1 as [_ Hs1].
  destruct (TrimSpace p0) as [|c0 i0] eqn:E0; cbn [is_empty]; [done|].
  destruct (TrimSpace p1) as [|c1 n1] eqn:E1; cbn [is_empty]; [done|].
  intros [= <-]. unfold parsed_user. cbn [ID Login Name].
  rewrite <- E0, <- E1. rewrite !TrimSpace_idempotent.
  repeat split; try done; try (rewrite ?E0, ?E1; done).
  - apply TrimSpace_Forall. apply Forall_forall. intros c Hin.
    rewrite Forall_forall in Hs0, Hc. split; [by apply Hs0|by apply Hc].
  - by apply TrimSpace_Forall.
Qed.

Lemma parseUsers_items raw users :
  parseUsers raw = inl users ->
  splitList raw <> [] /\ Forall2 (fun item u => parseUser item = inl u) (splitList raw) users.
Proof.
  rewrite parseUsers_tokens. destruct (splitList raw) as [|t ts] eqn:E; [done|].
  intros Hl. by apply parseUsers_loop_Forall2 in Hl as (us & -> & HF).
Qed.

(** The records [parseUsers] returns are as [parsed_user] says. *)
Lemma parseUsers_all_parsed raw users :
  parseUsers raw = inl users -> Forall parsed_user users.
Proof.
  intros [_ HF]%parseUsers_items. pose proof (spec_tokens_are_tokens raw) as Ht.
  rewrite <- splitList_spec_tokens in Ht.
  induction HF as [|item u items us Hi _ IH]; [done|].
  inversion Ht; subst. constructor; [by eapply parseUser_parsed|by apply IH].
Qed.

(** X5: the list [parseUsers] returns is never empty and has one record for
    each token of [splitList]; in every record the login and the name are
    not empty, have no white space around them and hold no [;] or [,], the
    login holds no [:], and [ID] is set exactly when [strconv.Atoi] reads
    the login, to what it reads. *)
Theorem parseUsers_records (raw : gostring) (users : list userSpec) :
  parseUsers raw = inl users ->
  users <> [] /\ length users = length (splitList raw) /\ Forall parsed_user users.
Proof.
  intros Hu. pose proof (parseUsers_all_parsed _ _ Hu) as Hp.
  apply parseUsers_items in Hu as [Hne HF].
  split; [intros ->; by inversion HF|].
  split; [symmetry; by eapply Forall2_length|done].
Qed.

(* ===================================================================== *)
(** * The identifiers, from the command line to the form *)
(* ===================================================================== *)

Lemma bytes_eqb_eq s t : bytes_eqb s t = true <-> s = t.
Proof.
  revert t. induction s as [|a s IH]; intros [|b t]; simpl; try done.
  rewrite andb_true_iff, byte_eqb_eq, IH. split; [by intros [-> ->]|by intros [= -> ->]].
Qed.

Lemma bytes_eqb_neq s t : bytes_eqb s t = false <-> s <> t.
Proof.
  rewrite <- bytes_eqb_eq. destruct (bytes_eqb s t); split; congruence.
Qed.

(** The identifiers in a form, whatever the action. *)
Lemma buildForm_ids (contestID : Z) (user : userSpec) (action : actionType)
    (form : Values) :
  buildForm contestID user action = inl form ->
  form !! ("contest_id" : gostring) = Some [Itoa contestID] /\
  form !! ("other_user_id" : gostring) = (fun id => [Itoa id]) <$> ID user /\
  form !! ("other_user_login" : gostring)
  = (if is_empty (Login user) then None else Some [Login user]).
Proof.
  unfold buildForm.
  destruct (bytes_eqb action actionRegister);
    [|destruct (bytes_eqb action actionUnregister); [|done]];
    intros [= <-];
    destruct (ID user) as [id|]; destruct (Login user) as [|c l];
    cbn [is_empty negb fmap option_fmap option_map];
    repeat split; form_lookup; reflexivity.
Qed.

(** X6: the identifiers the form carries are the ones given on the command
    line: for a contest ID and a user that the parsers returned,
    [contest_id] holds decimal text that [strconv.Atoi] reads back as the
    contest ID, [other_user_login] holds the login, and [other_user_id] is
    there exactly when the login is a number, holding text that reads back as
    that number. *)
Theorem form_ids_read_back (rawContests rawUsers : gostring) (contests : list Z)
    (users : list userSpec) (contestID : Z) (user : userSpec) (action : actionType)
    (form : Values) :
  parseContestIDs rawContests = inl contests ->
  parseUsers rawUsers = inl users ->
  contestID ∈ contests -> user ∈ users ->
  buildForm contestID user action = inl form ->
  (exists s, form !! ("contest_id" : gostring) = Some [s] /\ Atoi s = inl contestID) /\
  form !! ("other_user_login" : gostring) = Some [Login user] /\
  (forall id, ID user = Some id ->
     exists s, form !! ("other_user_id" : gostring) = Some [s] /\
               Atoi s = inl id /\ Atoi (Login user) = inl id) /\
  (ID user = None ->
     form !! ("other_user_id" : gostring) = None /\ exists e, Atoi (Login user) = inr e).
Proof.
  intros Hc Hu Hinc Hinu Hf.
  apply parseContestIDs_in_range in Hc as Hrange.
  apply parseUsers_all_parsed in Hu as Hparsed.
  rewrite Forall_forall in Hrange. rewrite Forall_forall in Hparsed.
  specialize (Hrange _ Hinc). destruct (Hparsed _ Hinu) as (Hl & _ & _ & _ & _ & _ & Hid).
  destruct (buildForm_ids _ _ _ _ Hf) as (Fc & Fi & Fl).
  split; [exists (Itoa contestID); split; [done|by apply Atoi_Itoa]|].
  split; [rewrite Fl; by destruct (Login user)|].
  split.
  - intros id Hsome. rewrite Hsome in Fi, Hid. exists (Itoa id). split; [done|].
    destruct (Atoi (Login user)) as [n|e] eqn:Ea; [|done]. injection Hid as ->.
    split; [|done]. apply Atoi_Itoa. by eapply Atoi_range.
  - intros Hnone. rewrite Hnone in Fi, Hid. split; [done|].
    destruct (Atoi (Login user)) as [n|e]; [done|eauto].
Qed.



(* ===================================================================== *)
(** * How a call ends *)
(* ===================================================================== *)

Section CallProofs.

Context {lib : GoLib} {World : Type} {plat : Platform World}.

Variables (client : httpClient) (baseURL token : gostring) (contestID : Z)
          (user : userSpec) (action : actionType) (timeout : Z).

Lemma buildForm_valid_action :
  action = actionRegister \/ action = actionUnregister ->
  exists form, buildForm contestID user action = inl form.
Proof.
  intros [-> | ->]; unfold buildForm; [|change (bytes_eqb actionUnregister actionRegister) with false];
    rewrite (proj2 (bytes_eqb_eq _ _) eq_refl); eauto.
Qed.

Lemma buildForm_other_action :
  action <> actionRegister -> action <> actionUnregister ->
  buildForm contestID user action = inr (ErrUnsupportedAction action).
Proof.
  intros H1 H2. unfold buildForm.
  by rewrite (proj2 (bytes_eqb_neq _ _) H1), (proj2 (bytes_eqb_neq _ _) H2).
Qed.

Lemma buildForm_inl_action form :
  buildForm contestID user action = inl form ->
  action = actionRegister \/ action = actionUnregister.
Proof.
  unfold buildForm.
  destruct (bytes_eqb action actionRegister) eqn:E1; [left; by apply bytes_eqb_eq|].
  destruct (bytes_eqb action actionUnregister) eqn:E2; [right; by apply bytes_eqb_eq|done].
Qed.

(** X8: a call that cannot be made sends nothing: for an action that is
    neither constant the call returns [unsupported action] and leaves the
    world as it is, and so does it, with [creating request], when
    [http.NewRequestWithContext] refuses the URL. *)
Theorem changeRegistration_sends_nothing (w : World) :
  (action <> actionRegister -> action <> actionUnregister ->
   changeRegistration client baseURL token contestID user action timeout w
   = (w, Some (ErrUnsupportedAction action))) /\
  (forall err,
     action = actionRegister \/ action = actionUnregister ->
     NewRequest_error (baseURL ++ changeRegistrationPath) = Some err ->
     changeRegistration client baseURL token contestID user action timeout w
     = (w, Some (ErrCreatingRequest err))).
Proof.
  unfold changeRegistration. split.
  - intros H1 H2. by rewrite buildForm_other_action.
  - intros err Ha Hn. destruct (buildForm_valid_action Ha) as [form ->]. by rewrite Hn.
Qed.

Lemma handleResponse_success statusCode status contentType body :
  handleResponse statusCode status contentType body = None ->
  200 <= statusCode < 300 /\
  (contentType = [] \/ isJSONContentType contentType = true) /\
  exists reply,
    Unmarshal_reply body zero_reply = (reply, None) /\
    OK reply = true /\ Result reply = true.
Proof.
  unfold handleResponse.
  destruct ((statusCode <? 200) || (300 <=? statusCode)) eqn:Es; [done|].
  apply orb_false_iff in Es as [E1 E2]. apply Z.ltb_ge in E1. apply Z.leb_gt in E2.
  destruct (negb (is_empty contentType) && negb (isJSONContentType contentType)) eqn:Ec;
    [done|].
  destruct (Unmarshal_reply body zero_reply) as [reply [err|]] eqn:Eu; [done|].
  unfold checkReply. intros Hr. split; [lia|]. split.
  - destruct contentType; [by left|right]. simpl in Ec.
    by destruct (isJSONContentType (a :: contentType)).
  - exists reply. split; [done|].
    destruct (OK reply), (Result reply); simpl in Hr; try done;
      by destruct (Error reply).
Qed.

(** X9: a call returns no error only in this way: the action is supported,
    the request is sent and answered, the body is read, the status is 2xx,
    the content type is empty or a JSON media type, and the body decodes to
    a reply with [ok] and [result] both true. *)
Theorem changeRegistration_success (w w' : World) :
  changeRegistration client baseURL token contestID user action timeout w = (w', None) ->
  exists form resp body reply,
    buildForm contestID user action = inl form /\
    client_Do client (buildRequest baseURL token form timeout) w = (w', inl resp) /\
    Body resp = inl body /\
    200 <= StatusCode resp < 300 /\
    (ContentType resp = [] \/ isJSONContentType (ContentType resp) = true) /\
    Unmarshal_reply body zero_reply = (reply, None) /\
    OK reply = true /\ Result reply = true.
Proof.
  unfold changeRegistration.
  destruct (buildForm contestID user action) as [form|e] eqn:Ef; [|done].
  destruct (NewRequest_error (baseURL ++ changeRegistrationPath)); [done|].
  destruct (client_Do client (buildRequest baseURL token form timeout) w)
    as [w1 [resp|err]] eqn:Ed; [|done].
  destruct (Body resp) as [body|err] eqn:Eb; [|done].
  intros [= <- Hh]. apply handleResponse_success in Hh as (Hs & Hc & reply & Hu & Ho & Hr).
  exists form, resp, body, reply. destruct Hs. repeat split; done.
Qed.

(** X10: the excerpt in the error for an unexpected content type: it
    starts with the first 200 bytes of the body, is the whole body when the
    body has at most 200 bytes, ends with [...] after these 200 bytes when it
    has more, and so never has more than 203 bytes. *)
Theorem content_type_preview_bounded (w w' : World) resp body :
  answered client baseURL token contestID user action timeout w w' resp body ->
  200 <= StatusCode resp < 300 ->
  ContentType resp <> [] ->
  isJSONContentType (ContentType resp) = false ->
  exists preview,
    changeRegistration client baseURL token contestID user action timeout w
    = (w', Some (ErrUnexpectedContentType (ContentType resp) (Status resp) preview)) /\
    (length preview <= 203)%nat /\
    take 200 preview = take 200 body /\
    ((length body <= 200)%nat -> preview = body) /\
    ((200 < length body)%nat -> drop 200 preview = ("..." : gostring)).
Proof.
  intros Ha Hs Hne Hj. rewrite (changeRegistration_answered _ _ _ _ _ _ _ _ _ _ _ Ha).
  rewrite handleResponse_2xx by done. rewrite Hj.
  destruct (ContentType resp) as [|c ct] eqn:Ec; [done|]. cbn [is_empty negb andb].
  eexists. split; [reflexivity|]. unfold maxPreview.
  destruct (200 <? length body)%nat eqn:El.
  - apply Nat.ltb_lt in El.
    assert (Ht : length (take 200 body) = 200%nat) by (rewrite length_take; lia).
    repeat split.
    + rewrite length_app, Ht. simpl. lia.
    + rewrite take_app_le by lia. by rewrite take_take.
    + lia.
    + intros _. rewrite drop_app_length'; done.
  - apply Nat.ltb_ge in El. repeat split; try done; try lia.
Qed.

End CallProofs.

(* ===================================================================== *)
(** * The body of the request *)
(* ===================================================================== *)




(** The fields of a form in the order of their keys, by computing. *)
Ltac sort_form :=
  unfold Values_Encode;
  match goal with
  | |- context [merge_sort key_le (map_to_list ?f)] =>
      let l := eval vm_compute in (merge_sort key_le (map_to_list f)) in
      replace (merge_sort key_le (map_to_list f)) with l by (vm_compute; reflexivity)
  end.


Lemma byte_val_of (m : Z) : 0 <= m < 256 -> byte_val (byte_of m) = m.
Proof.
  intros Hm. unfold byte_val, byte_of.
  assert (Hn : (Z.to_N m < 256)%N).
  { apply N2Z.inj_lt. rewrite Z2N.id by lia. simpl. lia. }
  rewrite N_ascii_embedding by exact Hn. apply Z2N.id. lia.
Qed.

Lemma byte_val_bounds (c : ascii) : 0 <= byte_val c < 256.
Proof.
  unfold byte_val. pose proof (N_ascii_bounded c). lia.
Qed.

(** A hexadecimal digit is neither [&] nor [=]. *)
Lemma upperhex_no_separator (n : Z) (b : ascii) :
  0 <= n < 16 -> b = "&"%char \/ b = "="%char -> upperhex n <> b.
Proof.
  intros Hn Hb Hu. apply (f_equal byte_val) in Hu. unfold upperhex in Hu.
  change (byte_val "0") with 48 in Hu. change (byte_val "A") with 65 in Hu.
  destruct (n <? 10) eqn:E; [apply Z.ltb_lt in E|apply Z.ltb_ge in E];
    rewrite byte_val_of in Hu by lia;
    (destruct Hb as [-> | ->];
     [change (byte_val "&") with 38 in Hu|change (byte_val "=") with 61 in Hu]); lia.
Qed.

(** What [QueryEscape] writes holds neither [&] nor [=]. *)
Lemma QueryEscape_no_separator s (b : ascii) :
  b = "&"%char \/ b = "="%char -> count_occ ascii_dec (QueryEscape s) b = 0%nat.
Proof.
  intros Hb. induction s as [|c s IH]; [done|]. cbn [QueryEscape].
  pose proof (byte_val_bounds c) as Hv.
  destruct (shouldEscape c) eqn:Es.
  - destruct (byte_eqb c " ").
    + rewrite count_occ_cons_neq; [done|]. destruct Hb as [-> | ->]; done.
    + rewrite count_occ_cons_neq by (destruct Hb as [-> | ->]; done).
      rewrite count_occ_cons_neq
        by (apply upperhex_no_separator; [|done];
            split; [apply Z.div_pos; lia|apply Z.div_lt_upper_bound; lia]).
      rewrite count_occ_cons_neq
        by (apply upperhex_no_separator; [|done]; apply Z.mod_pos_bound; lia).
      done.
  - rewrite count_occ_cons_neq; [done|].
    intros ->. destruct Hb as [-> | ->]; vm_compute in Es; discriminate.
Qed.

(** X12: whatever bytes the name and the login of the user hold, the body
    has one [=] for each field of the form and one [&] between two fields:
    nothing in a name or a login adds a field or ends one. *)
Theorem request_body_separators (contestID : Z) (user : userSpec) (action : actionType)
    (form : Values) :
  buildForm contestID user action = inl form ->
  S (count_occ ascii_dec (Values_Encode form) "&"%char) = size form /\
  count_occ ascii_dec (Values_Encode form) "="%char = size form.
Proof.
  intros Hf. destruct (buildForm_inl_action _ _ _ _ Hf) as [-> | ->].
  1: revert Hf; unfold buildForm;
    replace (bytes_eqb actionRegister actionRegister) with true by reflexivity;
    intros [= <-].
  2: revert Hf; unfold buildForm;
    replace (bytes_eqb actionUnregister actionRegister) with false by reflexivity;
    replace (bytes_eqb actionUnregister actionUnregister) with true by reflexivity;
    intros [= <-].
  all: pose proof (QueryEscape_no_separator) as Hq.
  all: destruct (ID user) as [id|]; [generalize (Itoa id); intros vid|];
    destruct (Login user) as [|c l]; cbn [is_empty negb];
    generalize (Itoa contestID); intros vc; generalize (Name user); intros vn;
    try (generalize (c :: l); intros vl).
  all: split;
    (match goal with
     | |- _ = size ?f => let n := eval vm_compute in (size f) in
                         replace (size f) with n by (vm_compute; reflexivity)
     end);
    sort_form; cbn [concat map app fst snd join_with]; unfold encode_pair;
    simpl; repeat (rewrite count_occ_app; simpl); rewrite !Hq by auto; reflexivity.
Qed.

(* ===================================================================== *)
(** * How [main] ends, and what it sends *)
(* ===================================================================== *)

Section MainProofs.

Context {lib : GoLib} {World : Type} {plat : Platform World}.

Lemma parseAction_inl raw action :
  parseAction raw = inl action -> action = actionRegister \/ action = actionUnregister.
Proof.
  unfold parseAction.
  destruct (bytes_eqb _ actionRegister); [intros [= <-]; by left|].
  destruct (bytes_eqb _ actionUnregister); [intros [= <-]; by right|done].
Qed.

(** [main] stops with one fatal line and leaves the world as it is, or runs
    the loop on what it made of the flags. *)
Lemma main_cases (f : flags) (w : World) :
  (exists e, main f w = (w, [LogFatal e], 1)) \/
  (exists action users contests cfg,
     (action = actionRegister \/ action = actionUnregister) /\
     parseUsers (usersArg f) = inl users /\
     parseContestIDs (contestsArg f) = inl contests /\
     loadConfig (TrimSpace (configArg f)) w = inl cfg /\
     resolved_token f cfg <> [] /\
     TrimSuffix_slash (baseURLArg f) <> [] /\
     main f w
     = driver {| clientTimeout := timeoutArg f; InsecureSkipVerify := insecureArg f |}
         (TrimSuffix_slash (baseURLArg f)) (resolved_token f cfg) action (timeoutArg f)
         contests users w).
Proof.
  unfold main, fatal.
  destruct (is_empty (usersArg f)); [left; eauto|].
  destruct (is_empty (contestsArg f)); [left; eauto|].
  destruct (parseAction (actionArg f)) as [action|raw] eqn:Ea; [|left; eauto].
  destruct (parseUsers (usersArg f)) as [users|e]; [|left; eauto].
  destruct (parseContestIDs (contestsArg f)) as [contests|e]; [|left; eauto].
  destruct (loadConfig (TrimSpace (configArg f)) w) as [cfg|e]; [|left; eauto].
  cbv zeta. change (if is_empty (TrimSpace (tokenArg f)) then TrimSpace (Token cfg) else TrimSpace (tokenArg f)) with (resolved_token f cfg).
  destruct (resolved_token f cfg) as [|c t] eqn:Et; [left; eauto|].
  destruct (TrimSuffix_slash (baseURLArg f)) as [|c' b] eqn:Eb; [left; eauto|].
  cbn [is_empty].
  destruct (insecureArg f && negb defaultTransportIsHTTP); [left; eauto|].
  right. exists action, users, contests, cfg.
  apply parseAction_inl in Ea. repeat split; try done; by rewrite Et.
Qed.

(** X18: an action that [parseAction] accepts is one of the two constants,
    [actionVerb] has a verb of its own for it, and [changeRegistration]
    builds a form for it, whatever the contest and the user. *)
Theorem parseAction_supported (raw : gostring) (action : actionType) :
  parseAction raw = inl action ->
  (action = actionRegister /\ actionVerb action = ("Registered" : gostring) \/
   action = actionUnregister /\ actionVerb action = ("Unregistered" : gostring)) /\
  forall contestID user, exists form, buildForm contestID user action = inl form.
Proof.
  intros Ha%parseAction_inl. split.
  - destruct Ha as [-> | ->]; [left|right]; by split.
  - intros contestID user. by apply buildForm_valid_action.
Qed.

Section DriverLoop.

Variables (client : httpClient) (baseURL token : gostring) (action : actionType)
          (timeout : Z).

#[local] Abbreviation run := (run_calls client baseURL token action timeout).

Lemma run_calls_length l (w : World) : length (run l w).2 = length l.
Proof. by rewrite <- (length_map fst), run_calls_pairs. Qed.

Lemma done_of_all outs :
  forallb succeeded outs = true -> done_of action outs = map (done_line action) (map fst outs).
Proof.
  induction outs as [|[[c u] [e|]] outs IH]; simpl; [done|done|].
  intros H. by rewrite IH.
Qed.

Lemma done_failures_length outs :
  (length (done_of action outs) + length (failures_of outs) = length outs)%nat.
Proof. induction outs as [|[[c u] [e|]] outs IH]; simpl; lia. Qed.

Lemma done_of_no_fatal outs : existsb is_fatal (done_of action outs) = false.
Proof. induction outs as [|[[c u] [e|]] outs IH]; simpl; done. Qed.

Lemma errors_no_fatal (fs : list failure) : existsb is_fatal (map LogError fs) = false.
Proof. induction fs; simpl; done. Qed.

Lemma last_errors (fs : list failure) :
  fs <> [] -> exists fl, last (map LogError fs) = Some (LogError fl).
Proof.
  induction fs as [|a [|b fs] IH]; [done|by exists a|]. intros _.
  destruct IH as [fl Hf]; [done|]. exists fl. exact Hf.
Qed.

(** The loop and what follows it, by the exit status. *)
Lemma driver_status contests users (w w' : World) log code :
  driver client baseURL token action timeout contests users w = (w', log, code) ->
  length log = (length contests * length users)%nat /\
  existsb is_fatal log = false /\
  (code = 0 /\ log = map (done_line action) (list_prod contests users) \/
   code = 1 /\ exists fl, last log = Some (LogError fl)).
Proof.
  unfold driver. rewrite contests_loop_run. cbn [world failures logged app].
  pose proof (run_calls_pairs client baseURL token action timeout (list_prod contests users) w) as Hp.
  destruct (run (list_prod contests users) w) as [w1 outs]. cbn [snd] in Hp.
  cbn [world failures logged].
  pose proof (done_failures_length outs) as Hl.
  assert (Hn : length outs = (length contests * length users)%nat).
  { rewrite <- (length_map fst), Hp. apply length_prod. }
  destruct (0 <? length (failures_of outs))%nat eqn:E0; intros [= <- <- <-].
  - apply Nat.ltb_lt in E0. split; [rewrite length_app, length_map; lia|].
    split; [by rewrite existsb_app, done_of_no_fatal, errors_no_fatal|].
    right. split; [done|]. rewrite last_app.
    destruct (last_errors (failures_of outs)) as [x ->]; [|by exists x].
    intros E. rewrite E in E0. simpl in E0. lia.
  - apply Nat.ltb_ge in E0.
    assert (Ef : failures_of outs = []) by (destruct (failures_of outs); [done|simpl in E0; lia]).
    rewrite Ef in Hl. simpl in Hl. split; [lia|]. split; [apply done_of_no_fatal|].
    left. split; [done|]. apply failures_of_nil in Ef. by rewrite done_of_all, Hp.
Qed.

Lemma done_of_no_error outs fl : LogError fl ∉ done_of action outs.
Proof.
  induction outs as [|[[c u] [e|]] outs IH]; simpl; [by intros ?%elem_of_nil|done|].
  intros [E|?]%elem_of_cons; [done|by apply IH].
Qed.

Lemma elem_of_failures_of fl outs :
  fl ∈ failures_of outs ->
  exists c u err, (c, u, Some err) ∈ outs /\ fl = mkFailure c (userIdentifier u) err.
Proof.
  induction outs as [|[[c u] [e|]] outs IH]; simpl.
  - by intros ?%elem_of_nil.
  - intros [->|Hin]%elem_of_cons.
    + exists c, u, e. split; [left|done].
    + destruct (IH Hin) as (c' & u' & e' & Hin' & ->). exists c', u', e'. split; [by right|done].
  - intros Hin. destruct (IH Hin) as (c' & u' & e' & Hin' & ->).
    exists c', u', e'. split; [by right|done].
Qed.

(** What [run_calls] pairs with a contest and a user is what a call for them
    returned, in some world. *)
Lemma run_calls_results l (w : World) :
  Forall (fun o => exists w0,
            (changeRegistration client baseURL token o.1.1 o.1.2 action timeout w0).2 = o.2)
         (run l w).2.
Proof.
  revert w. induction l as [|[c u] l IH]; intros w; simpl; [constructor|].
  destruct (changeRegistration client baseURL token c u action timeout w) as [w1 r] eqn:E.
  specialize (IH w1). destruct (run l w1) as [w2 rs]. simpl in *.
  constructor; [|done]. exists w. simpl. by rewrite E.
Qed.

Lemma driver_errors contests users (w w' : World) log code fl :
  driver client baseURL token action timeout contests users w = (w', log, code) ->
  LogError fl ∈ log ->
  exists c u err w0,
    c ∈ contests /\ u ∈ users /\ fl = mkFailure c (userIdentifier u) err /\
    (changeRegistration client baseURL token c u action timeout w0).2 = Some err.
Proof.
  unfold driver. rewrite contests_loop_run. cbn [world failures logged app].
  pose proof (run_calls_pairs client baseURL token action timeout (list_prod contests users) w) as Hp.
  pose proof (run_calls_results (list_prod contests users) w) as Hr.
  destruct (run (list_prod contests users) w) as [w1 outs]. cbn [snd] in Hp, Hr.
  cbn [world failures logged].
  assert (Hf : fl ∈ failures_of outs ->
          exists c u err w0,
            c ∈ contests /\ u ∈ users /\ fl = mkFailure c (userIdentifier u) err /\
            (changeRegistration client baseURL token c u action timeout w0).2 = Some err).
  { intros (c & u & err & Hin & ->)%elem_of_failures_of.
    rewrite Forall_forall in Hr. destruct (Hr _ Hin) as [w0 Hw0]. simpl in Hw0.
    assert (Hcu : (c, u) ∈ list_prod contests users).
    { rewrite <- Hp. apply list_elem_of_In, in_map_iff. exists (c, u, Some err).
      split; [done|by apply list_elem_of_In]. }
    apply list_elem_of_In, in_prod_iff in Hcu as [Hc Hu].
    exists c, u, err, w0. repeat split; try done; by apply list_elem_of_In. }
  destruct (0 <? length (failures_of outs))%nat; intros [= <- <- <-] Hin.
  - apply elem_of_app in Hin as [Hin|Hin]; [by apply done_of_no_error in Hin|].
    apply Hf. apply list_elem_of_In, in_map_iff in Hin as (x & [= ->] & Hx).
    by apply list_elem_of_In.
  - by apply done_of_no_error in Hin.
Qed.

End DriverLoop.

Lemma changeRegistration_supported client baseURL token contestID user action timeout
    (w : World) err :
  action = actionRegister \/ action = actionUnregister ->
  (changeRegistration client baseURL token contestID user action timeout w).2 = Some err ->
  forall a, err <> ErrUnsupportedAction a.
Proof.
  intros Ha. unfold changeRegistration.
  destruct (buildForm_valid_action contestID user action Ha) as [form ->].
  destruct (NewRequest_error _); [by intros [= <-]|].
  destruct (client_Do _ _ _) as [w1 [resp|e]]; [|by intros [= <-]].
  destruct (Body resp) as [body|e]; [|by intros [= <-]].
  simpl. unfold handleResponse, checkReply.
  repeat match goal with
         | |- context [if ?b then _ else _] => destruct b
         | |- context [match ?x with _ => _ end] => destruct x
         end; by intros [= <-].
Qed.

(** X13: how [main] ends.  Either it logs one fatal line, exits with 1 and
    has sent nothing; or both lists were parsed, it logs one line for each
    pair of a contest and a user and no fatal line, and then the exit status
    is 0 with the lines of the calls that succeeded, for every pair in the
    order of the loops, or it is 1 with an error line as the last line. *)
Theorem main_exit_status (f : flags) (w w' : World) log code :
  main f w = (w', log, code) ->
  (exists e, log = [LogFatal e] /\ code = 1 /\ w' = w) \/
  (exists action users contests,
     (action = actionRegister \/ action = actionUnregister) /\
     parseUsers (usersArg f) = inl users /\
     parseContestIDs (contestsArg f) = inl contests /\
     length log = (length contests * length users)%nat /\
     existsb is_fatal log = false /\
     (code = 0 /\ log = map (done_line action) (list_prod contests users) \/
      code = 1 /\ exists fl, last log = Some (LogError fl))).
Proof.
  destruct (main_cases f w) as [[e ->]|(action & users & contests & cfg & Ha & Hu & Hc & _ & _ & _ & ->)].
  - intros [= <- <- <-]. left. by exists e.
  - intros Hd. right. exists action, users, contests.
    apply driver_status in Hd as (Hl & Hn & Hs). by repeat split.
Qed.

(** X14: an error line of [main] is about a contest of the [-contests] list
    and a user of the [-users] list, and its error never is
    [unsupported action]: with the action [parseAction] returned, the default
    branch of the switch in [changeRegistration] is not reached. *)
Theorem main_failures (f : flags) (w w' : World) log code fl :
  main f w = (w', log, code) ->
  LogError fl ∈ log ->
  exists users contests,
    parseUsers (usersArg f) = inl users /\
    parseContestIDs (contestsArg f) = inl contests /\
    failContest fl ∈ contests /\
    (exists u, u ∈ users /\ failUser fl = userIdentifier u) /\
    forall a, failError fl <> ErrUnsupportedAction a.
Proof.
  destruct (main_cases f w) as [[e ->]|(action & users & contests & cfg & Ha & Hu & Hc & _ & _ & _ & ->)].
  - intros [= <- <- <-] Hin. apply list_elem_of_singleton in Hin. done.
  - intros Hd Hin. destruct (driver_errors _ _ _ _ _ _ _ _ _ _ _ _ Hd Hin)
      as (c & u & err & w0 & Hic & Hiu & -> & Hcall).
    exists users, contests. repeat split; try done; [by exists u|].
    by apply (changeRegistration_supported _ _ _ _ _ _ _ _ _ Ha Hcall).
Qed.

End MainProofs.

(** ** The requests, in the world that records them *)

Section Recorded.

Context {lib : GoLib}.

Variables (answers : nat -> httpResponse + gostring)
          (files : list (gostring * fileStream)).

#[local] Abbreviation recorded := (Sample.platform answers files).

Section RecordedLoop.

Variables (client : httpClient) (baseURL token : gostring) (action : actionType)
          (timeout : Z).

Hypothesis supported : action = actionRegister \/ action = actionUnregister.

#[local] Abbreviation requests := (requests_of baseURL token action timeout).

Lemma changeRegistration_recorded contestID user (w : list httpRequest) :
  (@changeRegistration lib _ recorded client baseURL token contestID user action timeout w).1
  = w ++ requests [(contestID, user)].
Proof.
  unfold changeRegistration, requests_of, form_of. cbn [fst snd map].
  destruct (buildForm_valid_action contestID user action supported) as [form ->].
  destruct (NewRequest_error _); [by rewrite app_nil_r|].
  cbn [client_Do Sample.platform].
  destruct (answers (length w)) as [resp|e]; [|done].
  by destruct (Body resp).
Qed.

Lemma requests_of_cons p pairs : requests (p :: pairs) = requests [p] ++ requests pairs.
Proof. unfold requests_of. by destruct (NewRequest_error _). Qed.

Lemma run_calls_recorded pairs (w : list httpRequest) :
  (@run_calls lib _ recorded client baseURL token action timeout pairs w).1 = w ++ requests pairs.
Proof.
  revert w. induction pairs as [|[c u] pairs IH]; intros w.
  - unfold requests_of. simpl. destruct (NewRequest_error _); by rewrite app_nil_r.
  - simpl. pose proof (changeRegistration_recorded c u w) as Hc.
    destruct (@changeRegistration lib _ recorded client baseURL token c u action timeout w) as [w1 r].
    specialize (IH w1).
    destruct (@run_calls lib _ recorded client baseURL token action timeout pairs w1) as [w2 rs].
    cbn [fst snd] in *. subst. by rewrite (requests_of_cons (c, u) pairs), app_assoc.
Qed.

Lemma driver_recorded contests users (w : list httpRequest) :
  (@driver lib _ recorded client baseURL token action timeout contests users w).1.1
  = w ++ requests (list_prod contests users).
Proof.
  unfold driver. rewrite contests_loop_run. cbn [world failures logged].
  rewrite <- run_calls_recorded.
  destruct (@run_calls lib _ recorded client baseURL token action timeout (list_prod contests users) w)
    as [w1 outs].
  by destruct (0 <? _)%nat.
Qed.

End RecordedLoop.

(** X15: what [main] sends, in the world that records the requests: nothing
    when it stops with a fatal line; else, for every pair of a contest and a
    user in the order of the loops, one request to the base URL without its
    final [/] followed by the path of the endpoint, with the token in
    [Authorization], the encoded form as the body and the timeout of the
    flag.  The token is the [-token] flag, trimmed, or the token of the
    configuration file when the flag is blank; it is not empty and has no
    white space around it. *)
Theorem main_requests (f : flags) (w w' : list httpRequest) log code :
  @main lib _ recorded f w = (w', log, code) ->
  (exists e, log = [LogFatal e] /\ w' = w) \/
  (exists action users contests cfg,
     (action = actionRegister \/ action = actionUnregister) /\
     parseUsers (usersArg f) = inl users /\
     parseContestIDs (contestsArg f) = inl contests /\
     @loadConfig _ recorded (TrimSpace (configArg f)) w = inl cfg /\
     resolved_token f cfg <> [] /\
     TrimSpace (resolved_token f cfg) = resolved_token f cfg /\
     w' = w ++
       match NewRequest_error (TrimSuffix_slash (baseURLArg f) ++ changeRegistrationPath) with
       | Some _ => []
       | None =>
           map (fun p =>
                  {| reqURL := TrimSuffix_slash (baseURLArg f) ++ changeRegistrationPath;
                     reqHeader := request_headers (resolved_token f cfg);
                     reqBody := Values_Encode (form_of action p);
                     reqTimeout := timeoutArg f |})
               (list_prod contests users)
       end).
Proof.
  destruct (@main_cases lib _ recorded f w) as [[e ->]|(action & users & contests & cfg & Ha & Hu & Hc & Hl & Ht & _ & ->)].
  - intros [= <- <- <-]. left. by exists e.
  - intros Hd. right. exists action, users, contests, cfg.
    repeat split; try done.
    + unfold resolved_token. destruct (TrimSpace (tokenArg f)) eqn:E; simpl.
      * apply TrimSpace_idempotent.
      * rewrite <- E. apply TrimSpace_idempotent.
    + pose proof (driver_recorded {| clientTimeout := timeoutArg f;
                                     InsecureSkipVerify := insecureArg f |}
                    (TrimSuffix_slash (baseURLArg f)) (resolved_token f cfg) action
                    (timeoutArg f) Ha contests users w) as Hr.
      rewrite Hd in Hr. simpl in Hr. exact Hr.
Qed.

End Recorded.

(* ===================================================================== *)
(** * Lists written in the format of the flags are read back *)
(* ===================================================================== *)

Lemma has_prefix_before e s c rest :
  Forall (fun a => a <> c) e -> has_prefix e (s ++ c :: rest) = true -> has_prefix e s = true.
Proof.
  intros He. revert s. induction He as [|a e Ha _ IH]; intros s; [done|].
  destruct s as [|b s]; simpl.
  - intros [Hb _]%andb_true_iff. apply byte_eqb_eq in Hb. done.
  - intros [Hb Hp]%andb_true_iff. rewrite Hb. by apply IH.
Qed.

Lemma find_none_within {A} (f g : A -> bool) (l : list A) :
  Forall (fun x => f x = true -> g x = true) l ->
  List.find g l = None -> List.find f l = None.
Proof.
  induction 1 as [|x l Hx _ IH]; simpl; [done|].
  destruct (f x) eqn:Hf.
  - by rewrite Hx.
  - destruct (g x); [done|apply IH].
Qed.

Lemma fmap_find_none {A B} (h : A -> B) (o : option A) : h <$> o = None -> o = None.
Proof. by destruct o. Qed.

Lemma space_encodings_no_colon :
  Forall (fun e : gostring => Forall (fun a => a <> ":"%char) e) space_encodings.
Proof. unfold space_encodings. simpl. repeat constructor; by intros [=]. Qed.

Lemma leading_space_before s rest :
  leading_space s = None -> leading_space (s ++ ":"%char :: rest) = None.
Proof.
  unfold leading_space. intros Hn%fmap_find_none.
  rewrite (find_none_within (fun e => has_prefix e (s ++ ":"%char :: rest))
             (fun e => has_prefix e s) space_encodings); [done| |done].
  eapply Forall_impl; [apply space_encodings_no_colon|].
  intros e He. by apply has_prefix_before.
Qed.

Lemma trailing_space_before r rest :
  trailing_space r = None -> trailing_space (r ++ ":"%char :: rest) = None.
Proof.
  unfold trailing_space. intros Hn%fmap_find_none.
  rewrite (find_none_within (fun e => has_prefix (rev e) (r ++ ":"%char :: rest))
             (fun e => has_prefix (rev e) r) space_encodings); [done| |done].
  eapply Forall_impl; [apply space_encodings_no_colon|].
  intros e He. apply has_prefix_before.
  apply Forall_forall. intros a Ha. rewrite Forall_forall in He. apply He.
  apply list_elem_of_In. apply list_elem_of_In in Ha. by apply in_rev.
Qed.

Lemma TrimSpace_fixed s :
  TrimSpace s = s <-> leading_space s = None /\ trailing_space (rev s) = None.
Proof.
  split.
  - intros E. split; [rewrite <- E; apply TrimSpace_done_left|rewrite <- E; apply TrimSpace_done].
  - intros [Hl Hr]. unfold TrimSpace, TrimLeftSpace, TrimRightSpace.
    rewrite (trim_left_fuel_id (length s) s Hl).
    rewrite (trim_right_fuel_id (length s) (rev s) Hr). apply rev_involutive.
Qed.

Lemma TrimSpace_token_of login name :
  TrimSpace login = login -> TrimSpace name = name ->
  TrimSpace (login ++ ":"%char :: name) = login ++ ":"%char :: name.
Proof.
  intros [Hl _]%TrimSpace_fixed [_ Hr]%TrimSpace_fixed. apply TrimSpace_fixed. split.
  - by apply leading_space_before.
  - rewrite rev_app_distr. simpl. rewrite <- app_assoc. simpl.
    by apply trailing_space_before.
Qed.

(** X16: users written in the format of the [-users] flag are read back:
    for records as [parseUsers] makes them, the list [login:name] joined by
    [;] is parsed to these records, in their order. *)
Theorem parseUsers_round_trip (users : list userSpec) :
  users <> [] -> Forall parsed_user users ->
  parseUsers (join_with ";" (map (fun u => Login u ++ ":" ++ Name u) users)) = inl users.
Proof.
  intros Hne Hp.
  pose proof (parseUsers_join (map (fun u => (Login u, Name u)) users)) as Hj.
  rewrite !map_map in Hj. cbn [fst snd] in Hj.
  replace (map (fun u => user_of (Login u, Name u)) users) with users in Hj.
  2:{ clear Hj Hne. induction Hp as [|u us (_ & _ & _ & _ & _ & _ & Hid) _ IH]; [done|].
      simpl. rewrite <- IH. f_equal. unfold user_of. simpl. rewrite <- Hid. by destruct u. }
  apply Hj; [by destruct users|]. clear Hj Hne.
  apply Forall_fmap. eapply Forall_impl; [exact Hp|].
  intros u (Hl & Hn & Tl & Tn & Fl & Fn & _). unfold token_of. cbn [fst snd compose].
  repeat split; try done.
  - by destruct (Login u).
  - apply Forall_app. split; [eapply Forall_impl; [exact Fl|]; by intros c [? _]|].
    by constructor.
  - by apply TrimSpace_token_of.
  - eapply Forall_impl; [exact Fl|]. by intros c [_ ?].
Qed.

Lemma plain_no_space c s :
  is_digit c = true \/ c = "-"%char ->
  leading_space (c :: s) = None /\ trailing_space (c :: s) = None.
Proof.
  intros [Hd | ->]; [|split; vm_compute; reflexivity].
  destruct c as [[] [] [] [] [] [] [] []]; try (vm_compute in Hd; discriminate);
    split; vm_compute; reflexivity.
Qed.

Lemma plain_no_separator c : is_digit c = true \/ c = "-"%char -> is_separator c = false.
Proof.
  intros [Hd | ->]; [|done].
  destruct c as [[] [] [] [] [] [] [] []]; try (vm_compute in Hd; discriminate); reflexivity.
Qed.

Lemma plain_token s :
  s <> [] -> Forall (fun c => is_digit c = true \/ c = "-"%char) s -> is_token s.
Proof.
  intros Hne Hp. repeat split; [done| |].
  - eapply Forall_impl; [exact Hp|]. apply plain_no_separator.
  - apply TrimSpace_fixed. split.
    + destruct s as [|c s]; [done|]. inversion Hp as [|? ? Hc Hs]; subst.
      exact (proj1 (plain_no_space c s Hc)).
    + assert (Hr : Forall (fun c => is_digit c = true \/ c = "-"%char) (rev s)).
      { apply Forall_forall. intros c Hc. rewrite Forall_forall in Hp. apply Hp.
        apply list_elem_of_In. apply list_elem_of_In in Hc. by apply in_rev. }
      destruct (rev s) as [|c r] eqn:E.
      * apply (f_equal (@rev ascii)) in E. rewrite rev_involutive in E. done.
      * inversion Hr as [|? ? Hc Hs]; subst. exact (proj2 (plain_no_space c r Hc)).
Qed.

Lemma Itoa_token n : is_token (Itoa n).
Proof.
  assert (Hu : forall d, Forall (fun c => is_digit c = true \/ c = "-"%char) (uint_bytes d)).
  { intros d. eapply Forall_impl; [apply uint_bytes_digits|]. by left. }
  destruct n as [|p|p].
  - apply plain_token; [done|]. constructor; [by left|constructor].
  - rewrite Itoa_pos. apply plain_token; [|apply Hu].
    by destruct (uint_bytes_first p) as (c & s & -> & _).
  - rewrite Itoa_neg. apply plain_token; [done|]. constructor; [by right|apply Hu].
Qed.

Lemma parseContestIDs_loop_Itoa ids acc :
  Forall (fun id => minInt <= id <= maxInt) ids ->
  parseContestIDs_loop (map Itoa ids) acc = inl (acc ++ ids).
Proof.
  intros Hr. revert acc. induction Hr as [|id ids Hid _ IH]; intros acc; simpl.
  - by rewrite app_nil_r.
  - rewrite Atoi_Itoa by done. rewrite IH. by rewrite <- app_assoc.
Qed.

(** X17: contest IDs written in decimal and joined by [;] are read back:
    [parseContestIDs] returns these IDs, in their order, when each is in
    the range of a 64-bit [int]. *)
Theorem parseContestIDs_round_trip (ids : list Z) :
  ids <> [] -> Forall (fun id => minInt <= id <= maxInt) ids ->
  parseContestIDs (join_with ";" (map Itoa ids)) = inl ids.
Proof.
  intros Hne Hr. rewrite parseContestIDs_tokens, splitList_spec_tokens, spec_tokens_join.
  2:{ apply Forall_forall. intros t Ht. apply list_elem_of_In, in_map_iff in Ht as (n & <- & _).
      apply Itoa_token. }
  destruct ids as [|id ids]; [done|]. exact (parseContestIDs_loop_Itoa (id :: ids) [] Hr).
Qed.

(* ===================================================================== *)
(** * The parsers and the messages, stated on the bytes *)
(* ===================================================================== *)

Lemma space_encodings_utf8 : space_encodings = map utf8 space_runes.
Proof. vm_compute. reflexivity. Qed.

Lemma is_separator_spec c : is_separator c = true <-> separator c.
Proof.
  unfold is_separator, separator. rewrite orb_true_iff, !byte_eqb_eq. done.
Qed.

Lemma is_separator_false c : is_separator c = false <-> ~ separator c.
Proof.
  rewrite <- is_separator_spec. destruct (is_separator c); split; congruence.
Qed.

Lemma Forall_no_separator f :
  Forall (fun c => ~ separator c) f <-> Forall (fun c => is_separator c = false) f.
Proof.
  split; intros H; (eapply Forall_impl; [exact H|]); intros c; apply is_separator_false.
Qed.

(** The fields are what [split_on] cuts. *)
Lemma fields_of_split_on raw fs :
  fields_of raw fs <-> fs = split_on is_separator raw.
Proof.
  split.
  - induction 1 as [f Hf|f c rest fs Hf Hc _ IH].
    + apply Forall_no_separator in Hf. by rewrite split_on_no_sep.
    + apply Forall_no_separator in Hf. apply is_separator_spec in Hc.
      rewrite split_on_app_sep by done. by rewrite IH.
  - intros ->. induction raw as [|c raw IH]; simpl.
    + by constructor.
    + destruct (is_separator c) eqn:Ec.
      * apply (fields_more [] c raw); [constructor|by apply is_separator_spec|done].
      * apply is_separator_false in Ec.
        destruct (split_on is_separator raw) as [|h t] eqn:E.
        { by inversion IH. }
        inversion IH; subst.
        -- apply fields_last. by constructor.
        -- eapply (fields_more (c :: _)); [by constructor|done|done].
Qed.

(** ** White space and [TrimSpace] *)

Lemma has_prefix_spec p s : has_prefix p s = true <-> exists rest, s = p ++ rest.
Proof.
  revert s. induction p as [|a p IH]; intros s; simpl.
  - split; [by exists s|done].
  - destruct s as [|b s]; [split; [done|by intros [? [=]]]|].
    rewrite andb_true_iff, byte_eqb_eq, IH. split.
    + intros [-> [rest ->]]. by exists rest.
    + intros [rest [= -> ->]]. split; [done|by exists rest].
Qed.

Lemma find_None_iff {A} (f : A -> bool) (l : list A) :
  List.find f l = None <-> Forall (fun x => f x = false) l.
Proof.
  induction l as [|x l IH]; simpl; [split; [constructor|done]|].
  destruct (f x) eqn:E.
  - split; [done|]. intros H. inversion H; congruence.
  - rewrite IH. split; [by constructor|]. intros H. by inversion H.
Qed.

Lemma in_space_encodings e : In e space_encodings <-> exists r, In r space_runes /\ e = utf8 r.
Proof.
  rewrite space_encodings_utf8, in_map_iff. split; intros (r & H1 & H2); eauto.
Qed.

Lemma leading_space_Some s n :
  leading_space s = Some n ->
  exists r rest, In r space_runes /\ s = utf8 r ++ rest /\ n = length (utf8 r).
Proof.
  unfold leading_space. destruct (List.find _ _) as [e|] eqn:E; [|done].
  intros [= <-]. apply find_some in E as [Hin Hp].
  apply in_space_encodings in Hin as (r & Hr & ->).
  apply has_prefix_spec in Hp as [rest ->]. by exists r, rest.
Qed.

Lemma trailing_space_Some r n :
  trailing_space r = Some n ->
  exists x front, In x space_runes /\ rev r = front ++ utf8 x /\ n = length (utf8 x).
Proof.
  unfold trailing_space. destruct (List.find _ _) as [e|] eqn:E; [|done].
  intros [= <-]. apply find_some in E as [Hin Hp].
  apply in_space_encodings in Hin as (x & Hx & ->).
  apply has_prefix_spec in Hp as [rest ->].
  exists x, (rev rest). by rewrite rev_app_distr, rev_involutive.
Qed.

Lemma leading_space_None s : leading_space s = None <-> ~ starts_with_space s.
Proof.
  unfold leading_space, starts_with_space. split.
  - intros Hn%fmap_find_none (r & rest & Hr & ->).
    apply find_None_iff in Hn. rewrite Forall_forall in Hn.
    assert (Hin : utf8 r ∈ space_encodings)
      by (apply list_elem_of_In, in_space_encodings; eauto).
    specialize (Hn _ Hin). simpl in Hn.
    assert (Hp : has_prefix (utf8 r) (utf8 r ++ rest) = true)
      by (apply has_prefix_spec; eauto).
    congruence.
  - intros Hn. destruct (List.find _ _) as [e|] eqn:E; [|done]. exfalso. apply Hn.
    apply find_some in E as [Hin Hp]. apply in_space_encodings in Hin as (r & Hr & ->).
    apply has_prefix_spec in Hp as [rest ->]. eauto.
Qed.

Lemma trailing_space_None s : trailing_space (rev s) = None <-> ~ ends_with_space s.
Proof.
  unfold trailing_space, ends_with_space. split.
  - intros Hn%fmap_find_none (r & front & Hr & ->).
    apply find_None_iff in Hn. rewrite Forall_forall in Hn.
    assert (Hin : utf8 r ∈ space_encodings)
      by (apply list_elem_of_In, in_space_encodings; eauto).
    specialize (Hn _ Hin). simpl in Hn.
    assert (Hp : has_prefix (rev (utf8 r)) (rev (front ++ utf8 r)) = true)
      by (apply has_prefix_spec; exists (rev front); by rewrite rev_app_distr).
    congruence.
  - intros Hn. destruct (List.find _ _) as [e|] eqn:E; [|done]. exfalso. apply Hn.
    apply find_some in E as [Hin Hp]. apply in_space_encodings in Hin as (r & Hr & ->).
    apply has_prefix_spec in Hp as [rest Hrest].
    exists r, (rev rest). split; [done|].
    apply (f_equal (@rev ascii)) in Hrest. by rewrite rev_involutive, rev_app_distr, rev_involutive in Hrest.
Qed.

Lemma blank_app a b : blank a -> blank b -> blank (a ++ b).
Proof.
  induction 1 as [|r s Hr _ IH]; intros Hb; [done|].
  rewrite <- app_assoc. constructor; [done|by apply IH].
Qed.

Lemma blank_one r : In r space_runes -> blank (utf8 r).
Proof. intros Hr. rewrite <- (app_nil_r (utf8 r)). apply blank_rune; [done|constructor]. Qed.

(** What [TrimSpace] removes on the left is white space. *)
Lemma trim_left_fuel_blank fuel s :
  exists l, blank l /\ s = l ++ trim_left_fuel fuel s.
Proof.
  revert s. induction fuel as [|fuel IH]; intros s; simpl.
  - exists []. split; [constructor|done].
  - destruct (leading_space s) as [n|] eqn:E; [|exists []; split; [constructor|done]].
    apply leading_space_Some in E as (r & rest & Hr & -> & ->).
    rewrite drop_app_length. destruct (IH rest) as (l & Hl & El).
    exists (utf8 r ++ l). split; [by constructor|]. by rewrite <- app_assoc, <- El.
Qed.

(** What it removes on the right as well. *)
Lemma trim_right_fuel_blank fuel r :
  exists b, blank b /\ rev r = rev (trim_right_fuel fuel r) ++ b.
Proof.
  revert r. induction fuel as [|fuel IH]; intros r; simpl.
  - exists []. split; [constructor|by rewrite app_nil_r].
  - destruct (trailing_space r) as [n|] eqn:E;
      [|exists []; split; [constructor|by rewrite app_nil_r]].
    apply trailing_space_Some in E as (x & front & Hx & Er & ->).
    assert (Ed : r = rev (utf8 x) ++ rev front).
    { apply (f_equal (@rev ascii)) in Er. by rewrite rev_involutive, rev_app_distr in Er. }
    replace (drop (length (utf8 x)) r) with (rev front)
      by (rewrite Ed, <- (length_rev (utf8 x)); symmetry; apply drop_app_length).
    destruct (IH (rev front)) as (b & Hb & Eb). rewrite rev_involutive in Eb.
    exists (b ++ utf8 x). split; [apply blank_app; [done|by apply blank_one]|].
    by rewrite Er, app_assoc, <- Eb.
Qed.

(** [TrimSpace] returns the string without the white space around it. *)
Lemma TrimSpace_trimmed s : trimmed_of s (TrimSpace s).
Proof.
  pose proof (TrimSpace_done_left s) as Hl. pose proof (TrimSpace_done s) as Hr.
  apply leading_space_None in Hl. apply trailing_space_None in Hr.
  unfold TrimSpace, TrimLeftSpace, TrimRightSpace in *.
  destruct (trim_left_fuel_blank (length s) s) as (l & Bl & El).
  set (s1 := trim_left_fuel (length s) s) in *.
  destruct (trim_right_fuel_blank (length s1) (rev s1)) as (b & Bb & Eb).
  rewrite rev_involutive in Eb.
  exists l, b. repeat split; try done. by rewrite <- Eb.
Qed.

(** ** There is one trimmed string *)

Lemma has_prefix_app_inv e e0 x :
  has_prefix e (e0 ++ x) = true -> has_prefix e e0 = true \/ has_prefix e0 e = true.
Proof.
  revert e0. induction e as [|a e IH]; intros e0; simpl; [by left|].
  destruct e0 as [|b e0]; simpl; [by right|].
  intros [Hab He]%andb_true_iff. apply byte_eqb_eq in Hab as ->.
  rewrite (proj2 (byte_eqb_eq b b) eq_refl). simpl. by apply IH.
Qed.

(** No encoding of a white-space rune starts another one, or ends it. *)
Lemma space_encodings_prefix_free e e0 :
  In e space_encodings -> In e0 space_encodings ->
  has_prefix e e0 = true -> e = e0.
Proof.
  assert (H : forallb (fun e => forallb (fun e0 => negb (has_prefix e e0) || bytes_eqb e e0)
                                 space_encodings) space_encodings = true)
    by (vm_compute; reflexivity).
  intros He He0 Hp. rewrite forallb_forall in H. specialize (H e He).
  rewrite forallb_forall in H. specialize (H e0 He0). rewrite Hp in H.
  by apply bytes_eqb_eq.
Qed.

Lemma space_encodings_suffix_free e e0 :
  In e space_encodings -> In e0 space_encodings ->
  has_prefix (rev e) (rev e0) = true -> e = e0.
Proof.
  assert (H : forallb (fun e => forallb (fun e0 => negb (has_prefix (rev e) (rev e0))
                                                   || bytes_eqb e e0)
                                 space_encodings) space_encodings = true)
    by (vm_compute; reflexivity).
  intros He He0 Hp. rewrite forallb_forall in H. specialize (H e He).
  rewrite forallb_forall in H. specialize (H e0 He0). rewrite Hp in H.
  by apply bytes_eqb_eq.
Qed.

(** The first byte of an encoding occurs in no encoding after its first
    byte. *)
Lemma space_encodings_first_byte a e h e0 :
  In (a :: e) space_encodings -> In (h :: e0) space_encodings -> ~ In h e.
Proof.
  assert (H : forallb (fun e => forallb (fun e0 => match e0 with
                                                   | h :: _ => negb (existsb (byte_eqb h) (tl e))
                                                   | [] => false
                                                   end)
                                 space_encodings) space_encodings = true)
    by (vm_compute; reflexivity).
  intros He He0 Hin. rewrite forallb_forall in H. specialize (H _ He).
  rewrite forallb_forall in H. specialize (H _ He0). simpl in H.
  apply negb_true_iff in H. assert (existsb (byte_eqb h) e = true); [|congruence].
  apply existsb_exists. exists h. split; [done|by apply byte_eqb_eq].
Qed.

Lemma space_encodings_not_nil : ~ In [] space_encodings.
Proof.
  intros Hin. pose proof space_encodings_length as H. rewrite Forall_forall in H.
  apply list_elem_of_In in Hin. specialize (H _ Hin). simpl in H. lia.
Qed.

Lemma has_prefix_boundary e t r :
  (forall h r', r = h :: r' -> ~ In h e) ->
  has_prefix e (t ++ r) = true -> has_prefix e t = true.
Proof.
  intros Hh. revert t. induction e as [|a e IH]; intros t; [done|].
  destruct t as [|c t]; simpl.
  - destruct r as [|b r']; [done|]. intros [Hab _]%andb_true_iff.
    apply byte_eqb_eq in Hab as ->. exfalso. apply (Hh b r' eq_refl). by left.
  - intros [Hac Hp]%andb_true_iff. rewrite Hac. simpl. apply IH; [|done].
    intros h r' E Hin. apply (Hh h r' E). by right.
Qed.

Lemma blank_first h r' :
  blank (h :: r') -> exists e0, In (h :: e0) space_encodings.
Proof.
  intros Hb. inversion Hb as [|x s Hx Hs E].
  assert (Hin : In (utf8 x) space_encodings) by (apply in_space_encodings; eauto).
  destruct (utf8 x) as [|h' e0] eqn:Eu; [by apply space_encodings_not_nil in Hin|].
  injection E as -> _. eauto.
Qed.

(** White space after a string that does not start with white space does
    not make it start with white space. *)
Lemma leading_space_boundary t r :
  t <> [] -> leading_space t = None -> blank r -> leading_space (t ++ r) = None.
Proof.
  intros Hne Hn Hb. unfold leading_space in *. apply fmap_find_none in Hn.
  rewrite (find_none_within (fun e => has_prefix e (t ++ r)) (fun e => has_prefix e t)
             space_encodings); [done| |done].
  apply Forall_forall. intros e He%list_elem_of_In Hp.
  destruct e as [|a e]; [by apply space_encodings_not_nil in He|].
  destruct t as [|c t]; [done|]. simpl in *.
  apply andb_true_iff in Hp as [Hac Hp]. rewrite Hac. simpl.
  apply (has_prefix_boundary e t r); [|done].
  intros h r' -> Hin. destruct (blank_first h r' Hb) as [e0 He0].
  by apply (space_encodings_first_byte a e h e0).
Qed.

Lemma leading_space_rune x rest :
  In x space_runes -> leading_space (utf8 x ++ rest) = Some (length (utf8 x)).
Proof.
  intros Hx. assert (Hin : In (utf8 x) space_encodings) by (apply in_space_encodings; eauto).
  unfold leading_space. destruct (List.find _ _) as [e|] eqn:E.
  - apply find_some in E as [He Hp]. apply has_prefix_app_inv in Hp as [Hp|Hp].
    + by rewrite (space_encodings_prefix_free e (utf8 x)).
    + by rewrite (space_encodings_prefix_free (utf8 x) e).
  - apply find_None_iff in E. rewrite Forall_forall in E.
    apply list_elem_of_In in Hin. specialize (E _ Hin). simpl in E.
    assert (Hp : has_prefix (utf8 x) (utf8 x ++ rest) = true)
      by (apply has_prefix_spec; eauto).
    congruence.
Qed.

Lemma trailing_space_rune x front :
  In x space_runes ->
  trailing_space (rev (utf8 x) ++ front) = Some (length (utf8 x)).
Proof.
  intros Hx. assert (Hin : In (utf8 x) space_encodings) by (apply in_space_encodings; eauto).
  unfold trailing_space. destruct (List.find _ _) as [e|] eqn:E.
  - apply find_some in E as [He Hp]. apply has_prefix_app_inv in Hp as [Hp|Hp].
    + by rewrite (space_encodings_suffix_free e (utf8 x)).
    + by rewrite (space_encodings_suffix_free (utf8 x) e).
  - apply find_None_iff in E. rewrite Forall_forall in E.
    apply list_elem_of_In in Hin. specialize (E _ Hin). simpl in E.
    assert (Hp : has_prefix (rev (utf8 x)) (rev (utf8 x) ++ front) = true)
      by (apply has_prefix_spec; eauto).
    congruence.
Qed.

Lemma trim_left_fuel_white l rest fuel :
  blank l -> leading_space rest = None -> (length l <= fuel)%nat ->
  trim_left_fuel fuel (l ++ rest) = rest.
Proof.
  intros Hb Hn. revert fuel. induction Hb as [|x s Hx Hs IH]; intros fuel Hf.
  - by apply trim_left_fuel_id.
  - assert (Hin : In (utf8 x) space_encodings) by (apply in_space_encodings; eauto).
    pose proof space_encodings_length as Hl. rewrite Forall_forall in Hl.
    apply list_elem_of_In in Hin. specialize (Hl _ Hin). simpl in Hl.
    rewrite length_app in Hf. destruct fuel as [|fuel]; [lia|]. simpl.
    rewrite <- app_assoc, leading_space_rune by done. rewrite drop_app_length.
    apply IH. lia.
Qed.

(** White space, from its last rune. *)
Lemma blank_last s :
  blank s -> s = [] \/ exists s' x, s = s' ++ utf8 x /\ blank s' /\ In x space_runes.
Proof.
  induction 1 as [|x s Hx Hs IH]; [by left|]. right.
  destruct IH as [->|(s' & y & -> & Hs' & Hy)].
  - exists [], x. rewrite app_nil_r. repeat split; [constructor|done].
  - exists (utf8 x ++ s'), y. rewrite app_assoc. repeat split; [by constructor|done].
Qed.

Lemma trim_right_fuel_white t b fuel :
  blank b -> trailing_space (rev t) = None -> (length b <= fuel)%nat ->
  trim_right_fuel fuel (rev (t ++ b)) = rev t.
Proof.
  revert b. induction fuel as [|fuel IH]; intros b Hb Hn Hf.
  - destruct b; [|simpl in Hf; lia]. by rewrite app_nil_r.
  - destruct (blank_last b Hb) as [->|(b' & x & -> & Hb' & Hx)].
    + rewrite app_nil_r. by apply trim_right_fuel_id.
    + assert (Hin : In (utf8 x) space_encodings) by (apply in_space_encodings; eauto).
      pose proof space_encodings_length as Hl. rewrite Forall_forall in Hl.
      apply list_elem_of_In in Hin. specialize (Hl _ Hin). simpl in Hl.
      rewrite length_app in Hf. simpl.
      rewrite app_assoc, rev_app_distr, trailing_space_rune by done.
      rewrite <- (length_rev (utf8 x)), drop_app_length. apply IH; [done|done|lia].
Qed.

Lemma TrimSpace_blank s : blank s -> TrimSpace s = [].
Proof.
  intros Hb. unfold TrimSpace, TrimLeftSpace.
  rewrite <- (app_nil_r s) at 2. by rewrite trim_left_fuel_white.
Qed.

(** The string without the white space around it is what [TrimSpace]
    returns. *)
Lemma trimmed_of_TrimSpace s t : trimmed_of s t <-> t = TrimSpace s.
Proof.
  split; [|intros ->; apply TrimSpace_trimmed].
  intros (l & r & -> & Hl & Hr & Hs & He).
  apply leading_space_None in Hs. apply trailing_space_None in He.
  destruct t as [|c t].
  - simpl. symmetry. apply TrimSpace_blank. by apply blank_app.
  - unfold TrimSpace, TrimLeftSpace.
    rewrite trim_left_fuel_white;
      [|done|by apply leading_space_boundary|rewrite length_app; lia].
    unfold TrimRightSpace. rewrite trim_right_fuel_white;
      [by rewrite rev_involutive|done|done|rewrite length_app; lia].
Qed.

(** The tokens are what [splitList] returns. *)
Lemma kept_of_filter fs ts :
  kept_of fs ts <-> ts = filter (fun t => t <> []) (map TrimSpace fs).
Proof.
  split.
  - induction 1 as [|f t fs ts Ht Hne _ IH|f fs ts Ht _ IH]; [done| |].
    + apply trimmed_of_TrimSpace in Ht as ->. rewrite map_cons.
      rewrite filter_cons_True by done. by rewrite IH.
    + apply trimmed_of_TrimSpace in Ht. rewrite map_cons, <- Ht.
      rewrite filter_cons_False by (intros H; by apply H). done.
  - intros ->. induction fs as [|f fs IH]; [constructor|]. rewrite map_cons.
    destruct (TrimSpace f) as [|c t] eqn:E.
    + rewrite filter_cons_False by (intros H; by apply H).
      apply kept_empty; [|done]. by apply trimmed_of_TrimSpace.
    + rewrite filter_cons_True by done.
      apply kept_token; [by apply trimmed_of_TrimSpace|done|done].
Qed.

Lemma tokens_of_splitList raw ts : tokens_of raw ts <-> ts = splitList raw.
Proof.
  rewrite splitList_spec_tokens. unfold tokens_of, spec_tokens. split.
  - intros (fs & Hf%fields_of_split_on & Hk%kept_of_filter). by subst.
  - intros ->. exists (split_on is_separator raw).
    split; [by apply fields_of_split_on|by apply kept_of_filter].
Qed.

(** ** Decimal numbers, [strconv.Atoi] and [strconv.Itoa] *)

Lemma digit_place c d :
  nth_error digits10 d = Some c <->
  is_digit c = true /\ byte_val c - byte_val "0" = Z.of_nat d.
Proof.
  split.
  - do 10 (destruct d as [|d]; [intros [= <-]; split; reflexivity|]).
    simpl. by destruct d.
  - intros [Hd Hv].
    destruct c as [[] [] [] [] [] [] [] []]; try (vm_compute in Hd; discriminate);
      match type of Hv with
      | ?l = Z.of_nat d =>
          let k := eval vm_compute in l in
          change l with k in Hv; assert (d = Z.to_nat k) as -> by lia
      end; reflexivity.
Qed.

Lemma decimal_nat_nonneg s n : decimal_nat s n -> 0 <= n.
Proof. induction 1; lia. Qed.

Lemma decimal_nat_digits s n : decimal_nat s n -> Forall (fun c => is_digit c = true) s.
Proof.
  induction 1 as [c d Hd|s n c d _ IH Hd]; apply digit_place in Hd as [Hd _].
  - by repeat constructor.
  - apply Forall_app. split; [done|by repeat constructor].
Qed.

Lemma decimal_nat_not_nil n : ~ decimal_nat [] n.
Proof. intros H. inversion H as [|s m c d _ _ E]. by destruct s. Qed.

Lemma parse_digits_snoc acc s c :
  parse_digits acc (s ++ [c])
  = match parse_digits acc s with
    | inl v =>
        if is_digit c then
          if maxUint64 <? v * 10 + (byte_val c - byte_val "0") then inr ErrRange
          else inl (v * 10 + (byte_val c - byte_val "0"))
        else inr ErrSyntax
    | inr e => inr e
    end.
Proof.
  revert acc. induction s as [|a s IH]; intros acc; simpl.
  - destruct (is_digit c); [|done]. by destruct (maxUint64 <? _).
  - destruct (is_digit a); [|done]. destruct (maxUint64 <? _); [done|]. apply IH.
Qed.

(** [strconv.ParseUint] reads the number the digits write, when it is not
    above [maxUint64]. *)
Lemma parse_digits_decimal s v :
  s <> [] ->
  parse_digits 0 s = inl v <-> decimal_nat s v /\ v <= maxUint64.
Proof.
  revert v. induction s as [|c s IH] using rev_ind; intros v Hne; [done|]. clear Hne.
  rewrite parse_digits_snoc. destruct s as [|a s'].
  - cbn [app parse_digits]. split.
    + destruct (is_digit c) eqn:Hc; [|done].
      destruct (maxUint64 <? _) eqn:Hm; [done|]. intros [= <-]. apply Z.ltb_ge in Hm.
      assert (Hp : exists d, nth_error digits10 d = Some c /\
                             byte_val c - byte_val "0" = Z.of_nat d).
      { exists (Z.to_nat (byte_val c - byte_val "0")).
        assert (0 <= byte_val c - byte_val "0")
          by (unfold is_digit in Hc; apply andb_true_iff in Hc as [H0 _]; lia).
        rewrite digit_place. split; [split; [done|lia]|lia]. }
      destruct Hp as (d & Hd & Ev). rewrite Ev in *. split; [by constructor|done].
    + intros [Hd Hm]. inversion Hd as [c' d Hc E|s n c' d Hs Hc E]; subst.
      * apply digit_place in Hc as [-> ->].
        replace (0 * 10 + Z.of_nat d) with (Z.of_nat d) by lia.
        by replace (maxUint64 <? Z.of_nat d) with false by (symmetry; apply Z.ltb_ge; lia).
      * destruct s; [by apply decimal_nat_not_nil in Hs|by destruct s].
  - pose proof (fun v => proj1 (IH v ltac:(discriminate))) as IH1.
    pose proof (fun v => proj2 (IH v ltac:(discriminate))) as IH2. clear IH. split.
    + destruct (parse_digits 0 (a :: s')) as [v0|e] eqn:Ep; [|done].
      destruct (IH1 v0 eq_refl) as [Hd0 Hm0].
      destruct (is_digit c) eqn:Hc; [|done].
      destruct (maxUint64 <? _) eqn:Hm; [done|]. intros [= <-]. apply Z.ltb_ge in Hm.
      split; [|done].
      assert (0 <= byte_val c - byte_val "0")
        by (unfold is_digit in Hc; apply andb_true_iff in Hc as [H0 _]; lia).
      replace (v0 * 10 + (byte_val c - byte_val "0"))
        with (10 * v0 + Z.of_nat (Z.to_nat (byte_val c - byte_val "0"))) by lia.
      constructor; [done|]. rewrite digit_place. split; [done|lia].
    + intros [Hd Hm]. inversion Hd as [c' d Hc E|s n c' d Hs Hc E].
      * by destruct s'.
      * change (a :: s' ++ [c]) with ((a :: s') ++ [c]) in E.
        apply app_inj_tail in E as [-> ->]. subst v.
        pose proof (decimal_nat_nonneg _ _ Hs) as Hn.
        apply digit_place in Hc as [Hc Hv].
        rewrite (IH2 n) by (split; [done|lia]).
        rewrite Hc, Hv.
        replace (maxUint64 <? n * 10 + Z.of_nat d) with false
          by (symmetry; apply Z.ltb_ge; lia).
        f_equal. lia.
Qed.

Lemma decimal_nat_first c s n : decimal_nat (c :: s) n -> is_digit c = true.
Proof. intros H%decimal_nat_digits. by inversion H. Qed.

(** [strconv.Atoi] reads the base-10 integers, and nothing else. *)
Lemma Atoi_base10 s n : Atoi s = inl n <-> base10_int s n.
Proof.
  unfold base10_int. destruct s as [|c s].
  - simpl. split; [done|]. intros [_ [H|[(d & [=] & _)|(d & m & [=] & _)]]].
    by apply decimal_nat_not_nil in H.
  - unfold Atoi. destruct (byte_eqb c "-") eqn:Em; [|destruct (byte_eqb c "+") eqn:Ep].
    + apply byte_eqb_eq in Em as ->. cbn [orb negb andb].
      destruct s as [|a s'].
      * split; [done|]. intros [_ [H|[(d & [=] & _)|(d & m & [= <-] & H & _)]]].
        -- by apply decimal_nat_first in H.
        -- by apply decimal_nat_not_nil in H.
      * split.
        -- destruct (parse_digits 0 (a :: s')) as [un|e] eqn:E; [|done].
           apply parse_digits_decimal in E as [Hd Hm]; [|done].
           pose proof (decimal_nat_nonneg _ _ Hd).
           destruct (- minInt <? un) eqn:Er; [done|]. intros [= <-].
           apply Z.ltb_ge in Er. unfold minInt in Er.
           split; [lia|]. right. right. by exists (a :: s'), un.
        -- intros [Hr [H|[(d & [=] & _)|(d & m & [= <-] & Hd & ->)]]].
           ++ by apply decimal_nat_first in H.
           ++ pose proof (decimal_nat_nonneg _ _ Hd).
              rewrite (proj2 (parse_digits_decimal (a :: s') m ltac:(done)))
                by (split; [done|unfold maxUint64; lia]).
              by replace (- minInt <? m) with false
                by (symmetry; apply Z.ltb_ge; unfold minInt; lia).
    + apply byte_eqb_eq in Ep as ->. cbn [orb negb andb].
      destruct s as [|a s'].
      * split; [done|]. intros [_ [H|[(d & [= <-] & H)|(d & m & [=] & _)]]].
        -- by apply decimal_nat_first in H.
        -- by apply decimal_nat_not_nil in H.
      * split.
        -- destruct (parse_digits 0 (a :: s')) as [un|e] eqn:E; [|done].
           apply parse_digits_decimal in E as [Hd Hm]; [|done].
           pose proof (decimal_nat_nonneg _ _ Hd).
           destruct (maxInt <? un) eqn:Er; [done|]. intros [= <-].
           apply Z.ltb_ge in Er. unfold maxInt in Er.
           split; [lia|]. right. left. by exists (a :: s').
        -- intros [Hr [H|[(d & [= <-] & Hd)|(d & m & [=] & _)]]].
           ++ by apply decimal_nat_first in H.
           ++ pose proof (decimal_nat_nonneg _ _ Hd).
              rewrite (proj2 (parse_digits_decimal (a :: s') n ltac:(done)))
                by (split; [done|unfold maxUint64; lia]).
              by replace (maxInt <? n) with false
                by (symmetry; apply Z.ltb_ge; unfold maxInt; lia).
    + cbn [orb negb andb]. split.
      * destruct (parse_digits 0 (c :: s)) as [un|e] eqn:E; [|done].
        apply parse_digits_decimal in E as [Hd Hm]; [|done].
        pose proof (decimal_nat_nonneg _ _ Hd).
        destruct (maxInt <? un) eqn:Er; [done|]. intros [= <-].
        apply Z.ltb_ge in Er. unfold maxInt in Er. split; [lia|]. by left.
      * intros [Hr [Hd|[(d & [= -> _] & _)|(d & m & [= -> _] & _)]]]; [|done|done].
        pose proof (decimal_nat_nonneg _ _ Hd).
        rewrite (proj2 (parse_digits_decimal (c :: s) n ltac:(done)))
          by (split; [done|unfold maxUint64; lia]).
        by replace (maxInt <? n) with false
          by (symmetry; apply Z.ltb_ge; unfold maxInt; lia).
Qed.

Lemma to_uint_no_zero_first p d : Pos.to_uint p <> Decimal.D0 d.
Proof.
  intros E. pose proof (DecimalPos.Unsigned.to_of (Pos.to_uint p)) as H.
  rewrite DecimalPos.Unsigned.of_to in H. simpl in H.
  destruct (Decimal.nzhead (Pos.to_uint p)) eqn:En.
  all: try (rewrite DecimalFacts.unorm_nzhead in H by (rewrite En; discriminate);
            rewrite En in H; rewrite E in H; discriminate).
  - apply DecimalFacts.unorm_0 in En. rewrite En in H.
    by apply DecimalPos.Unsigned.to_uint_nonzero in H.
  - rewrite E in En. by apply DecimalFacts.nzhead_nonzero in En.
Qed.

Lemma uint_bytes_plain p :
  head (uint_bytes (Pos.to_uint p)) <> Some "0"%char.
Proof.
  pose proof (to_uint_no_zero_first p) as H.
  destruct (Pos.to_uint p); unfold uint_bytes; simpl; try discriminate.
  by destruct (H u).
Qed.

(** [strconv.Itoa] writes the decimal text of an [int]. *)
Lemma Itoa_decimal_text n : minInt <= n <= maxInt -> decimal_text (Itoa n) n.
Proof.
  intros [Hlo Hhi]. unfold minInt, maxInt in *. unfold decimal_text.
  destruct n as [|p|p].
  - left. split; [done|]. split; [|by left]. apply (decimal_digit "0" 0). reflexivity.
  - left. split; [done|]. rewrite Itoa_pos.
    destruct (uint_bytes_first p) as (c & s & E & _).
    split; [|right; apply uint_bytes_plain].
    apply parse_digits_decimal; [by rewrite E|].
    apply parse_digits_to_uint. unfold maxUint64. lia.
  - right. split; [done|]. rewrite Itoa_neg. eexists. split; [reflexivity|].
    destruct (uint_bytes_first p) as (c & s & E & _).
    split; [|right; apply uint_bytes_plain].
    apply parse_digits_decimal; [by rewrite E|].
    apply parse_digits_to_uint. unfold maxUint64. lia.
Qed.

(** ** The parsers, in these words *)

Lemma id_and_name_parts item idPart namePart :
  id_and_name item idPart namePart <-> token_parts item = Some (idPart, namePart).
Proof.
  unfold id_and_name, token_parts. split.
  - intros (p0 & p1 & -> & Hc & H0%trimmed_of_TrimSpace & H1%trimmed_of_TrimSpace).
    rewrite (proj2 (cut_byte_Some ":" (p0 ++ ":"%char :: p1) p0 p1)); [by subst|].
    split; [done|]. apply Forall_forall. intros c Hin%list_elem_of_In ->. done.
  - destruct (cut_byte ":" item) as [[p0 p1]|] eqn:Ec; [|done]. intros [= <- <-].
    apply cut_byte_Some in Ec as [-> Hc]. exists p0, p1.
    repeat split; try by apply trimmed_of_TrimSpace.
    intros Hin%list_elem_of_In. rewrite Forall_forall in Hc. by apply (Hc _ Hin).
Qed.

Lemma record_of_words item u :
  record_of item u ->
  id_and_name item (Login u) (Name u) /\
  (forall k, ID u = Some k <-> base10_int (Login u) k) /\
  (ID u = None <-> ~ exists k, base10_int (Login u) k).
Proof.
  intros (i & n & Hp & <- & <- & Hid & Hno). split; [by apply id_and_name_parts|]. split.
  - intros k. by rewrite Hid, Atoi_base10.
  - rewrite Hno. split.
    + intros [err He] [k Hk%Atoi_base10]. congruence.
    + intros Hn. destruct (Atoi (Login u)) as [k|err] eqn:E; [|eauto].
      destruct Hn. exists k. by apply Atoi_base10.
Qed.

(** C4: for an input whose tokens (the fields between [;] and [,], without
    the white space around them, the empty ones left out) are not none and
    all of the form [identifier:name], with an identifier and a name that
    are not empty once trimmed, [parseUsers] returns one record for each
    token, in the order of the input: [Login] is the identifier and [Name]
    the name, both without the white space around them, and [ID] holds an
    integer exactly when the identifier is a base-10 integer, that integer,
    and is absent otherwise.  Tokens, trimming and base-10 integers are
    stated on the bytes, not by the functions that embed the program. *)
Theorem parseUsers_valid (raw : gostring) (tokens : list gostring) :
  tokens_of raw tokens ->
  tokens <> [] ->
  Forall (fun item => exists idPart namePart,
            id_and_name item idPart namePart /\ idPart <> [] /\ namePart <> []) tokens ->
  exists users,
    parseUsers raw = inl users /\
    Forall2 (fun item u =>
               id_and_name item (Login u) (Name u) /\
               (forall k, ID u = Some k <-> base10_int (Login u) k) /\
               (ID u = None <-> ~ exists k, base10_int (Login u) k))
            tokens users.
Proof.
  intros Ht Hne Hv. apply tokens_of_splitList in Ht. rewrite splitList_spec_tokens in Ht.
  subst tokens.
  destruct (parseUsers_tokens_valid raw Hne) as (users & Hp & HF).
  - eapply Forall_impl; [exact Hv|]. intros item (i & n & Hin & Hi & Hn).
    exists i, n. split; [by apply id_and_name_parts|done].
  - exists users. split; [done|].
    eapply Forall2_impl; [exact HF|]. intros item u. apply record_of_words.
Qed.

(** C6: every input has its tokens, the fields between [;] and [,] without
    the white space around them, the empty ones left out; white space
    separates nothing, so an input without [;] and [,] that is not white
    space alone is one token.  [parseContestIDs] returns the integers of the
    tokens, in their order, when every token is a base-10 integer; it fails
    with the first token that is none in the error, when there is one; and
    it fails on an input without tokens.  Tokens, trimming and base-10
    integers are stated on the bytes, not by the functions that embed the
    program. *)
Theorem parseContestIDs_spec (raw : gostring) :
  exists tokens,
    tokens_of raw tokens /\
    (forall tokens', tokens_of raw tokens' -> tokens' = tokens) /\
    (Forall (fun c => ~ separator c) raw ->
     forall t, trimmed_of raw t -> t <> [] -> tokens = [t]) /\
    (tokens = [] -> parseContestIDs raw = inr ErrContestListEmpty) /\
    (forall ids, tokens <> [] -> Forall2 base10_int tokens ids ->
       parseContestIDs raw = inl ids) /\
    (forall good item rest,
       tokens = good ++ item :: rest ->
       Forall (fun i => exists id, base10_int i id) good ->
       ~ (exists id, base10_int item id) ->
       exists err, parseContestIDs raw = inr (ErrInvalidContestID item err)).
Proof.
  destruct (parseContestIDs_cases raw) as (_ & _ & Hone & Hnil & Hok & Hbad).
  exists (splitList raw). split; [by apply tokens_of_splitList|].
  split; [intros ts Hts; by apply tokens_of_splitList|].
  split; [|split; [exact Hnil|split]].
  - intros Hs t Ht%trimmed_of_TrimSpace Hne. subst t.
    apply Hone; [by apply Forall_no_separator|done].
  - intros ids Hne HF. apply Hok; [done|].
    eapply Forall2_impl; [exact HF|]. intros item id. apply Atoi_base10.
  - intros good item rest E Hg Hi.
    destruct (Atoi item) as [id|err] eqn:Ea.
    + destruct Hi. exists id. by apply Atoi_base10.
    + exists err. apply (Hbad good item rest err E); [|done].
      eapply Forall_impl; [exact Hg|]. intros i [id Hid]. exists id. by apply Atoi_base10.
Qed.

(** ** The number of the error of a reply *)

Lemma decode_int_range struct field v cur x e :
  decode_int struct field v cur = (x, e) ->
  minInt <= cur <= maxInt -> minInt <= x <= maxInt.
Proof.
  unfold decode_int, mismatch. destruct v; try (intros [= <- _]; done).
  destruct (Atoi _) as [n|err] eqn:E; intros [= <- _]; [|done].
  intros _. by apply Atoi_range in E.
Qed.

Ltac rest_of_members f IH :=
  match goal with
  | |- context [f ?c] =>
      let E := fresh "E" in
      destruct (f c) as [? ?] eqn:E; intros [= <- _] ?; apply (IH _ _ _ E); simpl
  end.

Lemma decode_replyError_members_range path ms cur r e :
  decode_replyError_members path ms cur = (r, e) ->
  minInt <= Num cur <= maxInt -> minInt <= Num r <= maxInt.
Proof.
  revert cur r e. induction ms as [|[key v] ms IH]; intros cur r e;
    cbn [decode_replyError_members].
  - by intros [= <- _].
  - destruct (field_matches key "message").
    { destruct (decode_string _ _ _ _) as [x ex].
      by rest_of_members (decode_replyError_members path ms) IH. }
    destruct (field_matches key "num").
    { destruct (decode_int _ _ _ _) as [x ex] eqn:Ei.
      rest_of_members (decode_replyError_members path ms) IH.
      by apply (decode_int_range _ _ _ _ _ _ Ei). }
    destruct (field_matches key "symbol").
    { destruct (decode_string _ _ _ _) as [x ex].
      by rest_of_members (decode_replyError_members path ms) IH. }
    destruct (field_matches key "log_id").
    { destruct (decode_string _ _ _ _) as [x ex].
      by rest_of_members (decode_replyError_members path ms) IH. }
    by rest_of_members (decode_replyError_members path ms) IH.
Qed.

Lemma decode_replyError_ptr_range struct field v cur x e :
  decode_replyError_ptr struct field v cur = (x, e) ->
  (forall c, cur = Some c -> minInt <= Num c <= maxInt) ->
  forall r, x = Some r -> minInt <= Num r <= maxInt.
Proof.
  unfold decode_replyError_ptr, mismatch. intros H Hc.
  assert (Ht : minInt <= Num (match cur with Some e => e | None => zero_replyError end)
               <= maxInt).
  { destruct cur as [c|]; [by apply Hc|]. simpl. unfold minInt, maxInt. lia. }
  destruct v; cbn beta iota in H.
  1: { injection H as <- _. by intros r. }
  1-4: injection H as <- _; intros r [= <-]; exact Ht.
  destruct (decode_replyError_members _ _ _) as [r' e'] eqn:E. injection H as <- _.
  intros r [= <-]. by apply (decode_replyError_members_range _ _ _ _ _ E).
Qed.

Lemma decode_reply_members_range ms cur r e :
  decode_reply_members ms cur = (r, e) ->
  (forall c, Error cur = Some c -> minInt <= Num c <= maxInt) ->
  forall x, Error r = Some x -> minInt <= Num x <= maxInt.
Proof.
  revert cur r e. induction ms as [|[key v] ms IH]; intros cur r e;
    cbn [decode_reply_members].
  - by intros [= <- _].
  - destruct (field_matches key "ok").
    { destruct (decode_bool _ _ _ _) as [x ex].
      by rest_of_members (decode_reply_members ms) IH. }
    destruct (field_matches key "result").
    { destruct (decode_bool _ _ _ _) as [x ex].
      by rest_of_members (decode_reply_members ms) IH. }
    destruct (field_matches key "error").
    { destruct (decode_replyError_ptr _ _ _ _) as [x ex] eqn:Ep.
      rest_of_members (decode_reply_members ms) IH.
      by apply (decode_replyError_ptr_range _ _ _ _ _ _ Ep). }
    destruct (field_matches key "action").
    { destruct (decode_string _ _ _ _) as [x ex].
      by rest_of_members (decode_reply_members ms) IH. }
    by rest_of_members (decode_reply_members ms) IH.
Qed.

(** The number of the error of a decoded reply is an [int]. *)
Lemma Unmarshal_reply_range body reply e x :
  Unmarshal_reply body zero_reply = (reply, e) ->
  Error reply = Some x -> minInt <= Num x <= maxInt.
Proof.
  unfold Unmarshal_reply. destruct (scan body) as [v rest|err]; [|by intros [= <- _]].
  destruct (skip_space rest); [|by intros [= <- _]].
  unfold decode_reply, mismatch. destruct v; try (by intros [= <- _]).
  intros H. by apply (decode_reply_members_range _ _ _ _ H).
Qed.

Section ReplyStatement.

Context {lib : GoLib} {World : Type} {plat : Platform World}.

Variables (client : httpClient) (baseURL token : gostring) (contestID : Z)
          (user : userSpec) (action : actionType) (timeout : Z).

(** C7: when the response decodes to a reply, [changeRegistration] succeeds
    exactly when [OK] and [Result] are both true.  Otherwise it fails: when
    the reply has an error, with the message made of its [Message], of its
    [Num] in decimal (no [+], no zero before the first digit, [-] before a
    negative number), of its [Symbol] and of its [LogID]; when it has none,
    with the message that the change was not acknowledged. *)
Theorem changeRegistration_reply (w w' : World) resp body reply :
  answered client baseURL token contestID user action timeout w w' resp body ->
  200 <= StatusCode resp < 300 ->
  ContentType resp = [] \/ isJSONContentType (ContentType resp) = true ->
  Unmarshal_reply body zero_reply = (reply, None) ->
  let result := changeRegistration client baseURL token contestID user action timeout w in
  (result = (w', None) <-> OK reply = true /\ Result reply = true) /\
  (forall e, Error reply = Some e -> ~ (OK reply = true /\ Result reply = true) ->
     exists code,
       decimal_text code (Num e) /\
       result = (w', Some (ErrServerError e)) /\
       callErrorText (ErrServerError e)
       = Some ("server error: " ++ Message e ++ " (code " ++ code
                 ++ ", symbol " ++ Symbol e ++ ", log " ++ LogID e ++ ")")) /\
  (Error reply = None -> ~ (OK reply = true /\ Result reply = true) ->
     result = (w', Some ErrNotAcknowledged) /\
     callErrorText ErrNotAcknowledged
     = Some ("registration change was not acknowledged" : gostring)).
Proof.
  intros Ha Hs Hc Hu.
  destruct (changeRegistration_decoded client baseURL token contestID user action timeout
              w w' resp body reply Ha Hs Hc Hu) as (Hok & Herr & Hnone).
  split; [exact Hok|]. split; [|exact Hnone].
  intros e He Hn. destruct (Herr e He Hn) as [Hr Ht].
  exists (Itoa (Num e)). split; [|by split].
  apply Itoa_decimal_text. by apply (Unmarshal_reply_range body reply None e).
Qed.

End ReplyStatement.

(* ===================================================================== *)
(** * The statements at concrete inputs *)
(* ===================================================================== *)

Ltac answered_by_sample :=
  eexists; split; [reflexivity|]; split; [reflexivity|]; split; reflexivity.

(** C3 at a response with the status 500 and a body of 201 bytes. *)
Lemma changeRegistration_non2xx_whole_body_witness :
  exists w',
    Sample.call (Sample.response 500 "500 Internal Server Error" "text/plain" Sample.long_body)
    = (w', Some (ErrUnexpectedStatus "500 Internal Server Error" Sample.long_body)) /\
    callErrorText (ErrUnexpectedStatus "500 Internal Server Error" Sample.long_body)
    = Some ("unexpected status " ++ "500 Internal Server Error" ++ ": " ++ Sample.long_body).
Proof.
  eexists.
  apply (@changeRegistration_non2xx_whole_body Sample.lib _
           (Sample.server (Sample.response 500 "500 Internal Server Error" "text/plain"
                             Sample.long_body))
           Sample.client "http://127.0.0.1" "token" 1 Sample.user actionRegister 1000000000
           [] _ (Sample.response 500 "500 Internal Server Error" "text/plain" Sample.long_body)
           Sample.long_body).
  - answered_by_sample.
  - right. simpl. lia.
Defined.

(** C1 at the page of the test: an HTML page with the reply in a [pre]
    element. *)
Lemma changeRegistration_non_json_content_type_witness :
  exists w',
    Sample.call (Sample.response 200 "200 OK" "text/html; charset=utf-8" Sample.html_page)
    = (w', Some (ErrUnexpectedContentType "text/html; charset=utf-8" "200 OK"
                   Sample.html_page)).
Proof.
  eexists.
  apply (@changeRegistration_non_json_content_type Sample.lib _
           (Sample.server (Sample.response 200 "200 OK" "text/html; charset=utf-8"
                             Sample.html_page))
           Sample.client "http://127.0.0.1" "token" 1 Sample.user actionRegister 1000000000
           [] _ (Sample.response 200 "200 OK" "text/html; charset=utf-8" Sample.html_page)
           Sample.html_page).
  - answered_by_sample.
  - simpl. lia.
  - discriminate.
  - vm_compute. reflexivity.
Defined.

(** C2 at the response of the test. *)
Lemma changeRegistration_result_string_witness :
  exists e text,
    Sample.call (Sample.response 200 "200 OK" "application/json"
                   (jsontext "{'ok':false,'result':'contest is closed'}"))
    = ([buildRequest "http://127.0.0.1" "token"
          (match buildForm 1 Sample.user actionRegister with
           | inl form => form
           | inr _ => ∅
           end) 1000000000], Some e) /\
    callErrorText e = Some text /\
    text = ("decoding response: json: cannot unmarshal string into Go struct field changeRegistrationReply.result of type bool" : gostring) /\
    Contains text "contest is closed" = false.
Proof.
  apply (@changeRegistration_result_string Sample.lib _
           (Sample.server (Sample.response 200 "200 OK" "application/json"
                             (jsontext "{'ok':false,'result':'contest is closed'}")))
           Sample.client "http://127.0.0.1" "token" 1 Sample.user actionRegister 1000000000
           [] _ (Sample.response 200 "200 OK" "application/json"
                   (jsontext "{'ok':false,'result':'contest is closed'}"))
           (jsontext "{'ok':false,'result':'contest is closed'}")).
  - answered_by_sample.
  - simpl. lia.
  - right. vm_compute. reflexivity.
  - exists []. split; vm_compute; reflexivity.
Defined.

(** C5 as stated fails: a token with two [:] is accepted, the second [:] being
    part of the name. *)
Lemma parseUsers_accepts_two_colons :
  parseUsers "a:b:c" = inl [ {| ID := None; Login := "a"; Name := "b:c" |} ] /\
  spec_tokens "a:b:c" = ["a:b:c" : gostring] /\
  colon_count "a:b:c" <> 1%nat.
Proof. repeat split; vm_compute; congruence. Qed.

(** C5 at a token without [:]. *)
Lemma parseUsers_rejects_witness :
  exists e, parseUsers "alice" = inr e.
Proof.
  apply (proj1 (parseUsers_rejects "alice")).
  right. assert (E : spec_tokens "alice" = ["alice" : gostring]) by (vm_compute; reflexivity).
  rewrite E. apply Exists_cons_hd. intros (i & n & Hp & _). vm_compute in Hp. discriminate.
Defined.


(** C10 as stated fails: a file that holds the one object with the one field
    [token], a number, is in none of the cases listed, and [loadConfig]
    fails. *)
Lemma loadConfig_numeric_token :
  (exists e, @loadConfig _ (Sample.platform (fun _ => inr []) Sample.numeric_token)
               "config.json" [] = inr e) /\
  ~ listed_failure
      (@os_Open _ (Sample.platform (fun _ => inr []) Sample.numeric_token)
         "config.json" []).
Proof.
  split; [eexists; vm_compute; reflexivity|].
  assert (Es : scan (jsontext "{'token':5}")
               = POk (JObject [("token" : gostring, JNumber ("5" : gostring))]) [])
    by (vm_compute; reflexivity).
  change (@os_Open _ (Sample.platform (fun _ => inr []) Sample.numeric_token)
            "config.json" [])
    with (inl {| fileData := jsontext "{'token':5}"; readError := None |}
          : fileStream + gostring).
  unfold listed_failure. cbn [fileData readError].
  intros [Hf|[Hf|[[e Hf]|[(ms & r & Hf & Hex)|(v & r & Hf & Hne)]]]].
  - done.
  - vm_compute in Hf. discriminate.
  - rewrite Es in Hf. discriminate.
  - rewrite Es in Hf. injection Hf as <- <-.
    apply Exists_cons in Hex as [Hex|Hex]; [vm_compute in Hex; discriminate|].
    by apply Exists_nil in Hex.
  - rewrite Es in Hf. injection Hf as <- <-. by apply Hne.
Qed.

(** C10 at a file with a token. *)
Lemma loadConfig_spec_witness :
  @loadConfig _ (Sample.platform (fun _ => inr []) Sample.good_config) "config.json" []
  = inl {| Token := "secret" |}.
Proof.
  destruct (@loadConfig_spec Sample.lib _
              (Sample.platform (fun _ => inr []) Sample.good_config) "config.json" [])
    as (_ & Hpath & _).
  destruct Hpath as [Hok _]; [discriminate|].
  apply Hok.
  exists (jsontext "{'token':'secret'}"),
    (JObject [("token" : gostring, JString ("secret" : gostring))]), [].
  repeat split; vm_compute; reflexivity.
Defined.

(** C4 at the list of the test of [parseUsers]: three records, the first
    one with an [ID]. *)
Lemma parseUsers_valid_witness :
  parseUsers Sample.users_list
  = inl [ {| ID := Some 123; Login := "123"; Name := "Alice" |};
          {| ID := None; Login := "user2"; Name := "User Two" |};
          {| ID := None; Login := "user3"; Name := "User Three" |} ].
Proof.
  destruct (parseUsers_valid Sample.users_list
              ["123:Alice" : gostring; "user2:User Two" : gostring;
               "user3:User Three" : gostring]) as (users & Hp & HF).
  - apply tokens_of_splitList. vm_compute. reflexivity.
  - discriminate.
  - repeat constructor;
      (eexists _, _; split;
       [apply id_and_name_parts; vm_compute; reflexivity|split; discriminate]).
  - rewrite Hp. f_equal.
    repeat match goal with
           | H : Forall2 _ _ _ |- _ => inversion H; clear H; subst
           end.
    repeat match goal with
           | H : id_and_name _ (Login ?u) (Name ?u) /\ _ /\ _ |- _ =>
               destruct H as (Hn%id_and_name_parts & Hid & Hno);
               destruct u as [i l n]; cbn [ID Login Name] in Hn, Hid, Hno;
               vm_compute in Hn; injection Hn as <- <-;
               destruct i as [k|];
               [pose proof (proj1 (Hid k) eq_refl) as Hk; apply Atoi_base10 in Hk;
                vm_compute in Hk; first [discriminate|injection Hk as <-]
               |try (exfalso; apply (proj1 Hno eq_refl); exists 123;
                     apply Atoi_base10; vm_compute; reflexivity)];
               clear Hid Hno
           end.
    reflexivity.
Defined.

(** C6 at a list with white space around and between its tokens, and at a
    list whose second token holds a space. *)
Lemma parseContestIDs_spec_witness :
  parseContestIDs (" 101 ;" ++ ["009"%char] ++ "202 ,303" ++ ["009"%char])
  = inl [101; 202; 303] /\
  exists err, parseContestIDs "7; 8 9 ;10" = inr (ErrInvalidContestID "8 9" err).
Proof.
  split.
  - destruct (parseContestIDs_spec (" 101 ;" ++ ["009"%char] ++ "202 ,303" ++ ["009"%char]))
      as (tokens & Ht & _ & _ & _ & Hok & _).
    apply tokens_of_splitList in Ht. vm_compute in Ht. subst tokens.
    apply Hok; [discriminate|].
    repeat (constructor; [apply Atoi_base10; vm_compute; reflexivity|]). constructor.
  - destruct (parseContestIDs_spec "7; 8 9 ;10") as (tokens & Ht & _ & _ & _ & _ & Hbad).
    apply tokens_of_splitList in Ht. vm_compute in Ht. subst tokens.
    apply (Hbad ["7" : gostring] ("8 9" : gostring) ["10" : gostring]).
    + reflexivity.
    + constructor; [|constructor]. exists 7. apply Atoi_base10. vm_compute. reflexivity.
    + intros [id Hid%Atoi_base10]. vm_compute in Hid. discriminate.
Defined.

(** C7 at a reply that acknowledges the change, at a reply with an error
    whose number is 13, and at a reply without error that does not
    acknowledge. *)
Lemma changeRegistration_reply_witness :
  let blocked :=
    {| Message := "User is blocked"; Num := 13; Symbol := "USER_BLOCKED";
       LogID := "log-1" |} in
  (exists w',
     Sample.call (Sample.response 200 "200 OK" "application/json"
                    (jsontext "{'ok':true,'result':true,'action':'upsert'}"))
     = (w', None)) /\
  (exists w' code,
     decimal_text code 13 /\
     Sample.call (Sample.response 200 "200 OK" "application/json" Sample.blocked_body)
     = (w', Some (ErrServerError blocked)) /\
     callErrorText (ErrServerError blocked)
     = Some ("server error: User is blocked (code " ++ code
               ++ ", symbol USER_BLOCKED, log log-1)") /\
     callErrorText (ErrServerError blocked)
     = Some ("server error: User is blocked (code 13, symbol USER_BLOCKED, log log-1)"
             : gostring)) /\
  (exists w',
     Sample.call (Sample.response 200 "200 OK" "application/json"
                    (jsontext "{'ok':true}"))
     = (w', Some ErrNotAcknowledged)).
Proof.
  intros blocked. split; [|split].
  - eexists.
    apply (@changeRegistration_reply Sample.lib _
             (Sample.server (Sample.response 200 "200 OK" "application/json"
                               (jsontext "{'ok':true,'result':true,'action':'upsert'}")))
             Sample.client "http://127.0.0.1" "token" 1 Sample.user actionRegister 1000000000
             [] _ (Sample.response 200 "200 OK" "application/json"
                     (jsontext "{'ok':true,'result':true,'action':'upsert'}"))
             (jsontext "{'ok':true,'result':true,'action':'upsert'}")
             {| OK := true; Result := true; Error := None; Action := "upsert" |}).
    + answered_by_sample.
    + simpl. lia.
    + right. vm_compute. reflexivity.
    + vm_compute. reflexivity.
    + split; reflexivity.
  - destruct (@changeRegistration_reply Sample.lib _
                (Sample.server (Sample.response 200 "200 OK" "application/json"
                                  Sample.blocked_body))
                Sample.client "http://127.0.0.1" "token" 1 Sample.user actionRegister
                1000000000 []
                (Sample.call (Sample.response 200 "200 OK" "application/json"
                                Sample.blocked_body)).1
                (Sample.response 200 "200 OK" "application/json" Sample.blocked_body)
                Sample.blocked_body
                {| OK := false; Result := false; Error := Some blocked; Action := [] |})
      as (_ & Herr & _).
    + answered_by_sample.
    + simpl. lia.
    + right. vm_compute. reflexivity.
    + vm_compute. reflexivity.
    + destruct (Herr blocked eq_refl) as (code & Hc & Hr & Ht); [by intros [? _]|].
      eexists _, code. split; [exact Hc|]. split; [exact Hr|]. split; [exact Ht|].
      vm_compute. reflexivity.
  - eexists.
    apply (@changeRegistration_reply Sample.lib _
             (Sample.server (Sample.response 200 "200 OK" "application/json"
                               (jsontext "{'ok':true}")))
             Sample.client "http://127.0.0.1" "token" 1 Sample.user actionRegister 1000000000
             [] _ (Sample.response 200 "200 OK" "application/json" (jsontext "{'ok':true}"))
             (jsontext "{'ok':true}")
             {| OK := true; Result := false; Error := None; Action := [] |}).
    + answered_by_sample.
    + simpl. lia.
    + right. vm_compute. reflexivity.
    + vm_compute. reflexivity.
    + reflexivity.
    + by intros [_ ?].
Defined.

(* ===================================================================== *)
(** * The statements about lists, calls and [main] at concrete inputs *)
(* ===================================================================== *)

(** X1 at two lists with a comma between them. *)
Lemma splitList_concat_witness :
  splitList ("1; 2 " ++ ","%char :: " 3;") = splitList "1; 2 " ++ splitList " 3;".
Proof. apply splitList_concat. reflexivity. Defined.

(** X2 at two lists of contests. *)
Lemma parseContestIDs_concat_witness :
  parseContestIDs ("1; 2 " ++ ","%char :: " 3;") = inl [1; 2; 3].
Proof.
  etransitivity; [apply parseContestIDs_concat; reflexivity|].
  vm_compute. reflexivity.
Defined.

(** X3 at two lists of users. *)
Lemma parseUsers_concat_witness :
  parseUsers ("7:Ann Lee" ++ ";"%char :: "bob:Bob") = inl [Run.ann; Run.bob].
Proof.
  etransitivity; [apply parseUsers_concat; reflexivity|].
  vm_compute. reflexivity.
Defined.

(** X4 at a list of three contests. *)
Lemma parseContestIDs_ids_witness :
  [5; -6; 70] <> [] /\
  Forall2 (fun item id => Atoi item = inl id) (splitList "5, -6;70") [5; -6; 70] /\
  Forall (fun id => minInt <= id <= maxInt) [5; -6; 70].
Proof. apply parseContestIDs_ids. vm_compute. reflexivity. Defined.

(** X5 at the users of the run. *)
Lemma parseUsers_records_witness :
  [Run.ann; Run.bob] <> [] /\
  length [Run.ann; Run.bob] = length (splitList (usersArg Run.args)) /\
  Forall parsed_user [Run.ann; Run.bob].
Proof. apply parseUsers_records. vm_compute. reflexivity. Defined.

(** X6 at the second contest and the first user of the run. *)
Lemma form_ids_read_back_witness :
  let form := form_of actionRegister (6, Run.ann) in
  (exists s, form !! ("contest_id" : gostring) = Some [s] /\ Atoi s = inl 6) /\
  form !! ("other_user_login" : gostring) = Some [Login Run.ann] /\
  (forall id, ID Run.ann = Some id ->
     exists s, form !! ("other_user_id" : gostring) = Some [s] /\
               Atoi s = inl id /\ Atoi (Login Run.ann) = inl id) /\
  (ID Run.ann = None ->
     form !! ("other_user_id" : gostring) = None /\
     exists e, Atoi (Login Run.ann) = inr e).
Proof.
  apply (form_ids_read_back (contestsArg Run.args) (usersArg Run.args) [5; 6]
           [Run.ann; Run.bob] 6 Run.ann actionRegister).
  - vm_compute. reflexivity.
  - vm_compute. reflexivity.
  - right. left.
  - left.
  - reflexivity.
Defined.


(** X8 at an action that is no constant, and at a URL that is refused. *)
Lemma changeRegistration_sends_nothing_witness :
  @changeRegistration Sample.lib _ Run.platform Sample.client "http://127.0.0.1" "token" 1
    Sample.user "delete" 1000000000 []
  = ([], Some (ErrUnsupportedAction "delete")) /\
  @changeRegistration Run.no_request _ Run.platform Sample.client "http://127.0.0.1" "token" 1
    Sample.user actionRegister 1000000000 []
  = ([], Some (ErrCreatingRequest "invalid URL")).
Proof.
  split.
  - apply (@changeRegistration_sends_nothing Sample.lib _ Run.platform); discriminate.
  - apply (@changeRegistration_sends_nothing Run.no_request _ Run.platform);
      [by left|reflexivity].
Defined.

(** X9 at a reply that acknowledges the change. *)
Lemma changeRegistration_success_witness :
  let answer := Sample.response 200 "200 OK" "application/json"
                  (jsontext "{'ok':true,'result':true}") in
  exists form resp body reply,
    buildForm 1 Sample.user actionRegister = inl form /\
    @client_Do _ (Sample.server answer) Sample.client
      (buildRequest "http://127.0.0.1" "token" form 1000000000) []
    = ((Sample.call answer).1, inl resp) /\
    Body resp = inl body /\
    200 <= StatusCode resp < 300 /\
    (ContentType resp = [] \/ @isJSONContentType Sample.lib (ContentType resp) = true) /\
    Unmarshal_reply body zero_reply = (reply, None) /\
    OK reply = true /\ Result reply = true.
Proof.
  apply (@changeRegistration_success Sample.lib _
           (Sample.server (Sample.response 200 "200 OK" "application/json"
                             (jsontext "{'ok':true,'result':true}")))
           Sample.client "http://127.0.0.1" "token" 1 Sample.user actionRegister
           1000000000 []).
  vm_compute. reflexivity.
Defined.

(** X10 at a page of 201 bytes. *)
Lemma content_type_preview_bounded_witness :
  exists w' preview,
    Sample.call (Sample.response 200 "200 OK" "text/html" Sample.long_body)
    = (w', Some (ErrUnexpectedContentType "text/html" "200 OK" preview)) /\
    (length preview <= 203)%nat /\
    take 200 preview = take 200 Sample.long_body /\
    ((length Sample.long_body <= 200)%nat -> preview = Sample.long_body) /\
    ((200 < length Sample.long_body)%nat -> drop 200 preview = ("..." : gostring)).
Proof.
  eexists.
  apply (@content_type_preview_bounded Sample.lib _
           (Sample.server (Sample.response 200 "200 OK" "text/html" Sample.long_body))
           Sample.client "http://127.0.0.1" "token" 1 Sample.user actionRegister 1000000000
           [] _ (Sample.response 200 "200 OK" "text/html" Sample.long_body)
           Sample.long_body).
  - answered_by_sample.
  - simpl. lia.
  - discriminate.
  - vm_compute. reflexivity.
Defined.

(** X12 at a user whose name holds [&] and [=]. *)
Lemma request_body_separators_witness :
  let form := form_of actionRegister (1, {| ID := None; Login := "a&b"; Name := "x=1&op=delete" |}) in
  S (count_occ ascii_dec (Values_Encode form) "&"%char) = size form /\
  count_occ ascii_dec (Values_Encode form) "="%char = size form.
Proof.
  apply (request_body_separators 1 {| ID := None; Login := "a&b"; Name := "x=1&op=delete" |}
           actionRegister).
  reflexivity.
Defined.

(** X13 at the run: four lines, the last one an error, and the exit
    status 1. *)
Lemma main_exit_status_witness :
  (exists e, Run.outcome.1.2 = [LogFatal e] /\ Run.outcome.2 = 1 /\ Run.outcome.1.1 = []) \/
  (exists action users contests,
     (action = actionRegister \/ action = actionUnregister) /\
     parseUsers (usersArg Run.args) = inl users /\
     parseContestIDs (contestsArg Run.args) = inl contests /\
     length Run.outcome.1.2 = (length contests * length users)%nat /\
     existsb is_fatal Run.outcome.1.2 = false /\
     (Run.outcome.2 = 0 /\
      Run.outcome.1.2 = map (done_line action) (list_prod contests users) \/
      Run.outcome.2 = 1 /\ exists fl, last Run.outcome.1.2 = Some (LogError fl))).
Proof.
  apply (@main_exit_status Sample.lib _ Run.platform Run.args []).
  vm_compute. reflexivity.
Defined.

(** X14 at the run: the one error line is about the contest 5 and the user
    [bob]. *)
Lemma main_failures_witness :
  let fl := {| failContest := 5; failUser := "login=bob"; failError := ErrNotAcknowledged |} in
  exists users contests,
    parseUsers (usersArg Run.args) = inl users /\
    parseContestIDs (contestsArg Run.args) = inl contests /\
    failContest fl ∈ contests /\
    (exists u, u ∈ users /\ failUser fl = userIdentifier u) /\
    forall a, failError fl <> ErrUnsupportedAction a.
Proof.
  apply (@main_failures Sample.lib _ Run.platform Run.args [] Run.outcome.1.1
           Run.outcome.1.2 Run.outcome.2).
  - vm_compute. reflexivity.
  - vm_compute. repeat constructor.
Defined.

(** X15 at the run: four requests, with the token of the configuration
    file. *)
Lemma main_requests_witness :
  (exists e, Run.outcome.1.2 = [LogFatal e] /\ Run.outcome.1.1 = []) \/
  (exists action users contests cfg,
     (action = actionRegister \/ action = actionUnregister) /\
     parseUsers (usersArg Run.args) = inl users /\
     parseContestIDs (contestsArg Run.args) = inl contests /\
     @loadConfig _ Run.platform (TrimSpace (configArg Run.args)) [] = inl cfg /\
     resolved_token Run.args cfg <> [] /\
     TrimSpace (resolved_token Run.args cfg) = resolved_token Run.args cfg /\
     Run.outcome.1.1 = [] ++
       match @NewRequest_error Sample.lib
               (TrimSuffix_slash (baseURLArg Run.args) ++ changeRegistrationPath) with
       | Some _ => []
       | None =>
           map (fun p =>
                  {| reqURL := TrimSuffix_slash (baseURLArg Run.args) ++ changeRegistrationPath;
                     reqHeader := request_headers (resolved_token Run.args cfg);
                     reqBody := Values_Encode (form_of action p);
                     reqTimeout := timeoutArg Run.args |})
               (list_prod contests users)
       end).
Proof.
  apply (@main_requests Sample.lib Run.second_refused Sample.good_config Run.args []
           Run.outcome.1.1 Run.outcome.1.2 Run.outcome.2).
  vm_compute. reflexivity.
Defined.

(** X16 at the users of the run. *)
Lemma parseUsers_round_trip_witness :
  parseUsers (join_with ";" (map (fun u => Login u ++ ":" ++ Name u) [Run.ann; Run.bob]))
  = inl [Run.ann; Run.bob].
Proof.
  apply parseUsers_round_trip; [discriminate|].
  repeat constructor; try discriminate; vm_compute; congruence.
Defined.

(** X17 at three contest IDs, one of them negative. *)
Lemma parseContestIDs_round_trip_witness :
  parseContestIDs (join_with ";" (map Itoa [5; -6; 70])) = inl [5; -6; 70].
Proof.
  apply parseContestIDs_round_trip; [discriminate|].
  repeat constructor; vm_compute; discriminate.
Defined.

(** X18 at the action of the run, written with a capital and spaces. *)
Lemma parseAction_supported_witness :
  (actionRegister = actionRegister /\ actionVerb actionRegister = ("Registered" : gostring) \/
   actionRegister = actionUnregister /\
   actionVerb actionRegister = ("Unregistered" : gostring)) /\
  forall contestID user, exists form, buildForm contestID user actionRegister = inl form.
Proof.
  apply (@parseAction_supported Sample.lib (actionArg Run.args)).
  vm_compute. reflexivity.
Defined.
